(** * boundedShapePredSOTA: a shallow embedding of the geometric core

    The development follows [boundedShapePredSOTA.py]: the padding
    conventions of the dataset, the batch collator and the parent-shape
    encoder, the loss assembly of [train_batch], the two context-point
    samplers, the Bezier renderers and the recursive curve fitter.

    Floating-point tensors are read with exact arithmetic: rationals [Q]
    wherever the code only adds, multiplies, divides, compares and truncates,
    and reals [R] in the curve fitter, whose decisions depend on Euclidean
    norms.  Library routines whose result the code merely passes along
    (the optimiser, the cross-entropy losses, the norm used to place extra
    boundary points) are section variables. *)

From Stdlib Require Import List Bool Arith ZArith QArith Qabs Qround Lia Lqa.
From Stdlib Require Import Reals Lra.
Import ListNotations.

(* ================================================================== *)
(** * Part I: the embedding                                            *)
(* ================================================================== *)

(** ** Python results, exceptions and indexing *)
Module Py.

Inductive exn : Type :=
| IndexError
| TypeError
| RuntimeError
| ValueError
| AttributeError.

Inductive result (A : Type) : Type :=
| Ok (a : A)
| Raise (e : exn).
Arguments Ok {A} a.
Arguments Raise {A} e.

Definition bind {A B} (r : result A) (k : A -> result B) : result B :=
  match r with
  | Ok a => k a
  | Raise e => Raise e
  end.

Notation "x <- r ;; k" := (bind r (fun x => k))
  (at level 61, r at next level, right associativity).

(** [l[i]] with Python's reading of a negative index; [None] is an
    index out of range. *)
Definition index {A} (l : list A) (i : Z) : option A :=
  let n := Z.of_nat (length l) in
  if (0 <=? i)%Z then nth_error l (Z.to_nat i)
  else if (0 <=? n + i)%Z then nth_error l (Z.to_nat (n + i))
  else None.

Definition get {A} (l : list A) (i : Z) : result A :=
  match index l i with
  | Some a => Ok a
  | None => Raise IndexError
  end.

(** Monadic map, left to right, stopping at the first exception. *)
Fixpoint mapM {A B} (f : A -> result B) (l : list A) : result (list B) :=
  match l with
  | [] => Ok []
  | a :: l' => b <- f a ;; bs <- mapM f l' ;; Ok (b :: bs)
  end.

End Py.

(** ** Exact arithmetic on rationals *)
Module Num.
Local Open Scope Q_scope.

Definition Qltb (x y : Q) : bool := negb (Qle_bool y x).

Definition Qsum (l : list Q) : Q := fold_right Qplus 0 l.

Definition Qprod (l : list Q) : Q := fold_right Qmult 1 l.

Definition Qofnat (n : nat) : Q := inject_Z (Z.of_nat n).

(** [x.long()], [int(x)]: truncation towards zero. *)
Definition trunc (x : Q) : Z := Z.quot (Qnum x) (Zpos (Qden x)).

(** [np.linspace(a, b, n)] and [torch.linspace(a, b, steps=n)]: [n] values
    from [a] to [b], both ends included; a single value is [a]. *)
Definition linspace (a b : Q) (n : nat) : list Q :=
  map (fun i => a + Qofnat i * ((b - a) / Qofnat (n - 1))) (seq 0 n).

(** [np.linspace(a, b, n, endpoint=False)]. *)
Definition linspace_open (a b : Q) (n : nat) : list Q :=
  map (fun i => a + Qofnat i * ((b - a) / Qofnat n)) (seq 0 n).

(** [int(np.ceil(np.sqrt(n)))] for a count [n]. *)
Definition ceil_sqrt (n : nat) : nat :=
  let r := Nat.sqrt n in if (r * r =? n)%nat then r else S r.

End Num.

(** ** The six-column segment table and its padding *)
Module Codec.
Import Num.
Local Open Scope Q_scope.

(** One row [[c1x, c1y, c2x, c2y, ex, ey]] ([CURVE_PARAMS = 6]). *)
Record row : Type := mkRow {
  c1x : Q; c1y : Q; c2x : Q; c2y : Q; ex : Q; ey : Q
}.

Definition cols (r : row) : list Q :=
  [c1x r; c1y r; c2x r; c2y r; ex r; ey r].

(** A row of [-1 * torch.ones((pad_len, 6))]. *)
Definition fill_row (v : Q) : row := mkRow v v v v v v.

Definition pad_row : row := fill_row (-1).

(** [AugmentedDataset.__init__]: [pad_len = 30 - segs.size(0)];
    [torch.ones((pad_len, 6))] refuses a negative size. *)
Definition pad_to (T : nat) (segs : list row) : Py.result (list row) :=
  if (length segs <=? T)%nat
  then Py.Ok (segs ++ repeat pad_row (T - length segs))
  else Py.Raise Py.RuntimeError.

(** [torch.nn.utils.rnn.pad_sequence(seqs, batch_first=True, padding_value=v)]. *)
Definition max_len (seqs : list (list row)) : nat :=
  fold_right Nat.max 0%nat (map (@length row) seqs).

Definition pad_sequence (v : Q) (seqs : list (list row)) : list (list row) :=
  map (fun s => s ++ repeat (fill_row v) (max_len seqs - length s)) seqs.

(** [collate_fn]: [padding_mask = parent_bezier[:,:,0] < 0]. *)
Definition padding_mask (parent_bezier : list (list row)) : list (list bool) :=
  map (map (fun r => Qltb (c1x r) 0)) parent_bezier.

Definition collate_parent (pb : list (list row))
  : list (list row) * list (list bool) :=
  let parent_bezier := pad_sequence (-1) pb in
  (parent_bezier, padding_mask parent_bezier).

(** [SimpleShapeEncoder.forward], the part that derives the mask:
    [is_padding_segment = (shape_pts == -1).all(dim=2)]. *)
Definition is_padding_segment (r : row) : bool :=
  forallb (fun x => Qeq_bool x (-1)) (cols r).

(** [torch.where(is_padding_segment[i])[0]], first element if any. *)
Fixpoint first_pad_idx (rows : list row) : option nat :=
  match rows with
  | [] => None
  | r :: rows' =>
      if is_padding_segment r then Some 0%nat
      else option_map S (first_pad_idx rows')
  end.

Definition actual_length (rows : list row) : nat :=
  match first_pad_idx rows with
  | Some i => i
  | None => length rows
  end.

(** [valid_segment_mask_2D = s_indices < actual_lengths.unsqueeze(1)], after
    the cut [shape_pts[:, :self.seq_len, :]] of an over-long input. *)
Definition valid_segment_mask (seq_len : nat) (shape_pts : list (list row))
  : list (list bool) :=
  map (fun rows =>
         let rows := firstn seq_len rows in
         map (fun s => (s <? actual_length rows)%nat) (seq 0 (length rows)))
      shape_pts.

(** The encoder's reading of "row [s] of sample [b] is padding". *)
Definition encoder_padding (seq_len : nat) (shape_pts : list (list row))
  (b s : nat) : bool :=
  negb (nth s (nth b (valid_segment_mask seq_len shape_pts) []) false).

(** [train_batch]: the type a ground-truth row decodes to,
    [0] line, [1] quadratic, [2] cubic. *)
Definition all_neg (x y : Q) : bool := Qltb x 0 && Qltb y 0.

Definition gt_type (r : row) : nat :=
  let line := all_neg (c1x r) (c1y r) && all_neg (c2x r) (c2y r) in
  let quad := all_neg (c1x r) (c1y r) && negb (all_neg (c2x r) (c2y r)) in
  let cubic := negb (line || quad) in
  if cubic then 2%nat else if quad then 1%nat else 0%nat.

(** A line row ending at [(1/2, 1/2)]: both control pairs are the sentinel. *)
Definition line_row_example : row :=
  mkRow (-1) (-1) (-1) (-1) (1 # 2) (1 # 2).

End Codec.

(** ** The loss assembly of [train_batch] *)
Module Evaluator.
Import Num Codec.
Local Open Scope Q_scope.

(** What [train_batch] prints besides its progress line. *)
Inductive message : Type :=
| TypeLossMismatch (logits labels : nat).

(** The loss weights, [train_batch]'s keyword arguments. *)
Record weights : Type := mkWeights {
  lambda_curve : Q; lambda_stop : Q; lambda_len : Q; lambda_type : Q
}.

Definition default_weights : weights := mkWeights 2000 10 20 100.

(** [teacher_forcing = False], so [geom_scale = 10.0]. *)
Definition teacher_forcing : bool := false.
Definition geom_scale : Q := if teacher_forcing then 50 else 10.

(** [t[:, :n]]. *)
Definition slice_cols {A} (n : nat) (t : list (list A)) : list (list A) :=
  map (firstn n) t.

(** [(torch.arange(S)[None, :] < lengths[:, None]).float()]. *)
Definition valid_mask (S : nat) (lengths : list nat) : list (list Q) :=
  map (fun len => map (fun s => if (s <? len)%nat then 1 else 0) (seq 0 S)) lengths.

(** One row of [err = (pred - gt).abs() * mask.unsqueeze(-1)] on finite
    values; [Masked.err_row] is the same line on tensors that may hold
    infinities. *)
Definition err_row (p g : row) (m : Q) : list Q :=
  map (fun pg => Qabs (fst pg - snd pg) * m) (combine (cols p) (cols g)).

Definition err_sample (ps gs : list row) (ms : list Q) : list (list Q) :=
  map (fun pgm => err_row (fst (fst pgm)) (snd (fst pgm)) (snd pgm))
      (combine (combine ps gs) ms).

Definition err (pred gt : list (list row)) (mask : list (list Q))
  : list (list (list Q)) :=
  map (fun pgm => err_sample (fst (fst pgm)) (snd (fst pgm)) (snd pgm))
      (combine (combine pred gt) mask).

Definition sum2 (t : list (list Q)) : Q := Qsum (map Qsum t).
Definition sum3 (t : list (list (list Q))) : Q := Qsum (map sum2 t).

(** [x.clamp(min=lo)]. *)
Definition clamp_min (lo x : Q) : Q := if Qltb x lo then lo else x.

Definition tiny : Q := 1 # 1000000000.

(** Step 3, the curve L1 loss. *)
Definition loss_curve (w : weights) (S T_gt_dim : nat)
  (pred_segments gt_curves : list (list row)) (mask : list (list Q)) : Q :=
  let compare_len_curve := Nat.min S T_gt_dim in
  let pred_for_curve := slice_cols compare_len_curve pred_segments in
  let gt_for_curve := slice_cols compare_len_curve gt_curves in
  let mask_for_curve := slice_cols compare_len_curve mask in
  let e := err pred_for_curve gt_for_curve mask_for_curve in
  let num_valid_coords := clamp_min tiny (sum2 mask_for_curve * 6) in
  lambda_curve w * (sum3 e / num_valid_coords) * geom_scale.

(** Step 4, the stop target and its weights. *)
Definition target_stop (S : nat) (lengths : list nat) : list (list Q) :=
  map (fun len =>
         let stop_idx_gt := (len - 1)%nat in
         map (fun s => if (stop_idx_gt <=? s)%nat then 1 else 0) (seq 0 S))
      lengths.

Definition weight_for_stop_loss (target : list (list Q)) : list (list Q) :=
  map (map (fun t => if Qltb 0 t then 5 else 1)) target.

(** [torch.cumprod(x, dim=1)] on one sample. *)
Fixpoint cumprod_from (acc : Q) (l : list Q) : list Q :=
  match l with
  | [] => []
  | x :: l' => acc * x :: cumprod_from (acc * x) l'
  end.

Definition cumprod (l : list Q) : list Q := cumprod_from 1 l.

(** Step 5, the expected length of every sample. *)
Definition expected_length (B S : nat) (pred_stops : list (list Q)) : list Q :=
  let prob_continue := map (map (fun p => 1 - p)) pred_stops in
  match S with
  | 0%nat => repeat 0 B
  | 1%nat => repeat 1 B
  | _ =>
      map (fun pc =>
             let prob_continue_for_survival := 1 :: removelast pc in
             let survival_probabilities := cumprod prob_continue_for_survival in
             Qsum survival_probabilities)
          prob_continue
  end.

(** [x.mean()] of a one-dimensional tensor. *)
Definition mean (l : list Q) : Q := Qsum l / Qofnat (length l).

Definition loss_count (w : weights) (expected : list Q) (lengths : list nat) : Q :=
  lambda_len w
  * mean (map (fun el => Qabs (fst el - Qofnat (snd el))) (combine expected lengths))
  * geom_scale.

(** [t[mask.bool()]]: the entries at which the mask is set, in row-major
    order; the mask must have the shape of [t]'s two leading dimensions. *)
Definition same_shape {A B} (t : list (list A)) (m : list (list B)) : bool :=
  (length t =? length m)%nat
  && forallb (fun tm => (length (fst tm) =? length (snd tm))%nat) (combine t m).

Definition masked_select {A} (t : list (list A)) (mask : list (list Q))
  : Py.result (list A) :=
  if same_shape t mask
  then Py.Ok (concat (map (fun tm =>
                map fst (filter (fun xm => negb (Qeq_bool (snd xm) 0))
                                (combine (fst tm) (snd tm))))
              (combine t mask)))
  else Py.Raise Py.IndexError.

(** Step 6, the ground-truth types laid out on [S] columns. *)
Definition gt_types_for_masking (S T_gt_dim : nat) (gt_curves : list (list row))
  : list (list nat) :=
  let gt_types_source_len := Nat.min T_gt_dim S in
  let gt_types_potential := map (map gt_type) (slice_cols gt_types_source_len gt_curves) in
  if (gt_types_source_len <? S)%nat
  then map (fun tys => tys ++ repeat 0%nat (S - gt_types_source_len)) gt_types_potential
  else slice_cols S gt_types_potential.

Section Losses.

(** [F.binary_cross_entropy(input, target, weight=weight, reduction='mean')]
    and [F.cross_entropy(logits, labels)]. *)
Variable binary_cross_entropy : list (list Q) -> list (list Q) -> list (list Q) -> Q.
Variable cross_entropy : list (Q * Q * Q) -> list nat -> Q.

Definition loss_stop (w : weights) (S : nat) (pred_stops : list (list Q))
  (lengths : list nat) : Q :=
  let target := target_stop S lengths in
  lambda_stop w
  * binary_cross_entropy pred_stops target (weight_for_stop_loss target)
  * geom_scale.

(** Lines 1137-1144: the type term and what is printed for it. *)
Definition loss_type (w : weights) (type_logits_for_loss : list (Q * Q * Q))
  (gt_types_for_loss : list nat) : Q * list message :=
  if (0 <? 3 * length type_logits_for_loss)%nat then
    if (length type_logits_for_loss =? length gt_types_for_loss)%nat
    then (lambda_type w * cross_entropy type_logits_for_loss gt_types_for_loss
          * geom_scale, [])
    else (0, [TypeLossMismatch (length type_logits_for_loss)
                               (length gt_types_for_loss)])
  else (0, []).

(** Line 1147. *)
Definition total_loss (curve stop count type : Q) : Q :=
  curve + stop + count + type.

Record losses : Type := mkLosses {
  l_curve : Q; l_stop : Q; l_count : Q; l_type : Q; l_total : Q;
  printed : list message
}.

(** Steps 6 and 7 once the first three terms are known. *)
Definition finish (w : weights) (curve stop count : Q)
  (type_logits_for_loss : list (Q * Q * Q)) (gt_types_for_loss : list nat)
  : losses :=
  let tl := loss_type w type_logits_for_loss gt_types_for_loss in
  mkLosses curve stop count (fst tl) (total_loss curve stop count (fst tl)) (snd tl).

(** [train_batch] from the model's outputs to the loss terms; an empty batch
    returns before any of them is computed. *)
Definition train_batch (w : weights)
  (pred_segments : list (list row)) (pred_stops : list (list Q))
  (type_logits : list (list (Q * Q * Q)))
  (gt_curves : list (list row)) (lengths : list nat)
  : Py.result (option losses) :=
  let B := length gt_curves in
  if (B =? 0)%nat then Py.Ok None
  else
    let S := length (hd [] pred_segments) in
    let T_gt_dim := length (hd [] gt_curves) in
    let mask := valid_mask S lengths in
    let curve := loss_curve w S T_gt_dim pred_segments gt_curves mask in
    let stop := loss_stop w S pred_stops lengths in
    let count := loss_count w (expected_length B S pred_stops) lengths in
    Py.bind (masked_select type_logits mask) (fun type_logits_for_loss =>
    Py.bind (masked_select (gt_types_for_masking S T_gt_dim gt_curves) mask)
      (fun gt_types_for_loss =>
    Py.Ok (Some (finish w curve stop count type_logits_for_loss gt_types_for_loss)))).

End Losses.

(** The survival probability of step [k] as the specification words it: the
    product of "did not stop" over all earlier steps, [1] for step [0]. *)
Definition survival (stops : list Q) (k : nat) : Q :=
  Qprod (map (fun p => 1 - p) (firstn k stops)).

Definition expected_length_spec (stops : list Q) : Q :=
  Qsum (map (survival stops) (seq 0 (length stops))).

(** The sum of the products of all prefixes of [l], the empty one included. *)
Definition prefix_sum (l : list Q) : Q :=
  Qsum (map (fun k => Qprod (firstn k l)) (seq 0 (S (length l)))).

(** One row of the validity mask. *)
Definition mask_row (S len : nat) : list Q :=
  map (fun s => if (s <? len)%nat then 1 else 0) (seq 0 S).

(** The absolute error of one row pair, summed over its six columns. *)
Definition row_abs (pg : row * row) : Q :=
  Qsum (map (fun xy => Qabs (fst xy - snd xy)) (combine (cols (fst pg)) (cols (snd pg)))).

Definition err_pairs (L : list (row * row)) (ms : list Q) : list (list Q) :=
  map (fun pgm => err_row (fst (fst pgm)) (snd (fst pgm)) (snd pgm)) (combine L ms).

(** The absolute error summed over the first [len] rows of a sample. *)
Definition abs_err_valid (len : nat) (ps gs : list row) : Q :=
  Qsum (map row_abs (firstn len (combine ps gs))).

(** The numerator and the count of valid rows, written over the valid
    positions alone. *)
Definition valid_abs_err (c : nat) (pred gt : list (list row)) (lengths : list nat) : Q :=
  Qsum (map (fun pgl => abs_err_valid (Nat.min (snd pgl) c) (fst (fst pgl)) (snd (fst pgl)))
            (combine (combine pred gt) lengths)).

Definition valid_rows (c : nat) (lengths : list nat) : Q :=
  Qsum (map (fun len => Qofnat (Nat.min len c)) lengths).

(** The number of positions at which a mask is set. *)
Definition count_set (mask : list (list Q)) : nat :=
  length (concat (map (filter (fun m => negb (Qeq_bool m 0))) mask)).


End Evaluator.

(** ** The renderers *)
Module Renderer.
Import Num Codec.
Local Open Scope Q_scope.

Definition pt : Type := (Q * Q)%type.

Definition scale (a : Q) (p : pt) : pt := (a * fst p, a * snd p).
Definition add (p q : pt) : pt := (fst p + fst q, snd p + snd q).

Definition pt_eq (p q : pt) : Prop := fst p == fst q /\ snd p == snd q.
Definition pt_eqb (p q : pt) : bool :=
  Qeq_bool (fst p) (fst q) && Qeq_bool (snd p) (snd q).

Fixpoint polyline_eqb (l l' : list pt) : bool :=
  match l, l' with
  | [], [] => true
  | p :: l, q :: l' => pt_eqb p q && polyline_eqb l l'
  | _, _ => false
  end.

(** The three slices of a row: [row[0:2]], [row[2:4]], [row[4:6]]. *)
Definition ctrl1 (r : row) : pt := (c1x r, c1y r).
Definition ctrl2 (r : row) : pt := (c2x r, c2y r).
Definition endpoint (r : row) : pt := (ex r, ey r).

(** [bezier_curve(p0, c1, c2, p1, n_points)]. *)
Definition bezier_curve (p0 c1 c2 p1 : pt) (n_points : nat) : list pt :=
  map (fun t =>
         add (add (add (scale ((1 - t) ^ 3) p0)
                       (scale (3 * (1 - t) ^ 2 * t) c1))
                  (scale (3 * (1 - t) * t ^ 2) c2))
             (scale (t ^ 3) p1))
      (linspace 0 1 n_points).

(** The loop of [render_bezier_sequence] from row [i] on. *)
Fixpoint render_loop (i : nat) (current_p0 : pt) (rows : list row)
  (n_samples_per_segment : nat) : list (list pt) :=
  match rows with
  | [] => []
  | r :: rows' =>
      let c1 := ctrl1 r in
      let c2 := ctrl2 r in
      let p1 := endpoint r in
      let segment_points := bezier_curve current_p0 c1 c2 p1 n_samples_per_segment in
      (if (i =? 0)%nat then segment_points else tl segment_points)
        :: render_loop (S i) p1 rows' n_samples_per_segment
  end.

(** [render_bezier_sequence(curve_params_tensor, initial_p0,
    n_samples_per_segment)]; [None] and an empty tensor give no point. *)
Definition render_bezier_sequence (curve_params_tensor : option (list row))
  (initial_p0 : pt) (n_samples_per_segment : nat) : list pt :=
  match curve_params_tensor with
  | None => []
  | Some rows =>
      if (6 * length rows =? 0)%nat then []
      else concat (render_loop 0 initial_p0 rows n_samples_per_segment)
  end.

(** [render_segment(start_pt, seg, seg_type, steps)] of
    [visualize_predictions]. *)
Definition render_segment (start_pt : pt) (seg : row) (seg_type : nat) (steps : nat)
  : list pt :=
  if (seg_type =? 0)%nat then
    let end_pt := endpoint seg in
    [start_pt; end_pt]
  else if (seg_type =? 1)%nat then
    let ctrl_pt := ctrl2 seg in
    let end_pt := endpoint seg in
    map (fun t =>
           let B0 := (1 - t) ^ 2 in
           let B1 := 2 * (1 - t) * t in
           let B2 := t ^ 2 in
           add (add (scale B0 start_pt) (scale B1 ctrl_pt)) (scale B2 end_pt))
        (linspace 0 1 steps)
  else
    let p1 := ctrl1 seg in
    let p2 := ctrl2 seg in
    let p3 := endpoint seg in
    map (fun t =>
           let B0 := (1 - t) ^ 3 in
           let B1 := 3 * (1 - t) ^ 2 * t in
           let B2 := 3 * (1 - t) * t ^ 2 in
           let B3 := t ^ 3 in
           add (add (add (scale B0 start_pt) (scale B1 p1)) (scale B2 p2)) (scale B3 p3))
        (linspace 0 1 steps).

(** The type [visualize_predictions] infers for a ground-truth row. *)
Definition inferred_type (seg : row) : nat :=
  let negs := length (filter (fun x => Qeq_bool x (-1))
                             [c1x seg; c1y seg; c2x seg; c2y seg]) in
  if (negs =? 4)%nat then 0%nat else if (negs =? 2)%nat then 1%nat else 2%nat.

(** The standard Bezier curve of the control polygon [ps], in Bernstein
    form: the sum of [C(n,i) (1-t)^(n-i) t^i P_i] with [n + 1] control
    points. *)
Fixpoint binom (n k : nat) : nat :=
  match n, k with
  | _, O => 1
  | O, S _ => 0
  | S n', S k' => binom n' k' + binom n' k
  end.

Definition bernstein (n i : nat) (t : Q) : Q :=
  Qofnat (binom n i) * (1 - t) ^ Z.of_nat (n - i) * t ^ Z.of_nat i.

Fixpoint bezier_terms (n i : nat) (ps : list pt) (t : Q) : pt :=
  match ps with
  | [] => (0, 0)
  | p :: ps' => add (scale (bernstein n i t) p) (bezier_terms n (S i) ps' t)
  end.

Definition bezier_std (ps : list pt) (t : Q) : pt :=
  bezier_terms (length ps - 1) 0 ps t.

(** The start point of row [i] of a path: the supplied point for the first
    row, the previous row's endpoint otherwise. *)
Definition start_of (initial_p0 : pt) (rows : list row) (i : nat) : pt :=
  match i with
  | O => initial_p0
  | S j => endpoint (nth j rows pad_row)
  end.

(** The path every row of which is drawn as a cubic, [n] uniform samples
    each, the first sample of every row but the first left out. *)
Definition cubic_path (initial_p0 : pt) (rows : list row) (n : nat) : list pt :=
  concat (map (fun i =>
                 let r := nth i rows pad_row in
                 let poly := map (bezier_std [start_of initial_p0 rows i;
                                              ctrl1 r; ctrl2 r; endpoint r])
                                 (linspace 0 1 n) in
                 if (i =? 0)%nat then poly else tl poly)
              (seq 0 (length rows))).

(** A line row from the running start to [(1, 1)]. *)
Definition unit_line_row : row := mkRow (-1) (-1) (-1) (-1) 1 1.

End Renderer.

(** ** The context-point samplers *)
Module Sampler.
Import Num.
Local Open Scope Q_scope.

Definition pt : Type := (Q * Q)%type.

(** A binary mask: [H] rows of [W] pixel values, foreground where [> 0]. *)
Definition mask : Type := list (list Z).

Definition height (m : mask) : Z := Z.of_nat (length m).
Definition width (m : mask) : Z := Z.of_nat (length (hd [] m)).

Definition vsub (p q : pt) : pt := (fst p - fst q, snd p - snd q).
Definition vadd (p q : pt) : pt := (fst p + fst q, snd p + snd q).
Definition vscale (t : Q) (v : pt) : pt := (t * fst v, t * snd v).

Definition eps12 : Q := 1 # 1000000000000.
Definition eps9 : Q := 1 # 1000000000.

Definition indexed {A} (l : list A) : list (nat * A) :=
  combine (seq 0 (length l)) l.

(** [ys, xs = np.where(parent_bin > 0)]: the foreground pixels [(y, x)] in
    row-major order. *)
Definition where_pos (m : mask) : list (nat * nat) :=
  concat (map (fun yr =>
                 map (fun xv => (fst yr, fst xv))
                     (filter (fun xv => (0 <? snd xv)%Z) (indexed (snd yr))))
              (indexed m)).

(** [np.cumsum], [lens.cumsum(dim=0)]. *)
Fixpoint cumsum_from (acc : Q) (l : list Q) : list Q :=
  match l with
  | [] => []
  | x :: l' => (acc + x) :: cumsum_from (acc + x) l'
  end.

Definition cumsum (l : list Q) : list Q := cumsum_from 0 l.

(** [np.searchsorted(a, v, side='right')] on a sorted array: the first
    index whose entry exceeds [v]. *)
Fixpoint searchsorted_right (a : list Q) (v : Q) : nat :=
  match a with
  | [] => 0%nat
  | x :: a' => if Qle_bool x v then S (searchsorted_right a' v) else 0%nat
  end.

(** [torch.bucketize(v, boundaries)] on sorted boundaries: the first index
    whose entry is at least [v]. *)
Fixpoint bucketize (boundaries : list Q) (v : Q) : nat :=
  match boundaries with
  | [] => 0%nat
  | x :: b' => if Qltb x v then S (bucketize b' v) else 0%nat
  end.

(** [x.clamp(lo, hi)] on indices. *)
Definition clamp (lo hi x : Z) : Z := Z.min hi (Z.max lo x).

(** [xx, yy = meshgrid(xs, ys, indexing='xy')] flattened row by row and
    stacked: the candidates [(xs[j], ys[i])], [i] outermost. *)
Definition grid (xs ys : list Q) : list pt :=
  concat (map (fun y => map (fun x => (x, y)) xs) ys).

(** [sel[:,0] = (sel[:,0] / (W - 1 + 1e-9)) * sx], and the same for [y]. *)
Definition normalise (W H : Z) (sx sy : Q) (p : pt) : pt :=
  ((fst p / (inject_Z W - 1 + eps9)) * sx, (snd p / (inject_Z H - 1 + eps9)) * sy).

Section WithNorm.

(** [np.hypot(dx, dy)], [vecs.norm(dim=1)]: the length of an edge vector. *)
Variable hypot : Q -> Q -> Q.

(** [edges = vstack([verts, verts[0]])], [vecs = edges[1:] - edges[:-1]],
    [lens = hypot(vecs[:,0], vecs[:,1])]. *)
Definition edge_vecs (verts : list pt) : list pt :=
  let edges := verts ++ firstn 1 verts in
  map (fun ab => vsub (snd ab) (fst ab)) (combine (removelast edges) (tl edges)).

Definition edge_lens (vecs : list pt) : list Q :=
  map (fun v => hypot (fst v) (snd v)) vecs.

(** One pass of the loop [for d in dists]. *)
Definition boundary_extra (verts vecs : list pt) (lens cum : list Q) (d : Q)
  : Py.result pt :=
  let i := (Z.of_nat (searchsorted_right cum d) - 1)%Z in
  Py.bind (Py.get cum i) (fun cum_i =>
  Py.bind (Py.get lens i) (fun lens_i =>
  let t := (d - cum_i) / (lens_i + eps12) in
  Py.bind (Py.get verts i) (fun verts_i =>
  Py.bind (Py.get vecs i) (fun vecs_i =>
  Py.Ok (vadd verts_i (vscale t vecs_i)))))).

(** Step 1 of [generate_deterministic_context_points]. *)
Definition boundary_sampling (parent_verts_scaled : option (list pt))
  (N_boundary : nat) : Py.result (list pt) :=
  match parent_verts_scaled with
  | Some verts =>
      if (0 <? N_boundary)%nat && (2 <=? length verts)%nat then
        let take_verts := Nat.min (length verts) N_boundary in
        let pts := firstn take_verts verts in
        let extra := (N_boundary - take_verts)%nat in
        if (0 <? extra)%nat then
          let vecs := edge_vecs verts in
          let lens := edge_lens vecs in
          let perim := Qsum lens in
          let dists := linspace_open 0 perim extra in
          let cum := 0 :: cumsum lens in
          Py.bind (Py.mapM (boundary_extra verts vecs lens cum) dists)
                  (fun extras => Py.Ok (pts ++ extras))
        else Py.Ok pts
      else Py.Ok []
  | None => Py.Ok []
  end.

(** Step 2: the [needed] points that fill up to [N_total]. *)
Definition interior_sampling (parent_verts_scaled : option (list pt))
  (bin : mask) (needed : nat) (W H : Z) (sx sy : Q) : Py.result (list pt) :=
  let fg := where_pos bin in
  let M := length fg in
  if (0 <? M)%nat then
    let idxs := map trunc (linspace 0 (Qofnat M - 1) needed) in
    Py.bind (Py.mapM (Py.get fg) idxs) (fun picked =>
    let sel := map (fun yx => (Qofnat (snd yx), Qofnat (fst yx))) picked in
    Py.Ok (map (normalise W H sx sy) sel))
  else
    match parent_verts_scaled with
    | Some (v :: vs) =>
        let pool := v :: vs in
        let idxs := map (fun k => Z.of_nat (k mod length pool)) (seq 0 needed) in
        Py.mapM (Py.get pool) idxs
    | _ =>
        let side := ceil_sqrt needed in
        let xs_lin := linspace 0 (inject_Z W - 1) side in
        let ys_lin := linspace 0 (inject_Z H - 1) side in
        let g := firstn needed (grid xs_lin ys_lin) in
        Py.Ok (map (normalise W H sx sy) g)
    end.

(** [generate_deterministic_context_points(parent_verts_scaled, parent_bin,
    N_total, N_boundary, W, H, sx, sy)]. *)
Definition generate_deterministic_context_points
  (parent_verts_scaled : option (list pt)) (parent_bin : option mask)
  (N_total N_boundary : nat) (W H : Z) (sx sy : Q) : Py.result (list pt) :=
  Py.bind (boundary_sampling parent_verts_scaled N_boundary) (fun pts =>
  let needed := (N_total - length pts)%nat in
  Py.bind
    (match parent_bin with
     | Some bin =>
         if (0 <? needed)%nat then
           Py.bind (interior_sampling parent_verts_scaled bin needed W H sx sy)
                   (fun more => Py.Ok (pts ++ more))
         else Py.Ok pts
     | None => Py.Ok pts
     end)
    (fun pts =>
  Py.Ok (if (N_total <? length pts)%nat then firstn N_total pts else pts))).

(** Step 1 of [generate_deterministic_context_points_gpu]. *)
Definition boundary_sampling_gpu (parent_verts_scaled : option (list pt))
  (N_boundary : nat) : Py.result (list pt) :=
  let zeros := repeat (0, 0) N_boundary in
  match parent_verts_scaled with
  | Some V =>
      if (0 <? N_boundary)%nat && (1 <=? length V)%nat then
        let extra := (N_boundary - length V)%nat in
        if (0 <? extra)%nat then
          let vecs := edge_vecs V in
          let lens := edge_lens vecs in
          let perim := Qsum lens in
          let dists := linspace 0 perim extra in
          let cum := 0 :: cumsum lens in
          let idx := map (fun d => clamp 0 (Z.of_nat (length lens) - 1)
                                         (Z.of_nat (bucketize cum d) - 1)) dists in
          Py.bind (Py.mapM (fun di =>
                     let d := fst di in
                     let i := snd di in
                     Py.bind (Py.get cum i) (fun cum_i =>
                     Py.bind (Py.get lens i) (fun lens_i =>
                     let t := (d - cum_i) / (lens_i + eps12) in
                     Py.bind (Py.get V i) (fun V_i =>
                     Py.bind (Py.get vecs i) (fun vecs_i =>
                     Py.Ok (vadd V_i (vscale t vecs_i)))))))
                   (combine dists idx))
                  (fun extra_pts => Py.Ok (V ++ extra_pts))
        else Py.Ok V
      else Py.Ok zeros
  | None => Py.Ok zeros
  end.

End WithNorm.

(** Step 2 of the GPU variant: the uniform grid inside the mask. *)
Definition interior_grid_gpu (bin : mask) (N_interior : nat) : Py.result (list pt) :=
  let H := height bin in
  let W := width bin in
  let g := ceil_sqrt N_interior in
  let xs := linspace 0 (inject_Z W - 1) g in
  let ys := linspace 0 (inject_Z H - 1) g in
  let cand := grid xs ys in
  Py.bind (Py.mapM (fun c =>
             let ix := trunc (snd c) in
             let jx := trunc (fst c) in
             Py.bind (Py.get bin ix) (fun row =>
             Py.bind (Py.get row jx) (fun v => Py.Ok (c, (0 <? v)%Z))))
           cand) (fun tagged =>
  let valid := map fst (filter snd tagged) in
  let Mv := length valid in
  Py.bind
    (if (N_interior <=? Mv)%nat then Py.Ok (firstn N_interior valid)
     else
       match rev valid with
       | last_valid :: _ => Py.Ok (valid ++ repeat last_valid (N_interior - Mv))
       | [] => Py.Raise Py.RuntimeError
       end)
    (fun sel => Py.Ok (map (normalise W H 1 1) sel))).

(** [generate_deterministic_context_points_gpu(parent_verts_scaled,
    parent_bin, N_total, N_boundary, N_interior)]. *)
Definition generate_deterministic_context_points_gpu (hypot : Q -> Q -> Q)
  (parent_verts_scaled : option (list pt)) (parent_bin : option mask)
  (N_total N_boundary N_interior : nat) : Py.result (list pt) :=
  match parent_bin with
  | None => Py.Raise Py.AttributeError
  | Some bin =>
      Py.bind (boundary_sampling_gpu hypot parent_verts_scaled N_boundary) (fun pts =>
      Py.bind
        (if (0 <? N_interior)%nat then interior_grid_gpu bin N_interior
         else Py.Ok (repeat (0, 0) N_interior))
        (fun pts_i =>
      let pts := pts ++ pts_i in
      Py.bind
        (if (length pts <? N_total)%nat then
           match rev pts with
           | last_pt :: _ => Py.Ok (pts ++ repeat last_pt (N_total - length pts))
           | [] => Py.Raise Py.IndexError
           end
         else Py.Ok pts)
        (fun pts => Py.Ok (firstn N_total pts))))
  end.

(** A norm to run the samplers with: the Euclidean norm rounded down to a
    multiple of [2^-24]. *)
Definition hypot_dyadic (x y : Q) : Q :=
  inject_Z (Z.sqrt (Qfloor ((x * x + y * y) * inject_Z (4 ^ 24))))
  / inject_Z (2 ^ 24).

(** A 2 x 2 mask whose pixel [(0, 0)] is background, and an empty one. *)
Definition corner_off_mask : mask := [[0; 1]; [1; 1]]%Z.
Definition blank_mask : mask := [[0; 0]; [0; 0]]%Z.

End Sampler.

(** ** The recursive curve fitter *)
Module Fitter.
Local Open Scope R_scope.

Definition point : Type := (R * R)%type.

Definition psub (p q : point) : point := (fst p - fst q, snd p - snd q).
Definition padd (p q : point) : point := (fst p + fst q, snd p + snd q).
Definition pscale (a : R) (p : point) : point := (a * fst p, a * snd p).
Definition dot (u v : point) : R := fst u * fst v + snd u * snd v.

(** [np.linalg.norm] of a point. *)
Definition norm (v : point) : R := sqrt (fst v * fst v + snd v * snd v).

Definition Rsum (l : list R) : R := fold_right Rplus 0 l.

(** [np.diff(segment, axis=0)]. *)
Definition diffs (segment : list point) : list point :=
  map (fun ab => psub (snd ab) (fst ab)) (combine segment (tl segment)).

(** [np.linspace(0, 1, n)]. *)
Definition linspace01 (n : nat) : list R :=
  map (fun i => 0 + INR i * ((1 - 0) / INR (n - 1))) (seq 0 n).

(** The thresholds [1e-8] of both metrics. *)
Definition tol : R := / 100000000.

(** A fitted piece [(p0, ctrl, p2, type_flag)]. *)
Definition fitted : Type := (point * point * point * nat)%type.

Definition type_flag (f : fitted) : nat := snd f.

(** [measure_complexity(segment)] of a segment whose first point is [p0]. *)
Definition measure_complexity (p0 : point) (segment : list point) : R :=
  let chord := norm (psub (last segment p0) p0) in
  let arc := Rsum (map norm (diffs segment)) in
  if Rlt_dec tol chord then arc / chord else 1.

(** [int(np.argmax(devs))]: the first index of the largest value. *)
Fixpoint argmax_from (l : list R) (i best_i : nat) (best : R) : nat :=
  match l with
  | [] => best_i
  | x :: l' =>
      if Rlt_dec best x then argmax_from l' (S i) i x
      else argmax_from l' (S i) best_i best
  end.

Definition argmax (l : list R) : nat :=
  match l with
  | [] => 0%nat
  | x :: l' => argmax_from l' 1 0 x
  end.

(** [find_max_deviation_point(segment)]: the index is [None] on a chord
    shorter than [1e-8]. *)
Definition find_max_deviation_point (p0 : point) (segment : list point)
  : option nat * R :=
  let p1 := last segment p0 in
  let chord := psub p1 p0 in
  let L := norm chord in
  if Rlt_dec L tol then (None, 0)
  else
    let unit := pscale (/ L) chord in
    let normal := (- snd unit, fst unit) in
    let devs := map (fun pt => Rabs (dot (psub pt p0) normal)) segment in
    let idx := argmax devs in
    (Some idx, nth idx devs 0).

(** What a call returns: pieces, an exception, or nothing within the
    allowed recursion depth. *)
Inductive outcome : Type :=
| Done (pieces : list fitted)
| Raised (e : Py.exn)
| OutOfFuel.

Section WithOptimiser.

(** [minimize(loss, init, method='Powell').x]. *)
Variable minimize : (point -> R) -> point -> point.

(** [fit_quadratic_bezier(points)] of a segment whose first point is [p0]. *)
Definition fit_quadratic_bezier (p0 : point) (points : list point) : fitted :=
  let p2 := last points p0 in
  let loss := fun p1 : point =>
    let curve := map (fun t => padd (padd (pscale ((1 - t) ^ 2) p0)
                                          (pscale (2 * (1 - t) * t) p1))
                                    (pscale (t ^ 2) p2))
                     (linspace01 (length points)) in
    Rsum (map (fun cp => norm (psub (fst cp) (snd cp))) (combine curve points)) in
  let init := pscale (/ 2) (padd p0 p2) in
  (p0, minimize loss init, p2, 1%nat).

(** [split_and_fit(segment, threshold_complex, threshold_dev)]; [fuel]
    bounds the depth of the recursion. *)
Fixpoint split_and_fit (fuel : nat) (segment : list point)
  (threshold_complex threshold_dev : R) : outcome :=
  match fuel with
  | O => OutOfFuel
  | S fuel' =>
      match segment with
      | [] => Raised Py.IndexError
      | p0 :: _ =>
          let comp := measure_complexity p0 segment in
          if Rle_dec comp threshold_complex then
            let p2 := last segment p0 in
            Done [(p0, p0, p2, 0%nat)]
          else
            match find_max_deviation_point p0 segment with
            | (None, dev) =>
                if Rle_dec dev threshold_dev
                then Done [fit_quadratic_bezier p0 segment]
                else Raised Py.TypeError
            | (Some idx, dev) =>
                if Rle_dec dev threshold_dev then Done [fit_quadratic_bezier p0 segment]
                else if ((idx =? 0) || (idx =? length segment - 1))%nat
                then Done [fit_quadratic_bezier p0 segment]
                else
                  match split_and_fit fuel' (firstn (idx + 1) segment)
                                      threshold_complex threshold_dev with
                  | Done first =>
                      match split_and_fit fuel' (skipn idx segment)
                                          threshold_complex threshold_dev with
                      | Done second => Done (first ++ second)
                      | other => other
                      end
                  | other => other
                  end
            end
      end
  end.

End WithOptimiser.



(** An optimiser that gives back its starting point, to run the fitter on
    examples, and three points of the x axis. *)
Definition keep_init (loss : point -> R) (init : point) : point := init.

Definition axis_points : list point := [(1, 0); (2, 0)].

End Fitter.

(** ** Shapes of the fitter's input and output *)
Module FitterShape.
Import Fitter.
Local Open Scope R_scope.

(** The two ends of a fitted piece [(p0, ctrl, p2, type_flag)]. *)
Definition piece_start (f : fitted) : point := fst (fst (fst f)).
Definition piece_end (f : fitted) : point := snd (fst f).

(** Pieces that lead from [a] to [b], each starting where the previous one
    ends. *)
Fixpoint chain (a : point) (pieces : list fitted) (b : point) : Prop :=
  match pieces with
  | [] => False
  | f :: rest =>
      piece_start f = a
      /\ match rest with
         | [] => piece_end f = b
         | _ :: _ => chain (piece_end f) rest b
         end
  end.

(** The list [devs] of [find_max_deviation_point] on a chord of length at
    least [1e-8]. *)
Definition deviations (p0 : point) (segment : list point) : list R :=
  let chord := psub (last segment p0) p0 in
  let unit := pscale (/ norm chord) chord in
  let normal := (- snd unit, fst unit) in
  map (fun pt => Rabs (dot (psub pt p0) normal)) segment.

(** [r] is the first index of the largest entry of [l]. *)
Definition first_max (l : list R) (r : nat) : Prop :=
  (r < length l)%nat
  /\ (forall j, (j < length l)%nat -> nth j l 0 <= nth r l 0)
  /\ (forall j, (j < r)%nat -> nth j l 0 < nth r l 0).

(** Points of one line, in any order. *)
Definition collinear (segment : list point) : Prop :=
  exists (o d : point) (ss : list R),
    segment = map (fun s => padd o (pscale s d)) ss.

(** Three points of the x axis, the middle one visited last, and a roof
    over the x axis. *)
Definition back_and_forth : list point := [(0, 0); (2, 0); (1, 0)].
Definition roof : list point := [(0, 0); (1, 1); (2, 0)].

(** Every coordinate is at most [M] in absolute value. *)
Definition on_canvas (M : R) (segment : list point) : Prop :=
  Forall (fun p : point => Rabs (fst p) <= M /\ Rabs (snd p) <= M) segment.

End FitterShape.

(** ** The post-processing of [PolygonPredictor.forward] *)
Module Predictor.
Import Num Codec.
Local Open Scope Q_scope.

(** A float that may be infinite: [masked_fill(~mask, float('inf'))] puts
    infinities into the tensors that are reduced next. *)
Inductive ext : Type :=
| Fin (q : Q)
| PInf
| NInf
| NaN.

Definition ext_min (a b : ext) : ext :=
  match a, b with
  | NaN, _ | _, NaN => NaN
  | NInf, _ | _, NInf => NInf
  | PInf, x | x, PInf => x
  | Fin x, Fin y => Fin (if Qle_bool x y then x else y)
  end.

Definition ext_max (a b : ext) : ext :=
  match a, b with
  | NaN, _ | _, NaN => NaN
  | PInf, _ | _, PInf => PInf
  | NInf, x | x, NInf => x
  | Fin x, Fin y => Fin (if Qle_bool x y then y else x)
  end.

Definition ext_neg (a : ext) : ext :=
  match a with
  | Fin x => Fin (- x)
  | PInf => NInf
  | NInf => PInf
  | NaN => NaN
  end.

(** [x * inf]. *)
Definition inf_times (x : Q) : ext :=
  if Qltb 0 x then PInf else if Qltb x 0 then NInf else NaN.

Definition ext_mul (a b : ext) : ext :=
  match a, b with
  | NaN, _ | _, NaN => NaN
  | Fin x, Fin y => Fin (x * y)
  | Fin x, PInf | PInf, Fin x => inf_times x
  | Fin x, NInf | NInf, Fin x => ext_neg (inf_times x)
  | PInf, PInf | NInf, NInf => PInf
  | PInf, NInf | NInf, PInf => NInf
  end.

Definition ext_add (a b : ext) : ext :=
  match a, b with
  | NaN, _ | _, NaN => NaN
  | Fin x, Fin y => Fin (x + y)
  | PInf, NInf | NInf, PInf => NaN
  | PInf, _ | _, PInf => PInf
  | NInf, _ | _, NInf => NInf
  end.

Definition ext_sub (a b : ext) : ext := ext_add a (ext_neg b).

(** [x.clamp(min=lo)]. *)
Definition ext_clamp_min (lo : Q) (a : ext) : ext :=
  match a with
  | Fin x => Fin (if Qltb x lo then lo else x)
  | NInf => Fin lo
  | PInf => PInf
  | NaN => NaN
  end.

(** [t.min(dim=1)] and [t.max(dim=1)] on one sample; a dimension of size
    [0] is refused. *)
Definition reduce (op : ext -> ext -> ext) (l : list ext) : Py.result ext :=
  match l with
  | [] => Py.Raise Py.IndexError
  | v :: vs => Py.Ok (fold_left op vs v)
  end.

Definition pt : Type := (Q * Q)%type.

(** [t.reshape(B, -1, 2)] on one sample: the three coordinate pairs of
    every row. *)
Definition points_of (rows : list row) : list pt :=
  concat (map (fun r => [(c1x r, c1y r); (c2x r, c2y r); (ex r, ey r)]) rows).

(** [vals.masked_fill(m, fill)]. *)
Definition masked_fill (vals : list Q) (m : list bool) (fill : ext) : list ext :=
  map (fun vm : Q * bool => if snd vm then fill else Fin (fst vm)) (combine vals m).

Definition range_eps : Q := 1 # 1000000.

(** [t.reshape(B, -1, 2)] is refused on a tensor without elements, the
    dimension [-1] being ambiguous then. *)
Definition reshape_pairs {A} (t : list A) : Py.result unit :=
  match t with
  | [] => Py.Raise Py.RuntimeError
  | _ :: _ => Py.Ok tt
  end.

(** Step 4, the parent's box [(parent_mins, parent_ranges)] of one
    sample. *)
Definition parent_box (parent_bezier : list row)
  : Py.result ((ext * ext) * (ext * ext)) :=
  Py.bind (reshape_pairs parent_bezier) (fun _ =>
  let parent_pts_reshaped := points_of parent_bezier in
  let mask := map (fun p => negb (Qeq_bool (fst p) (-1))) parent_pts_reshaped in
  let x_vals := map fst parent_pts_reshaped in
  let x_masked_min := masked_fill x_vals (map negb mask) PInf in
  let x_masked_max := masked_fill x_vals (map negb mask) NInf in
  Py.bind (reduce ext_min x_masked_min) (fun parent_xmin =>
  Py.bind (reduce ext_max x_masked_max) (fun parent_xmax =>
  let y_vals := map snd parent_pts_reshaped in
  let y_masked_min := masked_fill y_vals (map negb mask) PInf in
  let y_masked_max := masked_fill y_vals (map negb mask) NInf in
  Py.bind (reduce ext_min y_masked_min) (fun parent_ymin =>
  Py.bind (reduce ext_max y_masked_max) (fun parent_ymax =>
  let parent_mins := (parent_xmin, parent_ymin) in
  let parent_ranges :=
    (ext_clamp_min range_eps (ext_sub parent_xmax parent_xmin),
     ext_clamp_min range_eps (ext_sub parent_ymax parent_ymin)) in
  Py.Ok (parent_mins, parent_ranges)))))).

(** [child_pts_reshaped * parent_ranges + parent_mins] on one row, laid
    out on its six columns again. *)
Definition scale_row (parent_mins parent_ranges : ext * ext) (r : row) : list ext :=
  let sx := fun v => ext_add (ext_mul (Fin v) (fst parent_ranges)) (fst parent_mins) in
  let sy := fun v => ext_add (ext_mul (Fin v) (snd parent_ranges)) (snd parent_mins) in
  [sx (c1x r); sy (c1y r); sx (c2x r); sy (c2y r); sx (ex r); sy (ey r)].

(** What [forward] reads of one sample: the parent's rows and, for every
    output step of the decoder, the normalised coordinates and the three
    type logits, with the stop index. *)
Record sample : Type := mkSample {
  parent_bezier : list row;
  decoded : list (row * (Q * Q * Q));
  stop_index : nat
}.

(** [torch.argmax(logits, dim=-1)] on three logits: the first maximum. *)
Definition argmax3 (logits : Q * Q * Q) : nat :=
  let '(a, b, c) := logits in
  if Qltb a b then (if Qltb b c then 2%nat else 1%nat)
  else (if Qltb a c then 2%nat else 0%nat).

Definition scaled_coords (smp : sample) : Py.result (list (list ext)) :=
  Py.bind (parent_box (parent_bezier smp)) (fun box =>
  Py.bind (reshape_pairs (decoded smp)) (fun _ =>
  Py.Ok (map (fun st => scale_row (fst box) (snd box) (fst st)) (decoded smp)))).

Definition pred_types (smp : sample) : list nat :=
  map (fun st => argmax3 (snd st)) (decoded smp).

(** [row.masked_fill_(col_indices_coord < n, -1.0)]. *)
Definition fill_cols (n : nat) (vals : list ext) : list ext :=
  map (fun cv => if (fst cv <? n)%nat then Fin (-1) else snd cv)
      (combine (seq 0 (length vals)) vals).

(** [if mask.any(): t[mask] = upd(t[mask])] on the rows of a batch. *)
Definition masked_rows (upd : list ext -> list ext)
  (t : list (list (list ext))) (mask : list (list bool)) : list (list (list ext)) :=
  if existsb (existsb (fun m : bool => m)) mask then
    map (fun tm =>
           map (fun rm : list ext * bool => if snd rm then upd (fst rm) else fst rm)
               (combine (fst tm) (snd tm)))
        (combine t mask)
  else t.

(** Lines 887-897 for one type [k]: where the predicted type is [k], the
    first [n] columns are set to [-1]. *)
Definition mask_type (k n : nat) (final_pred_coords : list (list (list ext)))
  (pred_types : list (list nat)) : list (list (list ext)) :=
  let mask_type_k := map (map (Nat.eqb k)) pred_types in
  masked_rows (fill_cols n) final_pred_coords mask_type_k.

(** Lines 899-904: every row after the stop index is set to [-1]. *)
Definition mask_after_stop (final_pred_coords : list (list (list ext)))
  (stop_indices : list nat) : list (list (list ext)) :=
  let mask_after_stop_2D :=
    map (fun fs => map (fun t => (snd fs <? t)%nat) (seq 0 (length (fst fs))))
        (combine final_pred_coords stop_indices) in
  masked_rows (map (fun _ => Fin (-1))) final_pred_coords mask_after_stop_2D.

(** Steps 4 and 5 of [forward]: the entry ["segments"] of its result. *)
Definition forward_segments (batch : list sample)
  : Py.result (list (list (list ext))) :=
  Py.bind (reshape_pairs batch) (fun _ =>
  Py.bind (Py.mapM scaled_coords batch) (fun scaled =>
  let pred_types := map pred_types batch in
  let final_pred_coords := mask_type 0 4 scaled pred_types in
  let final_pred_coords := mask_type 1 2 final_pred_coords pred_types in
  Py.Ok (mask_after_stop final_pred_coords (map stop_index batch)))).

(** A row of six finite values as a row of the segment table. *)
Definition row_of (vals : list ext) : option row :=
  match vals with
  | [Fin a; Fin b; Fin c; Fin d; Fin e; Fin f] => Some (mkRow a b c d e f)
  | _ => None
  end.

(** The points of the parent that enter its box. *)
Definition unmasked (p : pt) : bool := negb (Qeq_bool (fst p) (-1)).

(** What one sample's row [s] becomes once [forward] is through. *)
Definition post_row (scaled : list ext) (ty stop s : nat) : list ext :=
  let typed0 := if (0 =? ty)%nat then fill_cols 4 scaled else scaled in
  let typed1 := if (1 =? ty)%nat then fill_cols 2 typed0 else typed0 in
  if (stop <? s)%nat then map (fun _ => Fin (-1)) typed1 else typed1.

Definition final_row (box : (ext * ext) * (ext * ext)) (stop s : nat)
  (st : row * (Q * Q * Q)) : list ext :=
  post_row (scale_row (fst box) (snd box) (fst st)) (argmax3 (snd st)) stop s.

(** [e] is the least (greatest) of the values [seen]; of no value at all
    it is the infinity the reduction starts from. *)
Definition least_of (seen : list Q) (e : ext) : Prop :=
  match e with
  | Fin m => In m seen /\ Forall (fun x => m <= x) seen
  | PInf => seen = []
  | _ => False
  end.

Definition greatest_of (seen : list Q) (e : ext) : Prop :=
  match e with
  | Fin m => In m seen /\ Forall (fun x => x <= m) seen
  | NInf => seen = []
  | _ => False
  end.

(** [x.clamp(min=1e-6)] on a finite range. *)
Definition clamp_range (x : Q) : Q := if Qltb x range_eps then range_eps else x.

(** All six values of a row are at least [0] (at most [1]). *)
Definition row_in (lo hi : Q) (r : row) : Prop :=
  Forall (fun v => lo <= v <= hi) (cols r).

(** A parent of one line row and a decoder that predicts a quadratic and
    then a line, stopping at step [0]. *)
Definition demo_sample : sample :=
  mkSample [mkRow (-1) (-1) (-1) (-1) (1 # 2) (1 # 4); mkRow (-1) (-1) (-1) (-1) 1 (3 # 4)]
           [(mkRow (1 # 2) (1 # 2) (1 # 2) (1 # 2) 1 1, (0, 1, 0));
            (mkRow (1 # 4) (1 # 4) (1 # 4) (1 # 4) 0 0, (1, 0, 0))]
           0.

(** A parent all of whose rows are padding. *)
Definition blind_sample : sample :=
  mkSample [pad_row; pad_row]
           [(mkRow (1 # 2) (1 # 2) (1 # 2) (1 # 2) 1 1, (0, 0, 1))]
           0.

End Predictor.

(** ** The rows [AugmentedDataset] stores and [collate_fn] stacks *)
Module Dataset.
Import Num Codec.
Local Open Scope Q_scope.

(** [t[t >= 0] /= float(canvas - 1)] on one value, for a canvas of at
    least two pixels. *)
Definition normalise_value (canvas : nat) (x : Q) : Q :=
  if Qle_bool 0 x then x / (Qofnat canvas - 1) else x.

Definition normalise_row (canvas : nat) (r : row) : row :=
  mkRow (normalise_value canvas (c1x r)) (normalise_value canvas (c1y r))
        (normalise_value canvas (c2x r)) (normalise_value canvas (c2y r))
        (normalise_value canvas (ex r)) (normalise_value canvas (ey r)).

(** Lines 473-478 of [AugmentedDataset.__init__]: the entries [gt_curves]
    and [lengths] of a sample, from the rows [mask_to_bezier_sequence]
    returned. *)
Definition stored_curves (canvas : nat) (c_segs_raw : list row)
  : Py.result (list row * nat) :=
  let gt := map (normalise_row canvas) c_segs_raw in
  let lengths := length gt in
  Py.bind (pad_to 30 gt) (fun gt => Py.Ok (gt, lengths)).

(** [collate_fn]: [pad_sequence(gc, batch_first=True, padding_value=0.0)]. *)
Definition collate_gt (gc : list (list row)) : list (list row) :=
  pad_sequence 0 gc.

(** A quadratic row on a canvas of five pixels. *)
Definition raw_quadratic : row := mkRow (-1) (-1) 2 3 4 0.

(** [a.min()] and [a.max()] of a non-empty index array. *)
Definition index_min (l : list nat) : nat := fold_right Nat.min (hd 0%nat l) l.
Definition index_max (l : list nat) : nat := fold_right Nat.max 0%nat l.

(** Lines 446-456 of [AugmentedDataset.__init__]: the four corners of the
    box around the foreground of the letterboxed parent mask, divided by
    [canvas - 1]. *)
Definition parent_bbox (canvas : nat) (mask_sq : Sampler.mask) : list (Q * Q) :=
  let fg := Sampler.where_pos mask_sq in
  let ys := map fst fg in
  let xs := map snd fg in
  let box :=
    if (0 <? length xs)%nat
    then (index_min xs, index_min ys, index_max xs, index_max ys)
    else (0%nat, 0%nat, (canvas - 1)%nat, (canvas - 1)%nat) in
  let '(x_min, y_min, x_max, y_max) := box in
  map (fun c : nat * nat =>
         (Qofnat (fst c) / (Qofnat canvas - 1), Qofnat (snd c) / (Qofnat canvas - 1)))
      [(x_min, y_min); (x_min, y_max); (x_max, y_min); (x_max, y_max)].

(** A pixel of the canvas in the coordinates of the box. *)
Definition pixel_at (canvas : nat) (yx : nat * nat) : Q * Q :=
  (Qofnat (snd yx) / (Qofnat canvas - 1), Qofnat (fst yx) / (Qofnat canvas - 1)).

End Dataset.

(** ** The ground-truth drawing of [visualize_predictions] *)
Module Visualizer.
Import Num Codec Renderer.
Local Open Scope Q_scope.

(** [np.roll(a, 1, axis=0)]: the last row comes first. *)
Definition roll1 {A} (l : list A) : list A :=
  match l with
  | [] => []
  | a :: _ => last l a :: removelast l
  end.

(** [starts = np.roll(ends, 1, axis=0); starts[0] = ends[-1]]. *)
Definition starts_of (ends : list pt) : Py.result (list pt) :=
  let starts := roll1 ends in
  Py.bind (Py.get ends (-1)) (fun e =>
  match starts with
  | [] => Py.Raise Py.IndexError
  | _ :: rest => Py.Ok (e :: rest)
  end).

(** The curves of the loop [for seg, st in zip(gt_segs, gt_starts)], each
    with [steps] samples ([visualize_predictions] passes [100]). *)
Definition gt_drawn (gt_segs : list row) (steps : nat) : Py.result (list (list pt)) :=
  let gt_ends := map endpoint gt_segs in
  Py.bind (starts_of gt_ends) (fun gt_starts =>
  Py.Ok (map (fun ss : row * pt =>
                let seg := fst ss in
                let st := snd ss in
                let stype := inferred_type seg in
                render_segment st seg stype steps)
             (combine gt_segs gt_starts))).

(** A stored shape of one quadratic and one padding row. *)
Definition padded_shape : list row :=
  [mkRow (-1) (-1) (1 # 2) (3 # 4) 1 (1 # 4); pad_row].

End Visualizer.

(** ** The parent-shape encoder *)
Module Encoder.
Import Num Codec.
Local Open Scope Q_scope.

(** A feature vector, [dim] values. *)
Definition vec : Type := list Q.

Definition vec_add (u v : vec) : vec :=
  map (fun ab : Q * Q => fst ab + snd ab) (combine u v).

(** [x * mask.unsqueeze(-1)] on one row. *)
Definition vec_scale (m : Q) (v : vec) : vec := map (fun a => a * m) v.

(** [x.sum(dim=1)] on one sample. *)
Definition vec_sum (dim : nat) (x : list vec) : vec :=
  fold_right vec_add (repeat 0 dim) x.

Section Layers.

(** The trained layers, each applied row by row: [input_proj], the
    positional table [pos_emb] and the [mlp]. *)
Variable dim : nat.
Variable input_proj : row -> vec.
Variable pos_emb : nat -> vec.
Variable mlp : vec -> vec.

(** [SimpleShapeEncoder.forward] on one sample, up to the pooled feature
    [x_pooled] that [to_latent] receives. *)
Definition x_pooled (seq_len : nat) (shape_pts : list row) : vec :=
  let shape_pts := firstn seq_len shape_pts in
  let S_parent_actual := length shape_pts in
  let x := map input_proj shape_pts in
  let x := map (fun xs : vec * nat => vec_add (fst xs) (pos_emb (snd xs)))
               (combine x (seq 0 S_parent_actual)) in
  let actual_lengths := actual_length shape_pts in
  let valid_segment_mask_2D :=
    map (fun s => if (s <? actual_lengths)%nat then 1 else 0) (seq 0 S_parent_actual) in
  let x := map (fun xm : vec * Q => vec_scale (snd xm) (fst xm))
               (combine x valid_segment_mask_2D) in
  let x := map mlp x in
  let x := map (fun xm : vec * Q => vec_scale (snd xm) (fst xm))
               (combine x valid_segment_mask_2D) in
  let summed_features := vec_sum dim x in
  let num_active_elements :=
    if Qltb (Qofnat actual_lengths) 1 then 1 else Qofnat actual_lengths in
  map (fun v => v / num_active_elements) summed_features.

(** What row [s] contributes to the sum when the sample has
    [actual_lengths] rows before its first padding row. *)
Definition row_feature (actual_lengths s : nat) (r : row) : vec :=
  let m := if (s <? actual_lengths)%nat then 1 else 0 in
  vec_scale m (mlp (vec_scale m (vec_add (input_proj r) (pos_emb s)))).

End Layers.

(** Layers of width [1] to run the encoder with. *)
Definition demo_proj (r : row) : vec := [ex r].
Definition demo_pos (s : nat) : vec := [Qofnat s].
Definition demo_mlp (v : vec) : vec := [Qsum v + 1].

End Encoder.

(** ** The epochs of [train_model_batched] *)
Module Trainer.
Import Num Predictor.
Local Open Scope Q_scope.

(** [a < b] on floats that may be infinite or NaN. *)
Definition ext_ltb (a b : ext) : bool :=
  match a, b with
  | NaN, _ | _, NaN => false
  | Fin x, Fin y => Qltb x y
  | PInf, _ => false
  | _, PInf => true
  | _, NInf => false
  | NInf, _ => true
  end.

(** What [save_checkpoint] writes besides the weights and the optimiser
    state. *)
Record checkpoint : Type := mkCheckpoint {
  epoch : nat;
  best_loss : ext
}.

(** The two files of a run: [best_model.pth], if any, and
    [final_model.pth]. *)
Record files : Type := mkFiles {
  best_model_pth : option checkpoint;
  final_model_pth : checkpoint
}.

Definition overfit_eps : Q := 1 # 1000000.

Section WithTraining.

(** [avg_epoch_loss e]: the average of the losses [train_batch] returns
    for the batches of epoch [e]. *)
Variable avg_epoch_loss : nat -> ext.

(** The loop [for epoch in range(start_epoch, num_epochs + 1)] with
    [remaining] epochs to go from [epoch] on: the best loss and the
    content of [best_model.pth] when it is left. *)
Fixpoint epoch_loop (epoch remaining : nat) (best_loss : ext)
  (best_model : option checkpoint) : ext * option checkpoint :=
  match remaining with
  | O => (best_loss, best_model)
  | S remaining' =>
      let avg := avg_epoch_loss epoch in
      let saved :=
        if ext_ltb avg best_loss
        then (avg, Some (mkCheckpoint epoch avg))
        else (best_loss, best_model) in
      if ext_ltb avg (Fin overfit_eps) then saved
      else epoch_loop (S epoch) remaining' (fst saved) (snd saved)
  end.

(** [train_model_batched] from the checkpoint it resumes from, if any, to
    the files it leaves; [best_on_disk] is what [best_model.pth] held
    before. *)
Definition train_model_batched (model_name : option checkpoint) (num_epochs : nat)
  (best_on_disk : option checkpoint) : files :=
  let start_epoch :=
    match model_name with Some ckpt => (epoch ckpt + 1)%nat | None => 1%nat end in
  let best_loss :=
    match model_name with Some ckpt => best_loss ckpt | None => PInf end in
  let r := epoch_loop start_epoch (num_epochs + 1 - start_epoch) best_loss best_on_disk in
  mkFiles (snd r) (mkCheckpoint num_epochs (fst r)).

(** The epochs the loop goes through: it leaves after the first one whose
    loss is below [1e-6]. *)
Fixpoint epochs_run (epoch remaining : nat) : list nat :=
  match remaining with
  | O => []
  | S remaining' =>
      epoch :: (if ext_ltb (avg_epoch_loss epoch) (Fin overfit_eps) then []
                else epochs_run (S epoch) remaining')
  end.

End WithTraining.

End Trainer.

(** ** Predictions that are exact where the mask is set *)
Module Agreement.
Import Num Codec.
Local Open Scope Q_scope.

(** The six values of two rows coincide. *)
Definition rows_match (pg : row * row) : Prop :=
  Forall2 Qeq (cols (fst pg)) (cols (snd pg)).

(** Every compared row of every sample coincides with its ground truth:
    the rows below the true length, among the first [c] of both tensors. *)
Definition exact_on_valid (c : nat) (pred gt : list (list row)) (lengths : list nat)
  : Prop :=
  Forall (fun pgl : list row * list row * nat =>
            Forall rows_match
                   (firstn (Nat.min (snd pgl) c)
                           (combine (fst (fst pgl)) (snd (fst pgl)))))
         (combine (combine pred gt) lengths).

End Agreement.

(** ** Which context points fall inside the mask *)
Module Validity.
Import Num Sampler.
Local Open Scope Q_scope.

(** [check_context_point_validity(context_points, parent_bin, sx, sy)]. *)
Definition check_context_point_validity (context_points : list pt)
  (parent_bin : mask) (sx sy : Q) : Py.result (list bool) :=
  let H := height parent_bin in
  let W := width parent_bin in
  Py.mapM (fun p : pt =>
             let xs := clamp 0 (W - 1) (trunc (fst p / sx * inject_Z W)) in
             let ys := clamp 0 (H - 1) (trunc (snd p / sy * inject_Z H)) in
             Py.bind (Py.get parent_bin ys) (fun row =>
             Py.bind (Py.get row xs) (fun v => Py.Ok (0 <? v)%Z)))
          context_points.

(** A mask all of whose rows have the length of the first one. *)
Definition rectangular (m : mask) : Prop :=
  Forall (fun row => length row = length (hd [] m)) m.

(** Sizes and scales at which the float32 coordinate of a pixel, divided
    and multiplied back, still truncates to that pixel. *)
Definition small_mask (m : mask) : Prop :=
  (width m <= 1024)%Z /\ (height m <= 1024)%Z.

Definition moderate_scale (s : Q) : Prop := (1 # 1024) <= s <= 1024.

End Validity.

(** ** The curve loss on tensors that may hold infinities *)
Module Masked.
Import Num Codec Evaluator Predictor.
Local Open Scope Q_scope.

(** [x.abs()]. *)
Definition ext_abs (a : ext) : ext :=
  match a with
  | Fin x => Fin (Qabs x)
  | PInf | NInf => PInf
  | NaN => NaN
  end.

(** [x / y]; a zero denominator is the positive zero. *)
Definition ext_div (a b : ext) : ext :=
  match a, b with
  | NaN, _ | _, NaN => NaN
  | Fin x, Fin y => if Qeq_bool y 0 then inf_times x else Fin (x / y)
  | Fin _, PInf | Fin _, NInf => Fin 0
  | PInf, Fin y => if Qltb y 0 then NInf else PInf
  | NInf, Fin y => if Qltb y 0 then PInf else NInf
  | PInf, PInf | PInf, NInf | NInf, PInf | NInf, NInf => NaN
  end.

(** A tensor of rows as the floats it holds. *)
Definition of_row (r : row) : list ext := map Fin (cols r).

Definition of_rows (t : list (list row)) : list (list (list ext)) :=
  map (map of_row) t.

(** One row of [err = (pred - gt).abs() * mask.unsqueeze(-1)], line 1063:
    the mask multiplies, and [inf * 0] is [nan]. *)
Definition err_row (p g : list ext) (m : Q) : list ext :=
  map (fun pg => ext_mul (ext_abs (ext_sub (fst pg) (snd pg))) (Fin m)) (combine p g).

Definition err_sample (ps gs : list (list ext)) (ms : list Q) : list (list ext) :=
  map (fun pgm => err_row (fst (fst pgm)) (snd (fst pgm)) (snd pgm))
      (combine (combine ps gs) ms).

Definition err (pred gt : list (list (list ext))) (mask : list (list Q))
  : list (list (list ext)) :=
  map (fun pgm => err_sample (fst (fst pgm)) (snd (fst pgm)) (snd pgm))
      (combine (combine pred gt) mask).

Definition ext_sum (l : list ext) : ext := fold_right ext_add (Fin 0) l.
Definition sum2 (t : list (list ext)) : ext := ext_sum (map ext_sum t).
Definition sum3 (t : list (list (list ext))) : ext := ext_sum (map sum2 t).

(** Step 3, the curve L1 loss, lines 1058-1065. *)
Definition loss_curve (w : weights) (S T_gt_dim : nat)
  (pred_segments gt_curves : list (list (list ext))) (mask : list (list Q)) : ext :=
  let compare_len_curve := Nat.min S T_gt_dim in
  let pred_for_curve := slice_cols compare_len_curve pred_segments in
  let gt_for_curve := slice_cols compare_len_curve gt_curves in
  let mask_for_curve := slice_cols compare_len_curve mask in
  let e := err pred_for_curve gt_for_curve mask_for_curve in
  let num_valid_coords := clamp_min tiny (Evaluator.sum2 mask_for_curve * 6) in
  ext_mul (ext_mul (Fin (lambda_curve w)) (ext_div (sum3 e) (Fin num_valid_coords)))
          (Fin geom_scale).

(** The mean absolute error inside the loss, [err.sum() / num_valid_coords]. *)
Definition mean_abs_err (S T_gt_dim : nat)
  (pred_segments gt_curves : list (list (list ext))) (mask : list (list Q)) : ext :=
  let compare_len_curve := Nat.min S T_gt_dim in
  let mask_for_curve := slice_cols compare_len_curve mask in
  ext_div (sum3 (err (slice_cols compare_len_curve pred_segments)
                     (slice_cols compare_len_curve gt_curves) mask_for_curve))
          (Fin (clamp_min tiny (Evaluator.sum2 mask_for_curve * 6))).


Definition within (M : Q) (t : list (list row)) : Prop :=
  Forall (Forall (row_in (- M) M)) t.



End Masked.

(* ================================================================== *)
(** * Part II: properties                                              *)
(* ================================================================== *)

(** ** List facts used throughout *)
Section ListFacts.

Lemma nth_map_in {A B} (f : A -> B) (l : list A) (s : nat) (d : B) (d' : A) :
  (s < length l)%nat -> nth s (map f l) d = f (nth s l d').
Proof.
  revert s. induction l as [|a l IH]; intros [|s] H; simpl in *; try lia.
  - reflexivity.
  - apply IH. lia.
Qed.

Lemma nth_map_seq {B} (f : nat -> B) (n s : nat) (d : B) :
  (s < n)%nat -> nth s (map f (seq 0 n)) d = f s.
Proof.
  intros H. rewrite (nth_map_in f _ s d 0%nat) by (rewrite length_seq; exact H).
  rewrite seq_nth by exact H. reflexivity.
Qed.

Lemma Forall_firstn {A} (P : A -> Prop) (n : nat) (l : list A) :
  Forall P l -> Forall P (firstn n l).
Proof.
  intros H. revert n. induction H as [|a l Ha _ IH]; intros [|n]; simpl;
    constructor; auto.
Qed.

Lemma last_indep {A} (l : list A) (d d' : A) : l <> [] -> last l d = last l d'.
Proof.
  induction l as [|a [|b l] IH]; intros Hne; [congruence | reflexivity |].
  change (last (b :: l) d = last (b :: l) d'). apply IH. discriminate.
Qed.

End ListFacts.

(** ** Padding as the collator and the encoder see it *)
Section PaddingFacts.
Import Num Codec.
Local Open Scope Q_scope.

Lemma pad_row_is_padding : is_padding_segment pad_row = true.
Proof. reflexivity. Qed.

Lemma pad_row_first_negative : Qltb (c1x pad_row) 0 = true.
Proof. reflexivity. Qed.

(** A row whose endpoint lies on the canvas is not an all [-1] row. *)
Lemma endpoint_on_canvas_not_padding (r : row) :
  0 <= ex r -> is_padding_segment r = false.
Proof.
  intros Hex. unfold is_padding_segment, cols. simpl.
  destruct (Qeq_bool (ex r) (-1)) eqn:E.
  - apply Qeq_bool_eq in E. rewrite E in Hex.
    exfalso. apply (Qle_not_lt _ _ Hex). reflexivity.
  - rewrite !andb_false_r. reflexivity.
Qed.

Lemma first_pad_idx_real (real rest : list row) :
  Forall (fun r => is_padding_segment r = false) real ->
  first_pad_idx (real ++ rest) = option_map (Nat.add (length real)) (first_pad_idx rest).
Proof.
  induction 1 as [|r real Hr _ IH]; simpl.
  - destruct (first_pad_idx rest); reflexivity.
  - rewrite Hr, IH. destruct (first_pad_idx rest); reflexivity.
Qed.

Lemma first_pad_idx_repeat (k : nat) :
  first_pad_idx (repeat pad_row k) = match k with O => None | S _ => Some 0%nat end.
Proof. destruct k; reflexivity. Qed.

Lemma actual_length_padded (real : list row) (k : nat) :
  Forall (fun r => is_padding_segment r = false) real ->
  actual_length (real ++ repeat pad_row k) = length real.
Proof.
  intros Hreal. unfold actual_length.
  rewrite (first_pad_idx_real _ _ Hreal), first_pad_idx_repeat.
  destruct k; simpl.
  - rewrite app_nil_r. reflexivity.
  - lia.
Qed.

Lemma firstn_padded (n : nat) (real : list row) (k : nat) :
  firstn n (real ++ repeat pad_row k)
  = firstn n real ++ repeat pad_row (Nat.min (n - length real) k).
Proof.
  rewrite firstn_app. f_equal.
  generalize (n - length real)%nat as m. intros m. revert k.
  induction m as [|m IH]; intros [|k]; simpl; try reflexivity.
  now rewrite IH.
Qed.

Lemma encoder_mask_padded (seq_len : nat) (real : list row) (k s : nat) :
  Forall (fun r => is_padding_segment r = false) real ->
  (s < Nat.min seq_len (length real + k))%nat ->
  let rows := firstn seq_len (real ++ repeat pad_row k) in
  nth s (map (fun s => (s <? actual_length rows)%nat) (seq 0 (length rows))) false
  = (s <? length real)%nat.
Proof.
  intros Hreal Hs rows. subst rows.
  rewrite firstn_padded.
  rewrite actual_length_padded by (apply Forall_firstn; exact Hreal).
  set (rows := firstn seq_len real ++ _).
  assert (Hlen : length rows = Nat.min seq_len (length real + k)).
  { subst rows. rewrite length_app, length_firstn, repeat_length. lia. }
  rewrite nth_map_seq by lia.
  rewrite length_firstn.
  destruct (Nat.ltb_spec s (Nat.min seq_len (length real)));
    destruct (Nat.ltb_spec s (length real)); try reflexivity; lia.
Qed.

Lemma max_len_ge (seqs : list (list row)) (b : nat) (s : list row) :
  nth_error seqs b = Some s -> (length s <= max_len seqs)%nat.
Proof.
  unfold max_len. revert b. induction seqs as [|x seqs IH]; intros [|b] H; simpl in *;
    try discriminate.
  - injection H as ->. lia.
  - specialize (IH _ H). lia.
Qed.

Lemma pad_sequence_nth (v : Q) (seqs : list (list row)) (b : nat) (s : list row) :
  nth_error seqs b = Some s ->
  nth b (pad_sequence v seqs) [] = s ++ repeat (fill_row v) (max_len seqs - length s).
Proof.
  intros H. unfold pad_sequence.
  apply nth_error_nth. rewrite nth_error_map, H. reflexivity.
Qed.

Lemma padding_mask_nth (t : list (list row)) (b s : nat) :
  (s < length (nth b t []))%nat ->
  nth s (nth b (padding_mask t) []) false = Qltb (c1x (nth s (nth b t []) pad_row)) 0.
Proof.
  intros Hs. unfold padding_mask.
  assert (Hb : (b < length t)%nat).
  { destruct (Nat.lt_ge_cases b (length t)) as [|Hge]; [assumption|].
    rewrite (nth_overflow t [] Hge) in Hs. simpl in Hs. lia. }
  rewrite (nth_map_in _ t b [] []) by exact Hb.
  exact (nth_map_in (fun r => Qltb (c1x r) 0) _ s false pad_row Hs).
Qed.

Lemma collated_sample (batch : list (list row)) (b k : nat) (real : list row) :
  nth_error batch b = Some (real ++ repeat pad_row k) ->
  nth b (fst (collate_parent batch)) []
  = real ++ repeat pad_row (max_len batch - length real).
Proof.
  intros Hb. simpl. rewrite (pad_sequence_nth _ _ _ _ Hb).
  pose proof (max_len_ge _ _ _ Hb) as Hle.
  rewrite length_app, repeat_length in *.
  rewrite <- app_assoc. f_equal.
  change (fill_row (-1)) with pad_row. rewrite <- repeat_app. f_equal. lia.
Qed.

(** C1, as amended: the collator flags a row by its first coordinate alone
    ([row[0] < 0]), which flags every row at a position [>= length]; the
    encoder flags by the whole row being [-1] and, when no real row is all
    [-1], flags exactly the positions [>= length]. *)
Theorem padding_detection_by_consumer
  (batch : list (list Codec.row)) (b s k seq_len : nat) (real : list Codec.row) :
  nth_error batch b = Some (real ++ repeat pad_row k) ->
  Forall (fun r => is_padding_segment r = false) real ->
  (s < max_len batch)%nat ->
  let parent_bezier := fst (collate_parent batch) in
  let mask := snd (collate_parent batch) in
  nth s (nth b mask []) false
    = Qltb (c1x (nth s (nth b parent_bezier []) pad_row)) 0
  /\ ((length real <= s)%nat -> nth s (nth b mask []) false = true)
  /\ ((s < seq_len)%nat ->
      encoder_padding seq_len parent_bezier b s = (length real <=? s)%nat).
Proof.
  intros Hb Hreal Hs parent_bezier mask.
  pose proof (collated_sample _ _ _ _ Hb) as Hrow. fold parent_bezier in Hrow.
  pose proof (max_len_ge _ _ _ Hb) as Hle.
  rewrite length_app, repeat_length in Hle.
  assert (Hlen : length (nth b parent_bezier []) = max_len batch).
  { rewrite Hrow, length_app, repeat_length. lia. }
  assert (Hmask : nth s (nth b mask []) false
                  = Qltb (c1x (nth s (nth b parent_bezier []) pad_row)) 0).
  { apply padding_mask_nth. rewrite Hlen. exact Hs. }
  split; [exact Hmask|]. split.
  - intros Hge. rewrite Hmask, Hrow, app_nth2 by lia.
    rewrite nth_repeat. reflexivity.
  - intros Hseq. unfold encoder_padding, valid_segment_mask.
    assert (Hbl : (b < length parent_bezier)%nat).
    { destruct (Nat.lt_ge_cases b (length parent_bezier)) as [|Hge]; [assumption|].
      rewrite (nth_overflow parent_bezier [] Hge) in Hlen. simpl in Hlen. lia. }
    rewrite (nth_map_in _ parent_bezier b [] []) by exact Hbl.
    rewrite Hrow.
    rewrite (encoder_mask_padded seq_len real _ s Hreal) by lia.
    destruct (Nat.ltb_spec s (length real));
      destruct (Nat.leb_spec (length real) s); simpl; try reflexivity; lia.
Qed.

Lemma padding_detection_by_consumer_witness :
  nth 1 (nth 0 (snd (collate_parent [[line_row_example; pad_row]])) []) false
    = Qltb (c1x (nth 1 (nth 0 (fst (collate_parent [[line_row_example; pad_row]])) [])
                     pad_row)) 0
  /\ ((1 <= 1)%nat ->
      nth 1 (nth 0 (snd (collate_parent [[line_row_example; pad_row]])) []) false = true)
  /\ ((1 < 50)%nat ->
      encoder_padding 50 (fst (collate_parent [[line_row_example; pad_row]])) 0 1
      = (1 <=? 1)%nat).
Proof.
  apply (padding_detection_by_consumer
           [[line_row_example; pad_row]] 0 1 1 50 [line_row_example]).
  - reflexivity.
  - repeat constructor.
  - cbv. lia.
Defined.

(** C1, as stated, fails on a real line row: its first coordinate pair is the
    sentinel, so the collator calls it padding, while the encoder (which
    reads all six columns) does not; the two consumers disagree, and the
    collator's mask is not "positions [>= length]". *)
Lemma padding_first_pair_counterexample :
  gt_type line_row_example = 0%nat
  /\ Qeq_bool (c1x line_row_example) (-1) && Qeq_bool (c1y line_row_example) (-1) = true
  /\ nth 0 (nth 0 (snd (collate_parent [[line_row_example; pad_row]])) []) false = true
  /\ encoder_padding 50 (fst (collate_parent [[line_row_example; pad_row]])) 0 0 = false.
Proof. repeat split. Qed.

End PaddingFacts.

(** ** Sums of rationals *)
Section SumFacts.
Import Num.
Local Open Scope Q_scope.

Lemma Qsum_cons (x : Q) (l : list Q) : Qsum (x :: l) = x + Qsum l.
Proof. reflexivity. Qed.

Lemma Qsum_app (l l' : list Q) : Qsum (l ++ l') == Qsum l + Qsum l'.
Proof.
  induction l as [|x l IH]; simpl.
  - ring.
  - rewrite IH. ring.
Qed.

Lemma Qsum_ext {A} (f g : A -> Q) (l : list A) :
  (forall a, In a l -> f a == g a) -> Qsum (map f l) == Qsum (map g l).
Proof.
  induction l as [|a l IH]; intros H; simpl.
  - reflexivity.
  - rewrite (H a (or_introl eq_refl)), IH; [reflexivity|].
    intros b Hb. apply H. right. exact Hb.
Qed.

Lemma Qsum_scale {A} (f : A -> Q) (m : Q) (l : list A) :
  Qsum (map (fun a => f a * m) l) == Qsum (map f l) * m.
Proof.
  induction l as [|a l IH]; simpl.
  - ring.
  - rewrite IH. ring.
Qed.

Lemma Qsum_repeat (x : Q) (n : nat) : Qsum (repeat x n) == Qofnat n * x.
Proof.
  induction n as [|n IH].
  - simpl. unfold Qofnat. simpl. ring.
  - change (repeat x (S n)) with (x :: repeat x n). simpl Qsum. rewrite IH.
    unfold Qofnat. rewrite Nat2Z.inj_succ, <- Z.add_1_r, inject_Z_plus. ring.
Qed.

Lemma Qsum_zeros {A} (l : list A) : Qsum (map (fun _ => 0) l) == 0.
Proof.
  induction l as [|a l IH]; simpl.
  - reflexivity.
  - rewrite IH. ring.
Qed.

End SumFacts.

(** ** The validity mask and the curve loss *)
Section CurveLoss.
Import Num Codec Evaluator.
Local Open Scope Q_scope.

Lemma mask_row_from (len S a : nat) :
  map (fun s => if (s <? len)%nat then 1 else 0) (seq a S)
  = repeat 1 (Nat.min (len - a) S) ++ repeat 0 (S - (len - a)).
Proof.
  revert a. induction S as [|S IH]; intros a.
  - rewrite Nat.min_0_r. reflexivity.
  - simpl seq. simpl map. rewrite IH.
    destruct (Nat.ltb_spec a len) as [Hlt|Hge].
    + replace (len - a)%nat with (Datatypes.S (len - Datatypes.S a)) by lia.
      simpl. reflexivity.
    + replace (len - a)%nat with 0%nat by lia.
      replace (len - Datatypes.S a)%nat with 0%nat by lia.
      simpl. rewrite Nat.sub_0_r. reflexivity.
Qed.

Lemma mask_row_split (S len : nat) :
  mask_row S len = repeat 1 (Nat.min len S) ++ repeat 0 (S - len).
Proof. unfold mask_row. rewrite mask_row_from, Nat.sub_0_r. reflexivity. Qed.

Lemma valid_mask_rows (S : nat) (lengths : list nat) :
  valid_mask S lengths = map (mask_row S) lengths.
Proof. reflexivity. Qed.

Lemma valid_mask_entry (S : nat) (lengths : list nat) (b s : nat) :
  (b < length lengths)%nat -> (s < S)%nat ->
  nth s (nth b (valid_mask S lengths) []) 0
  = if (s <? nth b lengths 0%nat)%nat then 1 else 0.
Proof.
  intros Hb Hs. unfold valid_mask.
  rewrite (nth_map_in _ lengths b [] 0%nat) by exact Hb.
  apply (nth_map_seq (fun s => if (s <? nth b lengths 0%nat)%nat then 1 else 0)).
  exact Hs.
Qed.

Lemma firstn_repeat_app {A} (c n m : nat) (x y : A) :
  firstn c (repeat x n ++ repeat y m)
  = repeat x (Nat.min c n) ++ repeat y (Nat.min (c - n) m).
Proof.
  rewrite firstn_app, repeat_length. f_equal.
  - revert n. induction c as [|c IH]; intros [|n]; simpl; try reflexivity.
    now rewrite IH.
  - generalize (c - n)%nat as k. intros k. revert m.
    induction k as [|k IH]; intros [|m]; simpl; try reflexivity.
    now rewrite IH.
Qed.

Lemma err_row_sum (p g : row) (m : Q) : Qsum (err_row p g m) == row_abs (p, g) * m.
Proof. unfold err_row, row_abs. apply Qsum_scale. Qed.

Lemma err_pairs_zero (L : list (row * row)) (m : nat) :
  sum2 (err_pairs L (repeat 0 m)) == 0.
Proof.
  revert m. induction L as [|[p g] L IH]; intros [|m]; try reflexivity.
  change (sum2 (err_pairs ((p, g) :: L) (repeat 0 (S m))))
    with (Qsum (err_row p g 0) + sum2 (err_pairs L (repeat 0 m))).
  rewrite err_row_sum, IH. ring.
Qed.

Lemma err_pairs_valid (L : list (row * row)) (n m : nat) :
  sum2 (err_pairs L (repeat 1 n ++ repeat 0 m)) == Qsum (map row_abs (firstn n L)).
Proof.
  revert L. induction n as [|n IH]; intros L.
  - change (repeat 1 0 ++ repeat 0 m) with (repeat 0 m).
    rewrite err_pairs_zero. reflexivity.
  - destruct L as [|[p g] L]; [reflexivity|].
    change (sum2 (err_pairs ((p, g) :: L) (repeat 1 (S n) ++ repeat 0 m)))
      with (Qsum (err_row p g 1) + sum2 (err_pairs L (repeat 1 n ++ repeat 0 m))).
    change (Qsum (map row_abs (firstn (S n) ((p, g) :: L))))
      with (row_abs (p, g) + Qsum (map row_abs (firstn n L))).
    rewrite err_row_sum, IH. ring.
Qed.

Lemma err_sample_pairs (ps gs : list row) (ms : list Q) :
  err_sample ps gs ms = err_pairs (combine ps gs) ms.
Proof. reflexivity. Qed.

Lemma abs_err_valid_pairs (len : nat) (ps gs : list row) :
  abs_err_valid len ps gs = Qsum (map row_abs (firstn len (combine ps gs))).
Proof. reflexivity. Qed.

(** One sample of the masked error: only the rows below [min len c] count. *)
Lemma err_sample_masked (c S len : nat) (ps gs : list row) :
  (c <= S)%nat ->
  sum2 (err_sample (firstn c ps) (firstn c gs) (firstn c (mask_row S len)))
  == abs_err_valid (Nat.min len c) ps gs.
Proof.
  intros Hc. rewrite err_sample_pairs, mask_row_split, firstn_repeat_app.
  rewrite err_pairs_valid, <- combine_firstn, firstn_firstn, abs_err_valid_pairs.
  replace (Nat.min (Nat.min c (Nat.min len S)) c) with (Nat.min len c) by lia.
  reflexivity.
Qed.

Lemma mask_row_sum (c S len : nat) :
  (c <= S)%nat -> Qsum (firstn c (mask_row S len)) == Qofnat (Nat.min len c).
Proof.
  intros Hc. rewrite mask_row_split, firstn_repeat_app, Qsum_app, !Qsum_repeat.
  replace (Nat.min c (Nat.min len S)) with (Nat.min len c) by lia. ring.
Qed.

Lemma err_sum_valid (c S : nat) (pred gt : list (list row)) (lengths : list nat) :
  (c <= S)%nat ->
  sum3 (err (slice_cols c pred) (slice_cols c gt) (slice_cols c (valid_mask S lengths)))
  == valid_abs_err c pred gt lengths.
Proof.
  intros Hc. unfold sum3, err, valid_abs_err, slice_cols. rewrite valid_mask_rows.
  revert gt lengths.
  induction pred as [|ps pred IH]; intros [|gs gt] [|len lengths]; simpl;
    try reflexivity.
  rewrite (err_sample_masked c S len ps gs Hc), IH. reflexivity.
Qed.

Lemma mask_sum_valid (c S : nat) (lengths : list nat) :
  (c <= S)%nat ->
  sum2 (slice_cols c (valid_mask S lengths)) == valid_rows c lengths.
Proof.
  intros Hc. unfold sum2, slice_cols, valid_rows. rewrite valid_mask_rows.
  induction lengths as [|len lengths IH]; simpl; [reflexivity|].
  rewrite (mask_row_sum c S len Hc), IH. reflexivity.
Qed.

Lemma Qltb_proper (x y lo : Q) : x == y -> Qltb x lo = Qltb y lo.
Proof.
  intros E. unfold Qltb. f_equal.
  destruct (Qle_bool lo x) eqn:Hx, (Qle_bool lo y) eqn:Hy; try reflexivity.
  - apply Qle_bool_iff in Hx. rewrite E in Hx. apply Qle_bool_iff in Hx. congruence.
  - apply Qle_bool_iff in Hy. rewrite <- E in Hy. apply Qle_bool_iff in Hy. congruence.
Qed.

Lemma clamp_min_proper (lo x y : Q) : x == y -> clamp_min lo x == clamp_min lo y.
Proof.
  intros E. unfold clamp_min. rewrite (Qltb_proper x y lo E).
  destruct (Qltb y lo); [reflexivity | exact E].
Qed.




End CurveLoss.

(** ** The expected length *)
Section ExpectedLength.
Import Num Codec Evaluator.
Local Open Scope Q_scope.

Lemma prefix_sum_cons (x : Q) (l : list Q) :
  prefix_sum (x :: l) == 1 + x * prefix_sum l.
Proof.
  unfold prefix_sum.
  change (seq 0 (S (length (x :: l)))) with (0%nat :: seq 1 (S (length l))).
  rewrite <- seq_shift, map_cons, map_map.
  change (Qsum (?a :: ?t)) with (a + Qsum t).
  change (Qprod (firstn 0 (x :: l))) with 1.
  rewrite (Qsum_ext (fun k => Qprod (firstn (S k) (x :: l)))
                    (fun k => Qprod (firstn k l) * x)).
  - rewrite Qsum_scale. ring.
  - intros k _. simpl. ring.
Qed.

Lemma cumprod_from_sum (l : list Q) (acc : Q) :
  Qsum (cumprod_from acc l) == acc * (prefix_sum l - 1).
Proof.
  revert acc. induction l as [|x l IH]; intros acc.
  - unfold prefix_sum. simpl. ring.
  - change (Qsum (cumprod_from acc (x :: l)))
      with (acc * x + Qsum (cumprod_from (acc * x) l)).
    rewrite IH, prefix_sum_cons. ring.
Qed.

Lemma cumprod_survival_sum (r : list Q) : Qsum (cumprod (1 :: r)) == prefix_sum r.
Proof.
  unfold cumprod.
  change (Qsum (cumprod_from 1 (1 :: r))) with (1 * 1 + Qsum (cumprod_from (1 * 1) r)).
  rewrite cumprod_from_sum. ring.
Qed.

Lemma prefix_sum_removelast (pc : list Q) :
  pc <> [] ->
  prefix_sum (removelast pc) == Qsum (map (fun k => Qprod (firstn k pc)) (seq 0 (length pc))).
Proof.
  intros Hne. unfold prefix_sum.
  assert (Hlen : S (length (removelast pc)) = length pc).
  { rewrite removelast_firstn_len, length_firstn.
    destruct pc; [contradiction | simpl; lia]. }
  rewrite Hlen. apply Qsum_ext. intros k Hk. apply in_seq in Hk.
  rewrite removelast_firstn_len, firstn_firstn.
  replace (Nat.min k (Nat.pred (length pc))) with k by lia. reflexivity.
Qed.

Lemma survival_as_prefix (stops : list Q) (k : nat) :
  survival stops k = Qprod (firstn k (map (fun p => 1 - p) stops)).
Proof. unfold survival. rewrite firstn_map. reflexivity. Qed.

Lemma expected_length_sample (stops : list Q) :
  (2 <= length stops)%nat ->
  Qsum (cumprod (1 :: removelast (map (fun p => 1 - p) stops)))
  == expected_length_spec stops.
Proof.
  intros Hlen. rewrite cumprod_survival_sum, prefix_sum_removelast.
  - unfold expected_length_spec. rewrite length_map.
    apply Qsum_ext. intros k _. rewrite survival_as_prefix. reflexivity.
  - destruct stops; [simpl in Hlen; lia | discriminate].
Qed.

Lemma expected_length_all (S0 : nat) (pred_stops : list (list Q)) :
  Forall (fun st => length st = S0) pred_stops ->
  Forall2 Qeq (expected_length (length pred_stops) S0 pred_stops)
              (map expected_length_spec pred_stops).
Proof.
  intros Hall. unfold expected_length.
  destruct S0 as [|[|S0]].
  - induction Hall as [|st l Hst _ IH]; simpl; constructor; [|exact IH].
    destruct st; [reflexivity | discriminate].
  - induction Hall as [|st l Hst _ IH]; simpl; constructor; [|exact IH].
    destruct st as [|p [|q st]]; try discriminate.
    unfold expected_length_spec, survival. simpl. ring.
  - rewrite map_map.
    induction Hall as [|st l Hst _ IH]; simpl; constructor; [|exact IH].
    apply expected_length_sample. lia.
Qed.

Lemma survival_step (stops : list Q) (k : nat) :
  (k < length stops)%nat ->
  survival stops (S k) == survival stops k * (1 - nth k stops 0).
Proof.
  unfold survival. revert k.
  induction stops as [|p stops IH]; intros k Hk; [simpl in Hk; lia|].
  destruct k as [|k].
  - simpl. ring.
  - change (Qprod (map (fun p => 1 - p) (firstn (S (S k)) (p :: stops))))
      with ((1 - p) * Qprod (map (fun p => 1 - p) (firstn (S k) stops))).
    rewrite IH by (simpl in Hk; lia). simpl. ring.
Qed.

Lemma abs_dev_sum (E E' : list Q) (lengths : list nat) :
  Forall2 Qeq E E' ->
  Qsum (map (fun el => Qabs (fst el - Qofnat (snd el))) (combine E lengths))
  == Qsum (map (fun el => Qabs (fst el - Qofnat (snd el))) (combine E' lengths)).
Proof.
  intros H. revert lengths.
  induction H as [|x y E E' Hxy _ IH]; intros [|len lengths];
    cbn [combine map fst snd]; try reflexivity.
  rewrite !Qsum_cons, Hxy, IH. reflexivity.
Qed.

(** C6: the expected length of a sample is the sum over the steps of the
    survival probability; survival is [1] at step [0] and otherwise the product
    of [1 - stop] over the earlier steps; the length term is the weighted mean
    absolute deviation of that sum from the true length. *)
Theorem expected_length_is_survival_sum (w : weights) (S0 : nat)
  (pred_stops : list (list Q)) (lengths : list nat) :
  Forall (fun st => length st = S0) pred_stops ->
  let B := length pred_stops in
  let expected := expected_length B S0 pred_stops in
  Forall2 Qeq expected (map expected_length_spec pred_stops)
  /\ (forall stops, survival stops 0 = 1)
  /\ (forall stops k, (k < length stops)%nat ->
        survival stops (S k) == survival stops k * (1 - nth k stops 0))
  /\ loss_count w expected lengths
     == lambda_len w
        * mean (map (fun el => Qabs (fst el - Qofnat (snd el)))
                    (combine (map expected_length_spec pred_stops) lengths))
        * geom_scale.
Proof.
  intros Hall B expected.
  pose proof (expected_length_all S0 pred_stops Hall) as HE.
  fold B in HE. fold expected in HE.
  split; [exact HE|]. split; [reflexivity|]. split; [exact survival_step|].
  unfold loss_count, mean.
  rewrite (abs_dev_sum _ _ lengths HE).
  rewrite !length_map, !length_combine, length_map.
  rewrite (Forall2_length HE), length_map. reflexivity.
Qed.

Lemma expected_length_is_survival_sum_witness :
  let pred_stops := [[1 # 4; 1 # 2; 1]; [0; 0; 1]] in
  let lengths := [2%nat; 3%nat] in
  let expected := expected_length 2 3 pred_stops in
  Forall2 Qeq expected (map expected_length_spec pred_stops)
  /\ (forall stops, survival stops 0 = 1)
  /\ (forall stops k, (k < length stops)%nat ->
        survival stops (S k) == survival stops k * (1 - nth k stops 0))
  /\ loss_count default_weights expected lengths
     == lambda_len default_weights
        * mean (map (fun el => Qabs (fst el - Qofnat (snd el)))
                    (combine (map expected_length_spec pred_stops) lengths))
        * geom_scale.
Proof.
  intros pred_stops lengths expected.
  apply (expected_length_is_survival_sum default_weights 3 pred_stops lengths).
  repeat constructor.
Defined.

End ExpectedLength.

(** ** The type term when logits and labels do not line up *)
Section TypeLoss.
Import Num Codec Evaluator.
Local Open Scope Q_scope.

Variable cross_entropy : list (Q * Q * Q) -> list nat -> Q.



Lemma loss_type_aligned (w : weights) (x : Q * Q * Q) (logits : list (Q * Q * Q))
  (labels : list nat) :
  length (x :: logits) = length labels ->
  loss_type cross_entropy w (x :: logits) labels
  = (lambda_type w * cross_entropy (x :: logits) labels * geom_scale, []).
Proof.
  intros He. unfold loss_type.
  replace (0 <? 3 * length (x :: logits))%nat with true
    by (symmetry; apply Nat.ltb_lt; simpl; lia).
  apply Nat.eqb_eq in He. rewrite He. reflexivity.
Qed.

Lemma masked_row_length {A} (tr : list A) (mr : list Q) :
  length tr = length mr ->
  length (map fst (filter (fun xm => negb (Qeq_bool (snd xm) 0)) (combine tr mr)))
  = length (filter (fun m => negb (Qeq_bool m 0)) mr).
Proof.
  revert mr. induction tr as [|x tr IH]; intros [|m mr] Hlen; try discriminate;
    [reflexivity|].
  simpl. injection Hlen as Hlen.
  destruct (negb (Qeq_bool m 0)); simpl; rewrite (IH mr Hlen); reflexivity.
Qed.

(** A selection by the mask has as many entries as the mask has set
    positions, whatever is selected from. *)
Lemma masked_select_length {A} (t : list (list A)) (mask : list (list Q)) (l : list A) :
  masked_select t mask = Py.Ok l -> length l = count_set mask.
Proof.
  unfold masked_select, same_shape, count_set.
  destruct (length t =? length mask)%nat eqn:Hb; [|discriminate].
  apply Nat.eqb_eq in Hb. simpl andb.
  destruct (forallb _ (combine t mask)) eqn:Hrows; [|discriminate].
  intros H. injection H as <-.
  revert mask Hb Hrows. induction t as [|tr t IH]; intros [|mr mask] Hb Hrows;
    try discriminate; [reflexivity|].
  simpl in Hrows. apply andb_true_iff in Hrows. destruct Hrows as [Hr Hrows].
  apply Nat.eqb_eq in Hr. injection Hb as Hb.
  simpl. rewrite !length_app, (masked_row_length tr mr Hr).
  f_equal. apply IH; assumption.
Qed.

Variable binary_cross_entropy : list (list Q) -> list (list Q) -> list (list Q) -> Q.

(** Inside [train_batch] the logits and the labels are selected by one and
    the same mask: they never differ in number, the warning is never
    printed, and the total is the sum of the four terms. *)
Theorem train_batch_selections_aligned (w : weights)
  (pred_segments : list (list Codec.row)) (pred_stops : list (list Q))
  (type_logits : list (list (Q * Q * Q)))
  (gt_curves : list (list Codec.row)) (lengths : list nat) :
  match train_batch binary_cross_entropy cross_entropy w
          pred_segments pred_stops type_logits gt_curves lengths with
  | Py.Ok (Some L) =>
      printed L = []
      /\ l_total L = l_curve L + l_stop L + l_count L + l_type L
  | _ => True
  end.
Proof.
  unfold train_batch.
  destruct (length gt_curves =? 0)%nat; [exact I|].
  destruct (masked_select type_logits _) as [logits|] eqn:E1; [|exact I].
  destruct (masked_select (gt_types_for_masking _ _ _) _) as [labels|] eqn:E2; [|exact I].
  cbn [Py.bind]. unfold finish. cbn [printed l_total l_curve l_stop l_count l_type].
  split; [|reflexivity].
  apply masked_select_length in E1. apply masked_select_length in E2.
  destruct logits as [|x logits]; [reflexivity|].
  rewrite loss_type_aligned by congruence. reflexivity.
Qed.


End TypeLoss.

(** A batch of one sample with one real row: [train_batch] returns its loss
    terms and prints no warning. *)
Example train_batch_on_one_sample :
  let bce := fun (_ _ _ : list (list Q)) => 1%Q in
  let ce := fun (_ : list (Q * Q * Q)) (_ : list nat) => 1%Q in
  exists L,
    Evaluator.train_batch bce ce Evaluator.default_weights
      [[Codec.mkRow 0 0 0 0 1 1; Codec.mkRow 0 0 0 0 0 0]]%Q [[1 # 4; 1]]%Q
      [[(0, 0, 0); (0, 0, 0)]]%Q [[Codec.line_row_example; Codec.pad_row]] [1%nat]
    = Py.Ok (Some L)
    /\ Evaluator.printed L = [].
Proof. intros bce ce. eexists. split; vm_compute; reflexivity. Qed.

(** ** The renderers against the Bernstein form *)
Section Rendering.
Import Num Codec Renderer.
Local Open Scope Q_scope.

Lemma pt_eq_refl (p : pt) : pt_eq p p.
Proof. split; reflexivity. Qed.

Lemma polyline_refl (l : list pt) : Forall2 pt_eq l l.
Proof. induction l; constructor; auto using pt_eq_refl. Qed.

Lemma Forall2_map_pointwise {A B} (R : B -> B -> Prop) (f g : A -> B) (l : list A) :
  (forall a, R (f a) (g a)) -> Forall2 R (map f l) (map g l).
Proof. intros H. induction l; simpl; constructor; auto. Qed.

Lemma Forall2_tl {A} (R : A -> A -> Prop) (l l' : list A) :
  Forall2 R l l' -> Forall2 R (tl l) (tl l').
Proof. intros H. destruct H; simpl; [constructor | assumption]. Qed.

Lemma Forall2_concat {A} (R : A -> A -> Prop) (ll ll' : list (list A)) :
  Forall2 (Forall2 R) ll ll' -> Forall2 R (concat ll) (concat ll').
Proof.
  induction 1 as [|l l' ll ll' H _ IH]; simpl; [constructor|].
  apply Forall2_app; assumption.
Qed.

(** The code's cubic is the degree-3 Bernstein form on its four points. *)
Lemma cubic_is_bernstein (p0 c1 c2 p1 : pt) (t : Q) :
  pt_eq (add (add (add (scale ((1 - t) ^ 3) p0)
                       (scale (3 * (1 - t) ^ 2 * t) c1))
                  (scale (3 * (1 - t) * t ^ 2) c2))
             (scale (t ^ 3) p1))
        (bezier_std [p0; c1; c2; p1] t).
Proof.
  unfold pt_eq, bezier_std, bezier_terms, bernstein, add, scale, Qofnat.
  simpl. split; ring.
Qed.

(** The code's quadratic is the degree-2 Bernstein form on its three points. *)
Lemma quadratic_is_bernstein (p0 c p1 : pt) (t : Q) :
  pt_eq (add (add (scale ((1 - t) ^ 2) p0) (scale (2 * (1 - t) * t) c))
             (scale (t ^ 2) p1))
        (bezier_std [p0; c; p1] t).
Proof.
  unfold pt_eq, bezier_std, bezier_terms, bernstein, add, scale, Qofnat.
  simpl. split; ring.
Qed.

Lemma bezier_curve_is_bernstein (p0 c1 c2 p1 : pt) (n : nat) :
  Forall2 pt_eq (bezier_curve p0 c1 c2 p1 n)
          (map (bezier_std [p0; c1; c2; p1]) (linspace 0 1 n)).
Proof.
  unfold bezier_curve. apply Forall2_map_pointwise. intros t.
  apply cubic_is_bernstein.
Qed.

Lemma render_loop_cubic (initial_p0 : pt) (all rows : list row) (n i : nat) :
  skipn i all = rows ->
  Forall2 (Forall2 pt_eq)
    (render_loop i (start_of initial_p0 all i) rows n)
    (map (fun i =>
            let r := nth i all pad_row in
            let poly := map (bezier_std [start_of initial_p0 all i;
                                         ctrl1 r; ctrl2 r; endpoint r])
                            (linspace 0 1 n) in
            if (i =? 0)%nat then poly else tl poly)
         (seq i (length rows))).
Proof.
  revert i. induction rows as [|r rows IH]; intros i Hskip; simpl; [constructor|].
  assert (Hr : nth i all pad_row = r).
  { rewrite <- (firstn_skipn i all) at 1. rewrite Hskip.
    assert (Hi : (i <= length all)%nat).
    { destruct (Nat.le_gt_cases i (length all)) as [|Hgt]; [assumption|].
      rewrite skipn_all2 in Hskip by lia. discriminate. }
    rewrite app_nth2 by (rewrite length_firstn; lia).
    rewrite length_firstn. replace (i - Nat.min i (length all))%nat with 0%nat by lia.
    reflexivity. }
  assert (Hnext : skipn (S i) all = rows).
  { replace (S i) with (1 + i)%nat by lia. rewrite <- skipn_skipn, Hskip.
    reflexivity. }
  constructor.
  - rewrite Hr.
    pose proof (bezier_curve_is_bernstein (start_of initial_p0 all i)
                  (ctrl1 r) (ctrl2 r) (endpoint r) n) as Hc.
    destruct (i =? 0)%nat; [exact Hc | apply Forall2_tl; exact Hc].
  - specialize (IH (S i) Hnext).
    change (start_of initial_p0 all (S i)) with (endpoint (nth i all pad_row)) in IH.
    rewrite Hr in IH. exact IH.
Qed.

Lemma linspace_value (n i : nat) :
  (i < n)%nat -> nth i (linspace 0 1 n) 0 == Qofnat i * (1 / Qofnat (n - 1)).
Proof.
  intros Hi. unfold linspace.
  rewrite (nth_map_seq (fun i => 0 + Qofnat i * ((1 - 0) / Qofnat (n - 1))) n i 0 Hi).
  unfold Qdiv. ring.
Qed.

(** C5, as amended: [render_bezier_sequence] draws every row with the
    degree-3 formula whatever its type, [n] uniformly spaced parameters per
    row, the start of a row being the previous row's endpoint (the supplied
    point for the first) and the first sample of later rows left out;
    [render_segment] draws type 0 as the two points start and end (no
    sampling), type 1 with the degree-2 formula on start, second control
    pair and endpoint, any other type with the degree-3 formula. *)
Theorem renderers_follow_bernstein_form (rows : list Codec.row) (initial_p0 start_pt : pt)
  (seg : Codec.row) (n steps : nat) :
  Forall2 pt_eq (render_bezier_sequence (Some rows) initial_p0 n)
          (cubic_path initial_p0 rows n)
  /\ (forall i, (i < n)%nat ->
        nth i (linspace 0 1 n) 0 == Qofnat i * (1 / Qofnat (n - 1)))
  /\ render_segment start_pt seg 0 steps = [start_pt; endpoint seg]
  /\ Forall2 pt_eq (render_segment start_pt seg 1 steps)
             (map (bezier_std [start_pt; ctrl2 seg; endpoint seg]) (linspace 0 1 steps))
  /\ (forall k, Forall2 pt_eq (render_segment start_pt seg (S (S k)) steps)
        (map (bezier_std [start_pt; ctrl1 seg; ctrl2 seg; endpoint seg])
             (linspace 0 1 steps))).
Proof.
  split; [|split; [|split; [|split]]].
  - unfold render_bezier_sequence, cubic_path.
    destruct rows as [|r rows]; [constructor|].
    change (6 * length (r :: rows) =? 0)%nat with false.
    apply Forall2_concat.
    exact (render_loop_cubic initial_p0 (r :: rows) (r :: rows) n 0 eq_refl).
  - exact (linspace_value n).
  - reflexivity.
  - unfold render_segment. simpl Nat.eqb. cbv iota.
    apply Forall2_map_pointwise. intros t. apply quadratic_is_bernstein.
  - intros k. unfold render_segment. simpl Nat.eqb. cbv iota.
    apply Forall2_map_pointwise. intros t. apply cubic_is_bernstein.
Qed.

(** C5, as stated, fails on a line row: [render_bezier_sequence] bends it
    towards the sentinel control points instead of drawing the degree-1
    curve, and [render_segment] returns two points for it, not [steps]. *)
Lemma render_line_row_counterexample :
  gt_type unit_line_row = 0%nat
  /\ inferred_type unit_line_row = 0%nat
  /\ polyline_eqb (render_bezier_sequence (Some [unit_line_row]) (0, 0) 3)
                  [(0, 0); (- (5 # 8), - (5 # 8)); (1, 1)] = true
  /\ polyline_eqb (render_bezier_sequence (Some [unit_line_row]) (0, 0) 3)
                  (map (bezier_std [(0, 0); endpoint unit_line_row]) (linspace 0 1 3))
     = false
  /\ length (render_segment (0, 0) unit_line_row 0 100) = 2%nat.
Proof. vm_compute. repeat split. Qed.

End Rendering.

(** ** The samplers on the inputs that break their contract *)
Section Sampling.
Import Num Sampler.
Local Open Scope Q_scope.

Variable hypot : Q -> Q -> Q.

Lemma firstn_repeat_prefix {A} (x : A) (n m : nat) (l : list A) :
  firstn n (firstn m (repeat x n ++ l)) = repeat x (Nat.min n m).
Proof.
  rewrite firstn_firstn, firstn_app, repeat_length.
  replace (Nat.min n m - n)%nat with 0%nat by lia.
  rewrite firstn_O, app_nil_r.
  generalize (Nat.min n m) (Nat.le_min_l n m). intros k Hk. revert n Hk.
  induction k as [|k IH]; intros [|n] Hk; try reflexivity; [lia|].
  simpl. f_equal. apply IH. lia.
Qed.

(** With no polygon the boundary slots of whatever the GPU sampler returns
    hold the literal [(0, 0)], for every mask and every count. *)
Lemma gpu_no_polygon_zero_prefix (bin : mask) (N_total N_boundary N_interior : nat) :
  match generate_deterministic_context_points_gpu hypot None (Some bin)
          N_total N_boundary N_interior with
  | Py.Ok pts => firstn N_boundary pts = repeat (0, 0) (Nat.min N_boundary N_total)
  | Py.Raise _ => True
  end.
Proof.
  unfold generate_deterministic_context_points_gpu, boundary_sampling_gpu.
  cbn [Py.bind].
  destruct (if (0 <? N_interior)%nat then interior_grid_gpu bin N_interior
            else Py.Ok (repeat (0, 0) N_interior)) as [pts_i|]; [|exact I].
  cbn [Py.bind].
  match goal with |- context [Nat.ltb ?a ?b] => destruct (Nat.ltb a b) end.
  - match goal with |- context [rev ?l] => destruct (rev l) as [|last_pt rest] end;
      [exact I|].
    cbn [Py.bind]. rewrite <- app_assoc. apply firstn_repeat_prefix.
  - cbn [Py.bind]. apply firstn_repeat_prefix.
Qed.

(** C3: the GPU sampler on a mask and no polygon.  The [N_boundary] first
    points of every result are the literal [(0, 0)]; on the 2 x 2 mask whose
    pixel [(0, 0)] is background two such points precede four real grid
    points; with no grid point inside the mask the expansion of the last
    valid point raises; with nothing to repeat the final padding raises. *)
Theorem gpu_sampler_zero_fills_boundary (bin : mask)
  (N_total N_boundary N_interior : nat) :
  match generate_deterministic_context_points_gpu hypot None (Some bin)
          N_total N_boundary N_interior with
  | Py.Ok pts => firstn N_boundary pts = repeat (0, 0) (Nat.min N_boundary N_total)
  | Py.Raise _ => True
  end
  /\
  match generate_deterministic_context_points_gpu hypot None (Some corner_off_mask) 6 2 4 with
  | Py.Ok pts =>
      length pts = 6%nat
      /\ firstn 2 pts = [(0, 0); (0, 0)]
      /\ forallb (fun p => negb (Qeq_bool (fst p) 0 && Qeq_bool (snd p) 0)) (skipn 2 pts)
         = true
  | Py.Raise _ => False
  end
  /\ Py.bind (Py.get corner_off_mask 0) (fun row => Py.get row 0) = Py.Ok 0%Z
  /\ generate_deterministic_context_points_gpu hypot None (Some blank_mask) 4 0 4
     = Py.Raise Py.RuntimeError
  /\ generate_deterministic_context_points_gpu hypot None (Some corner_off_mask) 3 0 0
     = Py.Raise Py.IndexError.
Proof.
  split; [apply gpu_no_polygon_zero_prefix|].
  vm_compute. repeat split.
Qed.

(** Whenever the GPU sampler returns, it returns exactly [N_total] points:
    the last point is repeated up to [N_total] and the list is cut there. *)
Theorem gpu_sampler_count_when_it_returns (parent_verts_scaled : option (list pt))
  (parent_bin : option mask) (N_total N_boundary N_interior : nat) :
  match generate_deterministic_context_points_gpu hypot parent_verts_scaled parent_bin
          N_total N_boundary N_interior with
  | Py.Ok pts => length pts = N_total
  | Py.Raise _ => True
  end.
Proof.
  unfold generate_deterministic_context_points_gpu.
  destruct parent_bin as [bin|]; [|exact I].
  destruct (boundary_sampling_gpu hypot parent_verts_scaled N_boundary) as [pts|];
    [|exact I].
  cbn [Py.bind].
  destruct (if (0 <? N_interior)%nat then interior_grid_gpu bin N_interior
            else Py.Ok (repeat (0, 0) N_interior)) as [pts_i|]; [|exact I].
  cbn [Py.bind].
  destruct (Nat.ltb_spec (length (pts ++ pts_i)) N_total) as [Hlt|Hge].
  - destruct (rev (pts ++ pts_i)) as [|last_pt rest]; [exact I|].
    cbn [Py.bind]. rewrite length_firstn, length_app, repeat_length. lia.
  - cbn [Py.bind]. rewrite length_firstn. lia.
Qed.

Hypothesis hypot_null : forall x y, x == 0 -> y == 0 -> hypot x y == 0.

Lemma mapM_first_raises {A B} (f : A -> Py.result B) (a : A) (l : list A) (e : Py.exn) :
  f a = Py.Raise e -> Py.mapM f (a :: l) = Py.Raise e.
Proof. intros H. simpl. rewrite H. reflexivity. Qed.

(** C4: a polygon whose vertices coincide has perimeter [0]; as soon as an
    extra boundary point is asked for, the edge looked up for distance [0]
    lies past the last edge and [lens[i]] raises [IndexError]: no point is
    returned. *)
Theorem cpu_sampler_degenerate_polygon (p : pt) (k N_total : nat)
  (parent_bin : option mask) (W H : Z) (sx sy : Q) :
  generate_deterministic_context_points hypot (Some [p; p]) parent_bin
    N_total (3 + k) W H sx sy
  = Py.Raise Py.IndexError.
Proof.
  unfold generate_deterministic_context_points, boundary_sampling.
  change (0 <? 3 + k)%nat with true.
  change (2 <=? length [p; p])%nat with true.
  cbv beta iota zeta. cbn [andb length].
  replace (Nat.min 2 (3 + k)) with 2%nat by lia.
  replace (3 + k - 2)%nat with (S k) by lia.
  change (0 <? S k)%nat with true. cbv iota.
  set (vecs := edge_vecs [p; p]).
  set (lens := edge_lens hypot vecs).
  set (h := hypot (fst p - fst p) (snd p - snd p)).
  assert (Hlens : lens = [h; h]) by reflexivity.
  assert (Hh : h == 0) by (apply hypot_null; ring).
  assert (Hperim : Qsum lens == 0).
  { rewrite Hlens. simpl. rewrite Hh. ring. }
  unfold linspace_open. change (seq 0 (S k)) with (0%nat :: seq 1 k).
  rewrite map_cons.
  rewrite (mapM_first_raises _ _ _ Py.IndexError); [reflexivity|].
  unfold boundary_extra.
  set (d := 0 + Qofnat 0 * ((Qsum lens - 0) / Qofnat (S k))).
  assert (Hd : d == 0) by (subst d; unfold Qofnat; simpl inject_Z; ring).
  assert (Hss : searchsorted_right (0 :: cumsum lens) d = 3%nat).
  { rewrite Hlens. unfold cumsum. cbn [cumsum_from searchsorted_right].
    assert (H0 : Qle_bool 0 d = true) by (apply Qle_bool_iff; rewrite Hd; apply Qle_refl).
    assert (H1 : Qle_bool (0 + h) d = true)
      by (apply Qle_bool_iff; rewrite Hd, Hh; apply Qle_refl).
    assert (H2 : Qle_bool (0 + h + h) d = true)
      by (apply Qle_bool_iff; rewrite Hd, Hh; apply Qle_refl).
    rewrite H0, H1, H2. reflexivity. }
  rewrite Hss, Hlens. reflexivity.
Qed.

End Sampling.

(** ** The CPU sampler away from degenerate polygons *)
Section CpuSamplerCount.
Import Num Sampler.
Local Open Scope Q_scope.

Variable hypot : Q -> Q -> Q.

Lemma mapM_ok {A B} (f : A -> Py.result B) (l : list A) :
  (forall a, In a l -> exists b, f a = Py.Ok b) ->
  exists l', Py.mapM f l = Py.Ok l' /\ length l' = length l.
Proof.
  induction l as [|a l IH]; intros H.
  - exists []. split; reflexivity.
  - destruct (H a (or_introl eq_refl)) as [b Hb].
    destruct IH as [l' [Hl' Hlen]]; [intros x Hx; apply H; right; exact Hx|].
    exists (b :: l'). simpl. rewrite Hb, Hl'. simpl. split; [reflexivity | now rewrite Hlen].
Qed.

Lemma get_in_range {A} (l : list A) (i : Z) :
  (0 <= i < Z.of_nat (length l))%Z -> exists a, Py.get l i = Py.Ok a.
Proof.
  intros Hi. unfold Py.get, Py.index.
  destruct (Z.leb_spec 0 i) as [_|]; [|lia].
  destruct (nth_error l (Z.to_nat i)) as [a|] eqn:E; [now exists a|].
  apply nth_error_None in E. lia.
Qed.

Lemma edge_vecs_length (verts : list pt) : length (edge_vecs verts) = length verts.
Proof.
  unfold edge_vecs. rewrite length_map, length_combine.
  destruct verts as [|v verts]; [reflexivity|].
  rewrite removelast_firstn_len, length_firstn.
  change (tl ((v :: verts) ++ firstn 1 (v :: verts))) with (verts ++ [v]).
  rewrite !length_app. simpl. lia.
Qed.

Lemma cumsum_from_length (acc : Q) (l : list Q) :
  length (cumsum_from acc l) = length l.
Proof. revert acc. induction l; intros acc; simpl; [reflexivity | now rewrite IHl]. Qed.

Lemma searchsorted_stops (a : list Q) (d : Q) :
  Exists (fun x => d < x) a -> (searchsorted_right a d < length a)%nat.
Proof.
  induction a as [|x a IH]; intros H; [inversion H|].
  simpl. destruct (Qle_bool x d) eqn:E; [|lia].
  apply Qle_bool_iff in E. inversion H as [? ? Hx | ? ? Ha]; subst.
  - exfalso. apply (Qlt_not_le _ _ Hx). exact E.
  - specialize (IH Ha). lia.
Qed.

Lemma cumsum_reaches_total (l : list Q) (acc d : Q) :
  l <> [] -> d < acc + Qsum l -> Exists (fun x => d < x) (cumsum_from acc l).
Proof.
  revert acc. induction l as [|x [|y l] IH]; intros acc Hne Hd; [congruence | |].
  - apply Exists_cons_hd. change (Qsum [x]) with (x + 0) in Hd. Lqa.lra.
  - apply Exists_cons_tl. apply IH; [discriminate|].
    change (Qsum (x :: y :: l)) with (x + Qsum (y :: l)) in Hd. Lqa.lra.
Qed.

(** For a distance in [[0, perimeter)] the edge looked up exists. *)
Lemma boundary_extra_ok (verts : list pt) (d : Q) :
  verts <> [] ->
  0 <= d -> d < Qsum (edge_lens hypot (edge_vecs verts)) ->
  exists p,
    boundary_extra verts (edge_vecs verts) (edge_lens hypot (edge_vecs verts))
      (0 :: cumsum (edge_lens hypot (edge_vecs verts))) d = Py.Ok p.
Proof.
  intros Hne H0 Hd.
  set (vecs := edge_vecs verts). set (lens := edge_lens hypot vecs).
  fold vecs in Hd. fold lens in Hd.
  assert (Hlv : length vecs = length verts) by apply edge_vecs_length.
  assert (Hll : length lens = length verts)
    by (unfold lens, edge_lens; rewrite length_map; exact Hlv).
  assert (Hlne : lens <> []).
  { intros E. rewrite E in Hll. destruct verts; [congruence | discriminate]. }
  unfold boundary_extra.
  assert (Hss : searchsorted_right (0 :: cumsum lens) d
                = S (searchsorted_right (cumsum lens) d)).
  { simpl. apply Qle_bool_iff in H0. rewrite H0. reflexivity. }
  assert (Hlt : (searchsorted_right (cumsum lens) d < length lens)%nat).
  { rewrite <- (cumsum_from_length 0 lens). apply searchsorted_stops.
    apply cumsum_reaches_total; [exact Hlne | Lqa.lra]. }
  rewrite Hss.
  set (i := (Z.of_nat (S (searchsorted_right (cumsum lens) d)) - 1)%Z).
  assert (Hi : (0 <= i < Z.of_nat (length lens))%Z) by (subst i; lia).
  destruct (get_in_range (0 :: cumsum lens) i) as [c Hc].
  { simpl length. unfold cumsum. rewrite cumsum_from_length. lia. }
  destruct (get_in_range lens i Hi) as [li Hli].
  destruct (get_in_range verts i) as [v Hv]; [lia|].
  destruct (get_in_range vecs i) as [e He]; [lia|].
  rewrite Hc, Hli, Hv, He. simpl. eexists; reflexivity.
Qed.

Lemma Qofnat_nonneg (n : nat) : 0 <= Qofnat n.
Proof.
  unfold Qofnat. change 0 with (inject_Z 0). rewrite <- Zle_Qle. lia.
Qed.

Lemma Qofnat_lt (k n : nat) : (k < n)%nat -> Qofnat k < Qofnat n.
Proof. intros H. unfold Qofnat. rewrite <- Zlt_Qlt. lia. Qed.

Lemma Qofnat_le (k n : nat) : (k <= n)%nat -> Qofnat k <= Qofnat n.
Proof. intros H. unfold Qofnat. rewrite <- Zle_Qle. lia. Qed.

(** A fraction [k / n] of a non-negative span, [k <= n]. *)
Lemma fraction_bounds (k n span : Q) :
  0 <= k -> k <= n -> 0 <= span ->
  0 <= k * (span / n) /\ k * (span / n) <= span.
Proof.
  intros Hk Hkn Hs.
  destruct (Qeq_dec n 0) as [Hn0|Hn0].
  - assert (Hk0 : k == 0) by Lqa.lra. rewrite Hk0. split; Lqa.lra.
  - assert (Hn : 0 < n) by Lqa.lra.
    assert (E : k * (span / n) == span * (k / n)) by (field; exact Hn0).
    rewrite E.
    assert (H1 : 0 <= k / n) by (apply Qle_shift_div_l; Lqa.lra).
    assert (H2 : k / n <= 1) by (apply Qle_shift_div_r; Lqa.lra).
    split.
    + apply Qmult_le_0_compat; assumption.
    + assert (H3 : (k / n) * span <= 1 * span)
        by (apply Qmult_le_compat_r; assumption).
      rewrite Qmult_1_l in H3. rewrite Qmult_comm. exact H3.
Qed.

Lemma fraction_below (k n span : Q) :
  0 <= k -> k < n -> 0 < span -> k * (span / n) < span.
Proof.
  intros Hk Hkn Hs.
  assert (Hn : 0 < n) by Lqa.lra.
  assert (E : k * (span / n) == span * (k / n)) by (field; Lqa.lra).
  rewrite E.
  assert (H2 : k / n < 1) by (apply Qlt_shift_div_r; Lqa.lra).
  assert (H3 : span * (k / n) < span * 1) by (apply Qmult_lt_l; assumption).
  rewrite Qmult_1_r in H3. exact H3.
Qed.

Lemma linspace_open_range (perim d : Q) (extra : nat) :
  0 < perim -> In d (linspace_open 0 perim extra) -> 0 <= d /\ d < perim.
Proof.
  intros Hp Hin. unfold linspace_open in Hin.
  apply in_map_iff in Hin. destruct Hin as [k [<- Hk]]. apply in_seq in Hk.
  assert (Hspan : perim - 0 == perim) by ring.
  pose proof (Qofnat_nonneg k) as Hk0.
  assert (Hkn : Qofnat k < Qofnat extra) by (apply Qofnat_lt; lia).
  destruct (fraction_bounds (Qofnat k) (Qofnat extra) (perim - 0)) as [Hlo _];
    [exact Hk0 | Lqa.lra | Lqa.lra |].
  pose proof (fraction_below (Qofnat k) (Qofnat extra) (perim - 0) Hk0 Hkn) as Hhi.
  split; Lqa.lra.
Qed.

(** Step 1 succeeds unless extra points are asked of a polygon of
    perimeter zero, and yields at most [N_boundary] points. *)
Lemma boundary_sampling_ok (parent_verts_scaled : option (list pt)) (N_boundary : nat) :
  match parent_verts_scaled with
  | Some verts =>
      (N_boundary <= length verts)%nat \/ 0 < Qsum (edge_lens hypot (edge_vecs verts))
  | None => True
  end ->
  exists pts, boundary_sampling hypot parent_verts_scaled N_boundary = Py.Ok pts
              /\ (length pts <= N_boundary)%nat.
Proof.
  intros Hok. unfold boundary_sampling.
  destruct parent_verts_scaled as [verts|]; [|exists []; split; [reflexivity | simpl; lia]].
  destruct ((0 <? N_boundary)%nat && (2 <=? length verts)%nat) eqn:Hc;
    [|exists []; split; [reflexivity | simpl; lia]].
  apply andb_true_iff in Hc. destruct Hc as [Hb Hv].
  apply Nat.ltb_lt in Hb. apply Nat.leb_le in Hv.
  destruct (Nat.ltb_spec 0 (N_boundary - Nat.min (length verts) N_boundary)) as [Hx|Hx].
  - destruct Hok as [Hle|Hperim]; [lia|].
    destruct (mapM_ok
                (boundary_extra verts (edge_vecs verts)
                   (edge_lens hypot (edge_vecs verts))
                   (0 :: cumsum (edge_lens hypot (edge_vecs verts))))
                (linspace_open 0 (Qsum (edge_lens hypot (edge_vecs verts)))
                   (N_boundary - Nat.min (length verts) N_boundary)))
      as [extras [Hm Hlen]].
    { intros d Hd. destruct (linspace_open_range _ _ _ Hperim Hd) as [H0 H1].
      apply boundary_extra_ok; [destruct verts; [simpl in Hv; lia | discriminate] | | ];
        assumption. }
    rewrite Hm. cbn [Py.bind]. eexists. split; [reflexivity|].
    rewrite length_app, length_firstn, Hlen.
    unfold linspace_open. rewrite length_map, length_seq. lia.
  - eexists. split; [reflexivity|]. rewrite length_firstn. lia.
Qed.

Lemma trunc_bounds (v : Q) (m : Z) :
  0 <= v -> v <= inject_Z m -> (0 <= trunc v <= m)%Z.
Proof.
  intros H0 Hm. unfold trunc.
  assert (Hnum : (0 <= Qnum v)%Z).
  { unfold Qle in H0. simpl in H0. lia. }
  rewrite Z.quot_div_nonneg by lia.
  assert (Hfl : (Qnum v / Z.pos (Qden v))%Z = Qfloor v) by (destruct v; reflexivity).
  rewrite Hfl.
  split.
  - change 0%Z with (Qfloor 0). apply Qfloor_resp_le. exact H0.
  - rewrite <- (Qfloor_Z m). apply Qfloor_resp_le. exact Hm.
Qed.

Lemma ceil_sqrt_covers (n : nat) : (n <= ceil_sqrt n * ceil_sqrt n)%nat.
Proof.
  unfold ceil_sqrt. pose proof (Nat.sqrt_spec n (Nat.le_0_l n)) as [_ Hhi].
  destruct (Nat.eqb_spec (Nat.sqrt n * Nat.sqrt n) n); simpl in *; lia.
Qed.

Lemma grid_length (xs ys : list Q) : length (grid xs ys) = (length ys * length xs)%nat.
Proof.
  unfold grid. induction ys as [|y ys IH]; [reflexivity|].
  cbn [map concat]. rewrite length_app, length_map.
  change (length (y :: ys) * length xs)%nat with (length xs + length ys * length xs)%nat.
  f_equal. exact IH.
Qed.

Lemma linspace_length (a b : Q) (n : nat) : length (linspace a b n) = n.
Proof. unfold linspace. rewrite length_map, length_seq. reflexivity. Qed.

(** Step 2 always yields exactly the [needed] points. *)
Lemma interior_sampling_ok (parent_verts_scaled : option (list pt)) (bin : mask)
  (needed : nat) (W H : Z) (sx sy : Q) :
  exists more,
    interior_sampling parent_verts_scaled bin needed W H sx sy = Py.Ok more
    /\ length more = needed.
Proof.
  unfold interior_sampling.
  destruct (Nat.ltb_spec 0 (length (where_pos bin))) as [HM|HM].
  - destruct (mapM_ok (Py.get (where_pos bin))
                (map trunc (linspace 0 (Qofnat (length (where_pos bin)) - 1) needed)))
      as [picked [Hm Hlen]].
    { intros i Hi. apply in_map_iff in Hi. destruct Hi as [v [<- Hv]].
      unfold linspace in Hv. apply in_map_iff in Hv. destruct Hv as [k [<- Hk]].
      apply in_seq in Hk.
      set (M := length (where_pos bin)) in *.
      assert (HMq : Qofnat M - 1 == inject_Z (Z.of_nat M - 1)).
      { unfold Qofnat, Zminus. rewrite inject_Z_plus. reflexivity. }
      assert (Hspan : 0 <= Qofnat M - 1 - 0).
      { rewrite HMq. assert (H1 : inject_Z 0 <= inject_Z (Z.of_nat M - 1))
          by (rewrite <- Zle_Qle; lia). change (inject_Z 0) with 0 in H1. Lqa.lra. }
      destruct (fraction_bounds (Qofnat k) (Qofnat (needed - 1)) (Qofnat M - 1 - 0))
        as [Hlo Hhi]; [apply Qofnat_nonneg | apply Qofnat_le; lia | exact Hspan |].
      apply get_in_range.
      destruct (trunc_bounds
                  (0 + Qofnat k * ((Qofnat M - 1 - 0) / Qofnat (needed - 1)))
                  (Z.of_nat M - 1)) as [Ht0 Ht1]; [Lqa.lra | rewrite <- HMq; Lqa.lra |].
      lia. }
    rewrite Hm. cbn [Py.bind]. eexists. split; [reflexivity|].
    rewrite !length_map, Hlen, length_map, linspace_length. reflexivity.
  - assert (Hgrid : exists more,
               Py.Ok (map (normalise W H sx sy)
                        (firstn needed
                           (grid (linspace 0 (inject_Z W - 1) (ceil_sqrt needed))
                                 (linspace 0 (inject_Z H - 1) (ceil_sqrt needed)))))
               = Py.Ok more /\ length more = needed).
    { eexists. split; [reflexivity|].
      rewrite length_map, length_firstn, grid_length, !linspace_length.
      pose proof (ceil_sqrt_covers needed). lia. }
    destruct parent_verts_scaled as [[|v vs]|]; try exact Hgrid.
    destruct (mapM_ok (Py.get (v :: vs))
                (map (fun k => Z.of_nat (k mod length (v :: vs))) (seq 0 needed)))
      as [more [Hm Hlen]].
    { intros i Hi. apply in_map_iff in Hi. destruct Hi as [k [<- _]].
      apply get_in_range.
      pose proof (Nat.mod_upper_bound k (length (v :: vs))) as Hmod.
      simpl length in *. lia. }
    exists more. split; [exact Hm|]. rewrite Hlen, length_map, length_seq. reflexivity.
Qed.

(** Given a mask, the CPU sampler returns exactly [N_total] points whenever
    [N_boundary <= N_total] and the polygon, if extra boundary points must
    be placed on it, has a positive perimeter. *)
Theorem cpu_sampler_returns_n_total (parent_verts_scaled : option (list pt))
  (bin : mask) (N_total N_boundary : nat) (W H : Z) (sx sy : Q) :
  (N_boundary <= N_total)%nat ->
  match parent_verts_scaled with
  | Some verts =>
      (N_boundary <= length verts)%nat \/ 0 < Qsum (edge_lens hypot (edge_vecs verts))
  | None => True
  end ->
  exists pts,
    generate_deterministic_context_points hypot parent_verts_scaled (Some bin)
      N_total N_boundary W H sx sy = Py.Ok pts
    /\ length pts = N_total.
Proof.
  intros Hle Hok. unfold generate_deterministic_context_points.
  destruct (boundary_sampling_ok parent_verts_scaled N_boundary Hok) as [pts [Hb Hlen]].
  rewrite Hb. cbn [Py.bind].
  destruct (Nat.ltb_spec 0 (N_total - length pts)) as [Hneed|Hneed].
  - destruct (interior_sampling_ok parent_verts_scaled bin (N_total - length pts)
                W H sx sy) as [more [Hi Hmore]].
    rewrite Hi. cbn [Py.bind]. eexists. split; [reflexivity|].
    destruct (Nat.ltb_spec N_total (length (pts ++ more)));
      rewrite ?length_firstn, length_app in *; lia.
  - cbn [Py.bind]. eexists. split; [reflexivity|].
    destruct (Nat.ltb_spec N_total (length pts)); rewrite ?length_firstn; lia.
Qed.

End CpuSamplerCount.

(** ** The recursion of the fitter *)
Section FitterRecursion.
Import Fitter.
Local Open Scope R_scope.

Variable minimize : (point -> R) -> point -> point.

Lemma argmax_from_bound (l : list R) (i best_i : nat) (best : R) :
  (best_i < i)%nat -> (argmax_from l i best_i best < i + length l)%nat.
Proof.
  revert i best_i best. induction l as [|x l IH]; intros i best_i best Hlt; simpl.
  - lia.
  - destruct (Rlt_dec best x).
    + specialize (IH (S i) i x). lia.
    + specialize (IH (S i) best_i best). lia.
Qed.

Lemma argmax_bound (l : list R) : l <> [] -> (argmax l < length l)%nat.
Proof.
  destruct l as [|x l]; [congruence|]. intros _. simpl.
  pose proof (argmax_from_bound l 1 0 x). lia.
Qed.

(** The index returned by [find_max_deviation_point] is a position of the
    segment. *)
Lemma max_deviation_index_bound (p0 : point) (segment : list point) (idx : nat) (dev : R) :
  segment <> [] ->
  find_max_deviation_point p0 segment = (Some idx, dev) ->
  (idx < length segment)%nat.
Proof.
  intros Hne. unfold find_max_deviation_point.
  destruct (Rlt_dec _ tol); [discriminate|].
  intros H. injection H as <- _.
  match goal with |- (argmax ?d < _)%nat => assert (Hd : length d = length segment)
    by apply length_map; rewrite <- Hd; apply argmax_bound end.
  destruct segment; [congruence | discriminate].
Qed.

(** Both halves of a split at an interior index are strictly shorter than
    the segment and keep at least two points. *)
Lemma split_halves_shorter {A} (segment : list A) (idx : nat) :
  (0 < idx)%nat -> (idx < length segment - 1)%nat ->
  (2 <= length (firstn (idx + 1) segment) < length segment)%nat
  /\ (2 <= length (skipn idx segment) < length segment)%nat.
Proof. intros H0 H1. rewrite length_firstn, length_skipn. lia. Qed.

Lemma interior_of_guard (n idx : nat) :
  ((idx =? 0) || (idx =? n - 1))%nat = false -> (idx < n)%nat ->
  (0 < idx)%nat /\ (idx < n - 1)%nat.
Proof.
  intros Hg Hlt. apply orb_false_iff in Hg. destruct Hg as [H0 H1].
  apply Nat.eqb_neq in H0. apply Nat.eqb_neq in H1. lia.
Qed.

(** One unfolding of the recursion on a non-empty segment. *)
Lemma split_and_fit_step (fuel : nat) (p0 : point) (rest : list point) (tc td : R) :
  split_and_fit minimize (S fuel) (p0 :: rest) tc td
  = if Rle_dec (measure_complexity p0 (p0 :: rest)) tc then
      Done [(p0, p0, last (p0 :: rest) p0, 0%nat)]
    else
      match find_max_deviation_point p0 (p0 :: rest) with
      | (None, dev) =>
          if Rle_dec dev td then Done [fit_quadratic_bezier minimize p0 (p0 :: rest)]
          else Raised Py.TypeError
      | (Some idx, dev) =>
          if Rle_dec dev td then Done [fit_quadratic_bezier minimize p0 (p0 :: rest)]
          else if ((idx =? 0) || (idx =? length (p0 :: rest) - 1))%nat
          then Done [fit_quadratic_bezier minimize p0 (p0 :: rest)]
          else
            match split_and_fit minimize fuel (firstn (idx + 1) (p0 :: rest)) tc td with
            | Done first =>
                match split_and_fit minimize fuel (skipn idx (p0 :: rest)) tc td with
                | Done second => Done (first ++ second)
                | other => other
                end
            | other => other
            end
      end.
Proof. reflexivity. Qed.

(** With at least as much fuel as points, the result no longer depends on
    the fuel and is not [OutOfFuel]. *)
Lemma fuel_by_length (n : nat) :
  forall (segment : list point) (tc td : R) (f1 f2 : nat),
    (1 <= length segment <= n)%nat -> (n <= f1)%nat -> (n <= f2)%nat ->
    split_and_fit minimize f1 segment tc td = split_and_fit minimize f2 segment tc td
    /\ split_and_fit minimize f1 segment tc td <> OutOfFuel.
Proof.
  induction n as [|n IH]; intros segment tc td f1 f2 Hlen H1 H2; [lia|].
  destruct f1 as [|f1]; [lia|]. destruct f2 as [|f2]; [lia|].
  destruct segment as [|p0 rest]; [simpl in Hlen; lia|].
  rewrite !split_and_fit_step.
  set (segment := p0 :: rest) in *.
  destruct (Rle_dec (measure_complexity p0 segment) tc); [split; congruence|].
  destruct (find_max_deviation_point p0 segment) as [[idx|] dev] eqn:Hfind.
  2:{ destruct (Rle_dec dev td); split; congruence. }
  destruct (Rle_dec dev td); [split; congruence|].
  destruct ((idx =? 0) || (idx =? length segment - 1))%nat eqn:Hguard;
    [split; congruence|].
  assert (Hidx : (idx < length segment)%nat)
    by (apply (max_deviation_index_bound p0 segment idx dev); [discriminate | exact Hfind]).
  destruct (interior_of_guard _ _ Hguard Hidx) as [Hpos Hint].
  destruct (split_halves_shorter segment idx Hpos Hint) as [Hfst Hsnd].
  destruct (IH (firstn (idx + 1) segment) tc td f1 f2) as [E1 N1]; try lia.
  destruct (IH (skipn idx segment) tc td f1 f2) as [E2 N2]; try lia.
  rewrite <- E1, <- E2.
  destruct (split_and_fit minimize f1 (firstn (idx + 1) segment) tc td);
    [|split; congruence | congruence].
  destruct (split_and_fit minimize f1 (skipn idx segment) tc td);
    [split; congruence | split; congruence | congruence].
Qed.

(** C8: the fitter terminates on every segment of at least two points,
    within a recursion depth of its point count; the index it splits at lies
    strictly inside the segment, so both halves are strictly shorter. *)
Theorem fitter_terminates_within_point_count (segment : list point)
  (threshold_complex threshold_dev : R) :
  (2 <= length segment)%nat ->
  (forall fuel, (length segment <= fuel)%nat ->
     split_and_fit minimize fuel segment threshold_complex threshold_dev
     = split_and_fit minimize (length segment) segment threshold_complex threshold_dev
     /\ split_and_fit minimize fuel segment threshold_complex threshold_dev <> OutOfFuel)
  /\ (forall p0 idx dev,
        find_max_deviation_point p0 segment = (Some idx, dev) ->
        ((idx =? 0) || (idx =? length segment - 1))%nat = false ->
        (0 < idx < length segment - 1)%nat
        /\ (2 <= length (firstn (idx + 1) segment) < length segment)%nat
        /\ (2 <= length (skipn idx segment) < length segment)%nat).
Proof.
  intros Hlen. split.
  - intros fuel Hfuel.
    apply (fuel_by_length (length segment)); lia.
  - intros p0 idx dev Hfind Hguard.
    assert (Hne : segment <> []) by (destruct segment; [simpl in Hlen; lia | discriminate]).
    pose proof (max_deviation_index_bound p0 segment idx dev Hne Hfind) as Hidx.
    destruct (interior_of_guard _ _ Hguard Hidx) as [Hpos Hint].
    split; [lia|]. apply split_halves_shorter; assumption.
Qed.

(** Every piece carries type flag [0] or [1]. *)
Lemma fitter_types (fuel : nat) :
  forall (segment : list point) (tc td : R),
    match split_and_fit minimize fuel segment tc td with
    | Done pieces => Forall (fun f => type_flag f = 0%nat \/ type_flag f = 1%nat) pieces
    | _ => True
    end.
Proof.
  induction fuel as [|fuel IH]; intros segment tc td; [exact I|].
  destruct segment as [|p0 rest]; [exact I|].
  rewrite split_and_fit_step.
  set (segment := p0 :: rest) in *.
  destruct (Rle_dec (measure_complexity p0 segment) tc).
  { repeat constructor. }
  destruct (find_max_deviation_point p0 segment) as [[idx|] dev].
  2:{ destruct (Rle_dec dev td); [|exact I]. constructor; [right; reflexivity|constructor]. }
  destruct (Rle_dec dev td).
  { constructor; [right; reflexivity|constructor]. }
  destruct ((idx =? 0) || (idx =? length segment - 1))%nat.
  { constructor; [right; reflexivity|constructor]. }
  pose proof (IH (firstn (idx + 1) segment) tc td) as H1.
  pose proof (IH (skipn idx segment) tc td) as H2.
  destruct (split_and_fit minimize fuel (firstn (idx + 1) segment) tc td); try exact I.
  destruct (split_and_fit minimize fuel (skipn idx segment) tc td); try exact I.
  apply Forall_app. split; assumption.
Qed.

Lemma no_index_no_deviation (p0 : point) (segment : list point) (dev : R) :
  find_max_deviation_point p0 segment = (None, dev) -> dev = 0.
Proof.
  unfold find_max_deviation_point. destruct (Rlt_dec _ tol); intros H.
  - now injection H.
  - discriminate.
Qed.

(** On a non-empty segment and with a non-negative deviation threshold the
    fitter returns pieces. *)
Lemma fitter_returns (n : nat) :
  forall (segment : list point) (tc td : R),
    (1 <= length segment <= n)%nat -> 0 <= td ->
    exists pieces, split_and_fit minimize n segment tc td = Done pieces.
Proof.
  induction n as [|n IH]; intros segment tc td Hlen Htd; [lia|].
  destruct segment as [|p0 rest]; [simpl in Hlen; lia|].
  rewrite split_and_fit_step.
  set (segment := p0 :: rest) in *.
  destruct (Rle_dec (measure_complexity p0 segment) tc); [eexists; reflexivity|].
  destruct (find_max_deviation_point p0 segment) as [[idx|] dev] eqn:Hfind.
  2:{ apply no_index_no_deviation in Hfind. subst dev.
      destruct (Rle_dec 0 td); [eexists; reflexivity | contradiction]. }
  destruct (Rle_dec dev td); [eexists; reflexivity|].
  destruct ((idx =? 0) || (idx =? length segment - 1))%nat eqn:Hguard;
    [eexists; reflexivity|].
  assert (Hidx : (idx < length segment)%nat)
    by (apply (max_deviation_index_bound p0 segment idx dev); [discriminate | exact Hfind]).
  destruct (interior_of_guard _ _ Hguard Hidx) as [Hpos Hint].
  destruct (split_halves_shorter segment idx Hpos Hint) as [Hfst Hsnd].
  destruct (IH (firstn (idx + 1) segment) tc td) as [first E1]; [lia | exact Htd |].
  destruct (IH (skipn idx segment) tc td) as [second E2]; [lia | exact Htd |].
  rewrite E1, E2. eexists; reflexivity.
Qed.

(** C10: whatever the input, the pieces the fitter returns carry type flag
    [0] (line) or [1] (quadratic), and it does return pieces on every
    non-empty segment when the deviation threshold is not negative; the
    decoder of the evaluator nevertheless has a third class, [2]. *)
Theorem fitter_never_emits_cubic (fuel : nat) (segment : list point)
  (threshold_complex threshold_dev : R) :
  match split_and_fit minimize fuel segment threshold_complex threshold_dev with
  | Done pieces => Forall (fun f => type_flag f = 0%nat \/ type_flag f = 1%nat) pieces
  | _ => True
  end
  /\ (segment <> [] -> 0 <= threshold_dev ->
      exists pieces,
        split_and_fit minimize (length segment) segment threshold_complex threshold_dev
        = Done pieces
        /\ Forall (fun f => type_flag f = 0%nat \/ type_flag f = 1%nat) pieces)
  /\ Codec.gt_type (Codec.mkRow 0 0 0 0 1 1) = 2%nat.
Proof.
  split; [apply fitter_types|]. split; [|reflexivity].
  intros Hne Htd.
  destruct (fitter_returns (length segment) segment threshold_complex threshold_dev)
    as [pieces E]; [|exact Htd|].
  - destruct segment; [congruence | simpl; lia].
  - exists pieces. split; [exact E|].
    pose proof (fitter_types (length segment) segment threshold_complex threshold_dev) as H.
    rewrite E in H. exact H.
Qed.

End FitterRecursion.

(** ** Straight segments *)
Section StraightSegments.
Import Fitter.
Local Open Scope R_scope.

Variable minimize : (point -> R) -> point -> point.

Lemma tol_pos : 0 < tol.
Proof. unfold tol. apply Rinv_0_lt_compat. lra. Qed.

Lemma norm_nonneg (v : point) : 0 <= norm v.
Proof. apply sqrt_pos. Qed.






Lemma last_map_cons {A B} (f : A -> B) (a : A) (l : list A) (d : B) :
  last (map f (a :: l)) d = f (last (a :: l) a).
Proof.
  revert a. induction l as [|b l IH]; intros a; [reflexivity|].
  change (last (map f (a :: b :: l)) d) with (last (map f (b :: l)) d).
  change (last (a :: b :: l) a) with (last (b :: l) a).
  rewrite (last_indep (b :: l) a b) by discriminate.
  apply IH.
Qed.



End StraightSegments.



Lemma fitter_terminates_within_point_count_witness :
  let segment := ((0, 0)%R :: Fitter.axis_points) in
  (forall fuel, (length segment <= fuel)%nat ->
     Fitter.split_and_fit Fitter.keep_init fuel segment (101 / 100)%R (1 / 2)%R
     = Fitter.split_and_fit Fitter.keep_init (length segment) segment
         (101 / 100)%R (1 / 2)%R
     /\ Fitter.split_and_fit Fitter.keep_init fuel segment (101 / 100)%R (1 / 2)%R
        <> Fitter.OutOfFuel)
  /\ (forall p0 idx dev,
        Fitter.find_max_deviation_point p0 segment = (Some idx, dev) ->
        ((idx =? 0) || (idx =? length segment - 1))%nat = false ->
        (0 < idx < length segment - 1)%nat
        /\ (2 <= length (firstn (idx + 1) segment) < length segment)%nat
        /\ (2 <= length (skipn idx segment) < length segment)%nat).
Proof.
  intros segment.
  apply (fitter_terminates_within_point_count Fitter.keep_init segment
           (101 / 100)%R (1 / 2)%R).
  simpl. lia.
Defined.

Lemma hypot_dyadic_null (x y : Q) : x == 0 -> y == 0 -> Sampler.hypot_dyadic x y == 0.
Proof.
  intros Hx Hy. unfold Sampler.hypot_dyadic.
  assert (E : (x * x + y * y) * inject_Z (4 ^ 24) == 0) by (rewrite Hx, Hy; ring).
  rewrite (Qfloor_comp _ _ E). reflexivity.
Qed.

Lemma cpu_sampler_returns_n_total_witness :
  exists pts,
    Sampler.generate_deterministic_context_points Sampler.hypot_dyadic
      (Some [(0, 0); (3, 0); (3, 4)]%Q) (Some Sampler.corner_off_mask) 8 5 2 2 1 1
    = Py.Ok pts
    /\ length pts = 8%nat.
Proof.
  apply (cpu_sampler_returns_n_total Sampler.hypot_dyadic
           (Some [(0, 0); (3, 0); (3, 4)]%Q) Sampler.corner_off_mask 8 5 2 2 1 1).
  - lia.
  - right. reflexivity.
Defined.

Lemma cpu_sampler_degenerate_polygon_witness :
  Sampler.generate_deterministic_context_points Sampler.hypot_dyadic
    (Some [(1, 1); (1, 1)]%Q) (Some Sampler.corner_off_mask) 3 (3 + 0) 2 2 1 1
  = Py.Raise Py.IndexError.
Proof.
  exact (cpu_sampler_degenerate_polygon Sampler.hypot_dyadic hypot_dyadic_null
           (1, 1)%Q 0 3 (Some Sampler.corner_off_mask) 2 2 1 1).
Defined.

(** ** The straightness metric is at least one *)
Section MetricBound.
Import Fitter FitterShape.
Local Open Scope R_scope.

Variable minimize : (point -> R) -> point -> point.

Lemma norm_triangle (u v : point) : norm (padd u v) <= norm u + norm v.
Proof.
  destruct u as [a b], v as [c d]. unfold norm, padd. simpl.
  set (B := a * a + b * b). set (C := c * c + d * d).
  assert (HB : 0 <= B) by (subst B; nra).
  assert (HC : 0 <= C) by (subst C; nra).
  assert (Hcs : a * c + b * d <= sqrt B * sqrt C).
  { rewrite <- sqrt_mult by assumption.
    destruct (Rle_dec (a * c + b * d) 0) as [Hneg|Hpos].
    - pose proof (sqrt_pos (B * C)). lra.
    - rewrite <- (sqrt_square (a * c + b * d)) by lra.
      apply sqrt_le_1; [nra | nra |].
      pose proof (Rle_0_sqr (a * d - b * c)) as Hsq. unfold Rsqr in Hsq.
      subst B C. lra. }
  apply Rsqr_incr_0_var; [|pose proof (sqrt_pos B); pose proof (sqrt_pos C); lra].
  rewrite Rsqr_sqrt
    by (pose proof (Rle_0_sqr (a + c)); pose proof (Rle_0_sqr (b + d));
        unfold Rsqr in *; lra).
  unfold Rsqr.
  replace ((sqrt B + sqrt C) * (sqrt B + sqrt C))
    with (sqrt B * sqrt B + sqrt C * sqrt C + 2 * (sqrt B * sqrt C)) by ring.
  rewrite !sqrt_sqrt by assumption. subst B C. nra.
Qed.

Lemma norm_zero_vector (p : point) : norm (psub p p) = 0.
Proof.
  unfold norm, psub. simpl.
  replace ((fst p - fst p) * (fst p - fst p) + (snd p - snd p) * (snd p - snd p))
    with 0 by ring.
  apply sqrt_0.
Qed.

(** The arc through the points is at least the chord between the ends. *)
Lemma arc_at_least_chord (a : point) (rest : list point) :
  norm (psub (last (a :: rest) a) a) <= Rsum (map norm (diffs (a :: rest))).
Proof.
  revert a. induction rest as [|b rest IH]; intros a.
  - simpl. rewrite norm_zero_vector. lra.
  - change (last (a :: b :: rest) a) with (last (b :: rest) a).
    rewrite (last_indep (b :: rest) a b) by discriminate.
    change (Rsum (map norm (diffs (a :: b :: rest))))
      with (norm (psub b a) + Rsum (map norm (diffs (b :: rest)))).
    specialize (IH b).
    pose proof (norm_triangle (psub b a) (psub (last (b :: rest) b) b)) as Ht.
    replace (padd (psub b a) (psub (last (b :: rest) b) b))
      with (psub (last (b :: rest) b) a) in Ht.
    + lra.
    + unfold padd, psub. simpl. apply f_equal2; ring.
Qed.

(** Over the reals the metric is at least [1]. *)
Lemma complexity_at_least_one (p0 : point) (rest : list point) :
  1 <= measure_complexity p0 (p0 :: rest).
Proof.
  unfold measure_complexity.
  destruct (Rlt_dec tol _) as [Hlt|]; [|lra].
  pose proof (arc_at_least_chord p0 rest) as Harc.
  pose proof tol_pos as Htol.
  set (chord := norm (psub (last (p0 :: rest) p0) p0)) in *.
  apply (Rmult_le_reg_r chord); [lra|].
  unfold Rdiv. rewrite Rmult_assoc, Rinv_l by lra. lra.
Qed.

(** Over the reals, below a threshold of one no piece is a line. *)
Lemma no_line_below_one (fuel : nat) :
  forall (segment : list point) (tc td : R),
    tc < 1 ->
    match split_and_fit minimize fuel segment tc td with
    | Done pieces => Forall (fun f => type_flag f = 1%nat) pieces
    | _ => True
    end.
Proof.
  induction fuel as [|fuel IH]; intros segment tc td Htc; [exact I|].
  destruct segment as [|p0 rest]; [exact I|].
  rewrite split_and_fit_step.
  pose proof (complexity_at_least_one p0 rest) as H1.
  set (segment := p0 :: rest) in *.
  destruct (Rle_dec (measure_complexity p0 segment) tc); [lra|].
  destruct (find_max_deviation_point p0 segment) as [[idx|] dev].
  2:{ destruct (Rle_dec dev td); [|exact I]. repeat constructor. }
  destruct (Rle_dec dev td); [repeat constructor|].
  destruct ((idx =? 0) || (idx =? length segment - 1))%nat; [repeat constructor|].
  pose proof (IH (firstn (idx + 1) segment) tc td Htc) as Ha.
  pose proof (IH (skipn idx segment) tc td Htc) as Hb.
  destruct (split_and_fit minimize fuel (firstn (idx + 1) segment) tc td); try exact I.
  destruct (split_and_fit minimize fuel (skipn idx segment) tc td); try exact I.
  apply Forall_app. split; assumption.
Qed.

(** The straightness metric is the arc over the chord, and [1.0] when the
    chord is not longer than [1e-8]; the arc being at least the chord, the
    metric stays clear of any threshold of [0.99] or less: with such a
    [threshold_complex] the straight branch is never taken and every
    returned piece, even for two points, is a quadratic. *)
Theorem no_line_below_threshold_one (fuel : nat) (segment : list point)
  (threshold_complex threshold_dev : R) :
  threshold_complex <= 99 / 100 ->
  match split_and_fit minimize fuel segment threshold_complex threshold_dev with
  | Done pieces => Forall (fun f => type_flag f = 1%nat) pieces
  | _ => True
  end.
Proof.
  intros Htc. apply no_line_below_one. lra.
Qed.

End MetricBound.

Lemma no_line_below_threshold_one_witness :
  match Fitter.split_and_fit Fitter.keep_init 3 ((0, 0)%R :: Fitter.axis_points)
          (1 / 2)%R (1 / 2)%R with
  | Fitter.Done pieces => Forall (fun f => Fitter.type_flag f = 1%nat) pieces
  | _ => True
  end.
Proof.
  apply (no_line_below_threshold_one Fitter.keep_init 3
           ((0, 0)%R :: Fitter.axis_points) (1 / 2)%R (1 / 2)%R).
  lra.
Defined.

(** ** The point of maximum deviation *)
Section MaxDeviation.
Import Fitter FitterShape.
Local Open Scope R_scope.

Lemma argmax_from_first_max (l pre : list R) (best_i : nat) :
  (best_i < length pre)%nat ->
  (forall j, (j < length pre)%nat -> nth j pre 0 <= nth best_i pre 0) ->
  (forall j, (j < best_i)%nat -> nth j pre 0 < nth best_i pre 0) ->
  first_max (pre ++ l) (argmax_from l (length pre) best_i (nth best_i pre 0)).
Proof.
  revert pre best_i. induction l as [|x l IH]; intros pre best_i Hb Hmax Hfirst.
  - simpl. rewrite app_nil_r. repeat split; assumption.
  - simpl argmax_from.
    assert (Hlen : length (pre ++ [x]) = S (length pre))
      by (rewrite length_app; simpl; lia).
    assert (Hx : nth (length pre) (pre ++ [x]) 0 = x)
      by (rewrite app_nth2, Nat.sub_diag by lia; reflexivity).
    assert (Hpre : forall j, (j < length pre)%nat -> nth j (pre ++ [x]) 0 = nth j pre 0)
      by (intros j Hj; apply app_nth1; exact Hj).
    replace (pre ++ x :: l) with ((pre ++ [x]) ++ l) by (rewrite <- app_assoc; reflexivity).
    destruct (Rlt_dec (nth best_i pre 0) x) as [Hlt|Hnlt].
    + rewrite <- Hx at 2. rewrite <- Hlen.
      apply IH.
      * lia.
      * intros j Hj. rewrite Hx. rewrite Hlen in Hj.
        destruct (Nat.eq_dec j (length pre)) as [->|Hne]; [rewrite Hx; lra|].
        rewrite Hpre by lia. specialize (Hmax j ltac:(lia)). lra.
      * intros j Hj. rewrite Hx, Hpre by lia. specialize (Hmax j Hj). lra.
    + rewrite <- (Hpre best_i Hb). rewrite <- Hlen.
      apply IH.
      * lia.
      * intros j Hj. rewrite (Hpre best_i Hb). rewrite Hlen in Hj.
        destruct (Nat.eq_dec j (length pre)) as [->|Hne]; [rewrite Hx; lra|].
        rewrite Hpre by lia. apply Hmax. lia.
      * intros j Hj. rewrite (Hpre best_i Hb), Hpre by lia. apply Hfirst. exact Hj.
Qed.

Lemma argmax_first_max (l : list R) : l <> [] -> first_max l (argmax l).
Proof.
  destruct l as [|x l]; [congruence|]. intros _.
  exact (argmax_from_first_max l [x] 0 ltac:(simpl; lia)
           ltac:(intros [|j] Hj; simpl in *; [lra | lia]) ltac:(intros j Hj; lia)).
Qed.

Lemma find_max_unfold (p0 : point) (segment : list point) (idx : nat) (dev : R) :
  find_max_deviation_point p0 segment = (Some idx, dev) ->
  idx = argmax (deviations p0 segment) /\ dev = nth idx (deviations p0 segment) 0.
Proof.
  unfold find_max_deviation_point, deviations.
  destruct (Rlt_dec _ tol); [discriminate|].
  intros H. injection H as <- <-. split; reflexivity.
Qed.

Lemma deviation_of_first (p0 : point) (rest : list point) :
  nth 0 (deviations p0 (p0 :: rest)) 0 = 0.
Proof.
  unfold deviations. cbn [map nth].
  replace (dot (psub p0 p0) _) with 0; [apply Rabs_R0|].
  unfold dot, psub. simpl. ring.
Qed.

(** When [find_max_deviation_point] returns an index, it is the first
    position of the largest deviation, which is what it returns beside it; no
    deviation is negative, the first point has deviation [0], and so a
    positive deviation is never found at the first point. *)
Theorem max_deviation_is_first_maximum (p0 : point) (rest : list point)
  (idx : nat) (dev : R) :
  find_max_deviation_point p0 (p0 :: rest) = (Some idx, dev) ->
  let devs := deviations p0 (p0 :: rest) in
  dev = nth idx devs 0
  /\ (idx < length (p0 :: rest))%nat
  /\ (forall j, (j < length (p0 :: rest))%nat -> 0 <= nth j devs 0 <= dev)
  /\ (forall j, (j < idx)%nat -> nth j devs 0 < dev)
  /\ nth 0 devs 0 = 0
  /\ (0 < dev -> (0 < idx)%nat).
Proof.
  intros Hfind devs.
  destruct (find_max_unfold _ _ _ _ Hfind) as [Hidx Hdev].
  assert (Hlen : length devs = length (p0 :: rest))
    by (unfold devs, deviations; apply length_map).
  destruct (argmax_first_max devs) as [Hlt [Hmax Hfirst]].
  { unfold devs, deviations. discriminate. }
  fold devs in Hidx, Hdev. rewrite <- Hidx in *. rewrite <- Hdev in *.
  pose proof (deviation_of_first p0 rest) as H0.
  fold devs in H0.
  split; [reflexivity|]. split; [lia|]. split.
  { intros j Hj. split; [|apply Hmax; lia].
    unfold devs, deviations.
    match goal with |- 0 <= nth j (map ?f ?l) 0 =>
      rewrite (nth_map_in f l j 0 p0) by exact Hj end.
    apply Rabs_pos. }
  split; [exact Hfirst|]. split; [exact H0|].
  intros Hpos.
  assert (idx <> 0%nat) by (intros ->; lra).
  lia.
Qed.

Lemma tol_small : tol < 1.
Proof.
  unfold tol. apply (Rmult_lt_reg_r 100000000); [lra|].
  rewrite Rinv_l by lra. lra.
Qed.

Lemma norm_axis (a : R) (v : point) :
  0 <= a -> fst v = a -> snd v = 0 -> norm v = a.
Proof.
  intros Ha Hx Hy. unfold norm. rewrite Hx, Hy.
  replace (a * a + 0 * 0) with (a * a) by ring. apply sqrt_square. exact Ha.
Qed.

Lemma roof_chord : norm (psub (last roof (0, 0)) (0, 0)) = 2.
Proof. apply norm_axis; [lra | simpl; ring | simpl; ring]. Qed.

Lemma max_deviation_is_first_maximum_witness :
  let devs := deviations (0, 0) roof in
  let idx := argmax devs in
  let dev := nth idx devs 0 in
  dev = nth idx devs 0
  /\ (idx < length roof)%nat
  /\ (forall j, (j < length roof)%nat -> 0 <= nth j devs 0 <= dev)
  /\ (forall j, (j < idx)%nat -> nth j devs 0 < dev)
  /\ nth 0 devs 0 = 0
  /\ (0 < dev -> (0 < idx)%nat).
Proof.
  intros devs idx dev.
  apply (max_deviation_is_first_maximum (0, 0) [(1, 1); (2, 0)] idx dev).
  unfold find_max_deviation_point.
  destruct (Rlt_dec _ tol) as [Hlt|_]; [|reflexivity].
  exfalso. change ((0, 0) :: [(1, 1); (2, 0)]) with roof in Hlt.
  rewrite roof_chord in Hlt. pose proof tol_small. lra.
Defined.

End MaxDeviation.

(** ** The pieces the fitter returns *)
Section FitterPieces.
Import Fitter FitterShape.
Local Open Scope R_scope.

Variable minimize : (point -> R) -> point -> point.

Lemma chain_nonempty (a b : point) (pieces : list fitted) :
  chain a pieces b -> pieces <> [].
Proof. destruct pieces; [intros [] | discriminate]. Qed.

Lemma chain_app (l1 l2 : list fitted) (a b c : point) :
  chain a l1 b -> chain b l2 c -> chain a (l1 ++ l2) c.
Proof.
  revert a. induction l1 as [|f l1 IH]; intros a H1 H2; [destruct H1|].
  destruct H1 as [Hs H1]. simpl app. split; [exact Hs|].
  destruct l1 as [|g l1].
  - simpl. subst b. destruct l2 as [|h l2]; [destruct H2 | exact H2].
  - simpl app. apply (IH _ H1 H2).
Qed.

Lemma hd_skipn {A} (l : list A) (i : nat) (d : A) : hd d (skipn i l) = nth i l d.
Proof.
  revert i. induction l as [|a l IH]; intros [|i]; simpl; try reflexivity. apply IH.
Qed.

Lemma last_skipn {A} (l : list A) (i : nat) (d : A) :
  (i < length l)%nat -> last (skipn i l) d = last l d.
Proof.
  revert i. induction l as [|a l IH]; intros i Hi; [simpl in Hi; lia|].
  destruct i as [|i]; [reflexivity|].
  simpl skipn. rewrite IH by (simpl in Hi; lia).
  destruct l; [simpl in Hi; lia | reflexivity].
Qed.

Lemma last_firstn {A} (l : list A) (i : nat) (d : A) :
  (i < length l)%nat -> last (firstn (S i) l) d = nth i l d.
Proof.
  revert i. induction l as [|a l IH]; intros i Hi; [simpl in Hi; lia|].
  destruct i as [|i]; [reflexivity|].
  change (firstn (S (S i)) (a :: l)) with (a :: firstn (S i) l).
  simpl nth. rewrite <- IH by (simpl in Hi; lia).
  destruct l; [simpl in Hi; lia | reflexivity].
Qed.

(** Whatever the fitter returns leads from the first to the last point of
    the segment, each piece starting where the previous one ends. *)
Theorem fitted_pieces_form_a_chain (fuel : nat) :
  forall (segment : list point) (threshold_complex threshold_dev : R) (d : point),
    match split_and_fit minimize fuel segment threshold_complex threshold_dev with
    | Done pieces => chain (hd d segment) pieces (last segment d)
    | _ => True
    end.
Proof.
  induction fuel as [|fuel IH]; intros segment tc td d; [exact I|].
  destruct segment as [|p0 rest]; [exact I|].
  rewrite split_and_fit_step.
  set (segment := p0 :: rest) in *.
  assert (Hlast : last segment p0 = last segment d)
    by (apply last_indep; discriminate).
  destruct (Rle_dec (measure_complexity p0 segment) tc).
  { split; [reflexivity | exact Hlast]. }
  destruct (find_max_deviation_point p0 segment) as [[idx|] dev] eqn:Hfind.
  2:{ destruct (Rle_dec dev td); [|exact I]. split; [reflexivity | exact Hlast]. }
  destruct (Rle_dec dev td).
  { split; [reflexivity | exact Hlast]. }
  destruct ((idx =? 0) || (idx =? length segment - 1))%nat eqn:Hguard.
  { split; [reflexivity | exact Hlast]. }
  assert (Hidx : (idx < length segment)%nat)
    by (apply (max_deviation_index_bound p0 segment idx dev); [discriminate | exact Hfind]).
  destruct (interior_of_guard _ _ Hguard Hidx) as [Hpos Hint].
  pose proof (IH (firstn (idx + 1) segment) tc td d) as H1.
  pose proof (IH (skipn idx segment) tc td d) as H2.
  destruct (split_and_fit minimize fuel (firstn (idx + 1) segment) tc td); try exact I.
  destruct (split_and_fit minimize fuel (skipn idx segment) tc td); try exact I.
  rewrite Nat.add_1_r in H1. rewrite last_firstn in H1 by exact Hidx.
  rewrite hd_skipn, last_skipn in H2 by exact Hidx.
  apply (chain_app _ _ _ _ _ H1 H2).
Qed.

(** The fitter returns at least one piece and, on a segment of [n >= 2]
    points, at most [n - 1]. *)
Theorem fitted_piece_count (fuel : nat) :
  forall (segment : list point) (threshold_complex threshold_dev : R),
    match split_and_fit minimize fuel segment threshold_complex threshold_dev with
    | Done pieces =>
        (1 <= length pieces <= Nat.max 1 (length segment - 1))%nat
    | _ => True
    end.
Proof.
  induction fuel as [|fuel IH]; intros segment tc td; [exact I|].
  destruct segment as [|p0 rest]; [exact I|].
  rewrite split_and_fit_step.
  set (segment := p0 :: rest) in *.
  destruct (Rle_dec (measure_complexity p0 segment) tc); [cbn [length]; lia|].
  destruct (find_max_deviation_point p0 segment) as [[idx|] dev] eqn:Hfind.
  2:{ destruct (Rle_dec dev td); [cbn [length]; lia | exact I]. }
  destruct (Rle_dec dev td); [cbn [length]; lia|].
  destruct ((idx =? 0) || (idx =? length segment - 1))%nat eqn:Hguard; [cbn [length]; lia|].
  assert (Hidx : (idx < length segment)%nat)
    by (apply (max_deviation_index_bound p0 segment idx dev); [discriminate | exact Hfind]).
  destruct (interior_of_guard _ _ Hguard Hidx) as [Hpos Hint].
  destruct (split_halves_shorter segment idx Hpos Hint) as [Hfst Hsnd].
  pose proof (IH (firstn (idx + 1) segment) tc td) as H1.
  pose proof (IH (skipn idx segment) tc td) as H2.
  destruct (split_and_fit minimize fuel (firstn (idx + 1) segment) tc td); try exact I.
  destruct (split_and_fit minimize fuel (skipn idx segment) tc td); try exact I.
  rewrite length_app.
  rewrite length_firstn in H1. rewrite length_skipn in H2. lia.
Qed.

Lemma argmax_from_zeros (l : list R) (i best_i : nat) :
  Forall (fun x => x = 0) l -> argmax_from l i best_i 0 = best_i.
Proof.
  intros H. revert i. induction H as [|x l Hx _ IH]; intros i; [reflexivity|].
  simpl. subst x. destruct (Rlt_dec 0 0); [lra | apply IH].
Qed.

Lemma argmax_zeros (l : list R) :
  Forall (fun x => x = 0) l -> argmax l = 0%nat.
Proof.
  intros H. destruct H as [|x l Hx Hl]; [reflexivity|].
  unfold argmax. rewrite Hx. apply argmax_from_zeros. exact Hl.
Qed.

Lemma collinear_deviations (o d : point) (s0 : R) (ss : list R) :
  let f := fun s => padd o (pscale s d) in
  Forall (fun x => x = 0) (deviations (f s0) (map f (s0 :: ss))).
Proof.
  intros f. unfold deviations. rewrite last_map_cons.
  apply Forall_forall. intros x Hx.
  apply in_map_iff in Hx. destruct Hx as [pt [<- Hpt]].
  apply in_map_iff in Hpt. destruct Hpt as [s [<- _]].
  replace (dot _ _) with 0; [apply Rabs_R0|].
  unfold f, dot, psub, padd, pscale. simpl. ring.
Qed.

(** Points of one line, with coordinates of a canvas (at most [10^6] in
    absolute value), are never split under a deviation threshold of the
    default [0.5] or more: their deviations from the chord are rounding
    residue far below the threshold, and the fitter returns exactly one
    piece for them. *)
Theorem collinear_points_are_one_piece (fuel : nat) (p0 : point) (rest : list point)
  (threshold_complex threshold_dev : R) :
  collinear (p0 :: rest) ->
  on_canvas 1000000 (p0 :: rest) ->
  1 / 2 <= threshold_dev ->
  exists pieces,
    split_and_fit minimize (S fuel) (p0 :: rest) threshold_complex threshold_dev
    = Done pieces
    /\ length pieces = 1%nat.
Proof.
  intros (o & d & ss & Hseg) _ Htd.
  destruct ss as [|s0 ss]; [discriminate|].
  assert (Hp0 : p0 = padd o (pscale s0 d)) by (simpl in Hseg; congruence).
  rewrite split_and_fit_step.
  destruct (Rle_dec _ threshold_complex); [eexists; split; reflexivity|].
  unfold find_max_deviation_point.
  destruct (Rlt_dec _ tol).
  - destruct (Rle_dec 0 threshold_dev); [eexists; split; reflexivity | lra].
  - fold (deviations p0 (p0 :: rest)).
    pose proof (collinear_deviations o d s0 ss) as Hz. cbv zeta in Hz.
    rewrite <- Hseg, <- Hp0 in Hz.
    rewrite (argmax_zeros _ Hz).
    pose proof (deviation_of_first p0 rest) as H0.
    destruct (Rle_dec _ threshold_dev) as [|Hn]; [eexists; split; reflexivity|].
    exfalso. apply Hn. rewrite H0. lra.
Qed.

End FitterPieces.

Lemma back_and_forth_collinear : FitterShape.collinear FitterShape.back_and_forth.
Proof.
  exists (0, 0)%R, (1, 0)%R, [0; 2; 1]%R.
  unfold FitterShape.back_and_forth, Fitter.padd, Fitter.pscale. simpl.
  repeat (apply f_equal2; [apply f_equal2; lra|]). reflexivity.
Qed.

Lemma back_and_forth_on_canvas :
  FitterShape.on_canvas 1000000 FitterShape.back_and_forth.
Proof.
  unfold FitterShape.on_canvas, FitterShape.back_and_forth.
  repeat (apply Forall_cons; [split; apply Rabs_le; simpl; lra|]).
  apply Forall_nil.
Qed.

Lemma collinear_points_are_one_piece_witness :
  exists pieces,
    Fitter.split_and_fit Fitter.keep_init 3 FitterShape.back_and_forth
      (101 / 100)%R (1 / 2)%R
    = Fitter.Done pieces
    /\ length pieces = 1%nat.
Proof.
  apply (collinear_points_are_one_piece Fitter.keep_init 2 (0, 0)%R
           [(2, 0); (1, 0)]%R (101 / 100)%R (1 / 2)%R back_and_forth_collinear
           back_and_forth_on_canvas).
  lra.
Defined.

(** ** The expected length and the stop target of [train_batch] *)
Section StopFacts.
Import Num Codec Evaluator.
Local Open Scope Q_scope.

Lemma Qprod_unit (l : list Q) :
  Forall (fun p => 0 <= p <= 1) l -> 0 <= Qprod l <= 1.
Proof.
  induction 1 as [|x l [Hx0 Hx1] _ [IH0 IH1]].
  - unfold Qprod. cbn [fold_right]. split; Lqa.lra.
  - change (Qprod (x :: l)) with (x * Qprod l). split; Lqa.nra.
Qed.

Lemma survival_unit (stops : list Q) (k : nat) :
  Forall (fun p => 0 <= p <= 1) stops -> 0 <= survival stops k <= 1.
Proof.
  intros H. unfold survival. apply Qprod_unit. apply Forall_map, Forall_firstn.
  eapply Forall_impl; [|exact H]. intros p [H0 H1]. cbv beta. split; Lqa.lra.
Qed.

Lemma Qofnat_S (n : nat) : Qofnat (S n) == Qofnat n + 1.
Proof.
  unfold Qofnat. rewrite Nat2Z.inj_succ. unfold Z.succ.
  rewrite inject_Z_plus. reflexivity.
Qed.

Lemma Qsum_unit (l : list Q) :
  Forall (fun p => 0 <= p <= 1) l -> 0 <= Qsum l <= Qofnat (length l).
Proof.
  induction 1 as [|x l [Hx0 Hx1] _ [IH0 IH1]].
  - split; apply Qle_refl.
  - rewrite Qsum_cons. cbn [length]. rewrite Qofnat_S. split; Lqa.lra.
Qed.

Lemma expected_length_spec_bounds (stops : list Q) :
  stops <> [] -> Forall (fun p => 0 <= p <= 1) stops ->
  1 <= expected_length_spec stops <= Qofnat (length stops).
Proof.
  intros Hne H. unfold expected_length_spec.
  destruct stops as [|p stops]; [contradiction|].
  cbn [length].
  change (seq 0 (S (length stops))) with (0%nat :: seq 1 (length stops)).
  rewrite map_cons, Qsum_cons.
  change (survival (p :: stops) 0) with 1.
  assert (Hr : 0 <= Qsum (map (survival (p :: stops)) (seq 1 (length stops)))
               <= Qofnat (length (map (survival (p :: stops)) (seq 1 (length stops))))).
  { apply Qsum_unit, Forall_map, Forall_forall. intros k _.
    apply survival_unit. exact H. }
  rewrite length_map, length_seq in Hr. rewrite Qofnat_S. Lqa.lra.
Qed.

Lemma Forall_Qeq_transfer (P : Q -> Prop) (E E' : list Q) :
  (forall x y, x == y -> P y -> P x) ->
  Forall2 Qeq E E' -> Forall P E' -> Forall P E.
Proof.
  intros HP H. induction H as [|x y E E' Hxy _ IH]; intros HE'; [constructor|].
  inversion HE' as [|? ? Hy Hrest]; subst.
  constructor; [exact (HP x y Hxy Hy) | exact (IH Hrest)].
Qed.

(** With stop probabilities in [[0, 1]] and at least one output step, the
    expected length of every sample lies between [1] and the number [S]
    of steps: the model cannot express an empty shape. *)
Theorem expected_length_bounds (S0 : nat) (pred_stops : list (list Q)) :
  (1 <= S0)%nat ->
  Forall (fun st => length st = S0) pred_stops ->
  Forall (Forall (fun p => 0 <= p <= 1)) pred_stops ->
  Forall (fun e => 1 <= e <= Qofnat S0)
         (expected_length (length pred_stops) S0 pred_stops).
Proof.
  intros HS Hlen Hunit.
  apply (Forall_Qeq_transfer _ _ (map expected_length_spec pred_stops)).
  - intros x y Hxy Hy. rewrite Hxy. exact Hy.
  - apply expected_length_all. exact Hlen.
  - apply Forall_map, Forall_forall. intros st Hin.
    rewrite Forall_forall in Hlen, Hunit.
    rewrite <- (Hlen st Hin). apply expected_length_spec_bounds.
    + intros ->. specialize (Hlen [] Hin). simpl in Hlen. lia.
    + exact (Hunit st Hin).
Qed.

Lemma removelast_map {A B} (f : A -> B) (l : list A) :
  removelast (map f l) = map f (removelast l).
Proof.
  induction l as [|a [|b l] IH]; [reflexivity | reflexivity |].
  change (f a :: removelast (map f (b :: l)) = f a :: map f (removelast (b :: l))).
  f_equal. exact IH.
Qed.

(** The last stop probability of a sample does not enter its expected
    length: two batches whose samples agree on all but the last stop
    probability have the same expected lengths. *)
Theorem expected_length_ignores_last_stop (B S0 : nat)
  (pred_stops pred_stops' : list (list Q)) :
  Forall2 (fun st st' => removelast st = removelast st') pred_stops pred_stops' ->
  expected_length B S0 pred_stops = expected_length B S0 pred_stops'.
Proof.
  intros H. unfold expected_length.
  destruct S0 as [|[|S0]]; [reflexivity | reflexivity |].
  rewrite !map_map.
  induction H as [|st st' l l' Hst _ IH]; [reflexivity|].
  cbn [map]. rewrite !removelast_map, Hst. f_equal. exact IH.
Qed.

Lemma target_stop_entry (S0 : nat) (lengths : list nat) (b s : nat) :
  (b < length lengths)%nat -> (s < S0)%nat ->
  nth s (nth b (target_stop S0 lengths) []) 0
  = if (nth b lengths 0%nat - 1 <=? s)%nat then 1 else 0.
Proof.
  intros Hb Hs. unfold target_stop.
  rewrite (nth_map_in _ lengths b [] 0%nat Hb).
  rewrite nth_map_seq by exact Hs. reflexivity.
Qed.

Lemma target_stop_row_length (S0 : nat) (lengths : list nat) (b : nat) :
  (b < length lengths)%nat -> length (nth b (target_stop S0 lengths) []) = S0.
Proof.
  intros Hb. unfold target_stop.
  rewrite (nth_map_in _ lengths b [] 0%nat Hb).
  rewrite length_map, length_seq. reflexivity.
Qed.

(** The stop target is [1] from the last real segment on, where the
    weight is [5]; it meets the validity mask at exactly one step, the
    last real segment; and a sample of length [0] has the target of a
    sample of length [1]. *)
Theorem stop_target_meets_mask (S0 : nat) (lengths : list nat) (b s : nat) :
  (b < length lengths)%nat -> (s < S0)%nat ->
  let len := nth b lengths 0%nat in
  let target := target_stop S0 lengths in
  let t := nth s (nth b target []) 0 in
  let m := nth s (nth b (valid_mask S0 lengths) []) 0 in
  let wt := nth s (nth b (weight_for_stop_loss target) []) 0 in
  t = (if (len - 1 <=? s)%nat then 1 else 0)
  /\ wt = (if (len - 1 <=? s)%nat then 5 else 1)
  /\ ((t = 1 /\ m = 1) <-> ((1 <= len)%nat /\ s = (len - 1)%nat))
  /\ target_stop S0 (map (Nat.max 1) lengths) = target.
Proof.
  intros Hb Hs len target t m wt.
  assert (Ht : t = if (len - 1 <=? s)%nat then 1 else 0)
    by (apply target_stop_entry; assumption).
  assert (Hm : m = if (s <? len)%nat then 1 else 0)
    by (apply valid_mask_entry; assumption).
  split; [exact Ht|]. split; [|split].
  - unfold wt, weight_for_stop_loss.
    rewrite (nth_map_in _ target b [] [])
      by (unfold target, target_stop; rewrite length_map; exact Hb).
    rewrite (nth_map_in _ _ s 0 0)
      by (unfold target; rewrite target_stop_row_length; assumption).
    fold t. rewrite Ht. destruct (len - 1 <=? s)%nat; reflexivity.
  - rewrite Ht, Hm.
    destruct (Nat.leb_spec (len - 1) s), (Nat.ltb_spec s len);
      split; intros [H1 H2]; try discriminate; try lia; split; (reflexivity || lia).
  - unfold target, target_stop. rewrite map_map. apply map_ext. intros a.
    replace (Nat.max 1 a - 1)%nat with (a - 1)%nat by lia. reflexivity.
Qed.

End StopFacts.

Lemma expected_length_bounds_witness :
  Forall (fun e => (1 <= e <= Num.Qofnat 3)%Q)
         (Evaluator.expected_length 1 3 [[1 # 4; 1 # 2; 1]]%Q).
Proof.
  apply (expected_length_bounds 3 [[1 # 4; 1 # 2; 1]]%Q).
  - lia.
  - repeat constructor.
  - constructor; [|constructor].
    repeat (constructor; [split; Lqa.lra|]). constructor.
Defined.

Lemma expected_length_ignores_last_stop_witness :
  Evaluator.expected_length 1 3 [[1 # 4; 1 # 2; 1]]%Q
  = Evaluator.expected_length 1 3 [[1 # 4; 1 # 2; 0]]%Q.
Proof.
  apply (expected_length_ignores_last_stop 1 3).
  repeat constructor.
Defined.

Lemma stop_target_meets_mask_witness :
  let len := nth 0 [2%nat] 0%nat in
  let target := Evaluator.target_stop 3 [2%nat] in
  let t := nth 1 (nth 0 target []) 0%Q in
  let m := nth 1 (nth 0 (Evaluator.valid_mask 3 [2%nat]) []) 0%Q in
  let wt := nth 1 (nth 0 (Evaluator.weight_for_stop_loss target) []) 0%Q in
  t = (if (len - 1 <=? 1)%nat then 1 else 0)%Q
  /\ wt = (if (len - 1 <=? 1)%nat then 5 else 1)%Q
  /\ ((t = 1%Q /\ m = 1%Q) <-> ((1 <= len)%nat /\ 1%nat = (len - 1)%nat))
  /\ Evaluator.target_stop 3 (map (Nat.max 1) [2%nat]) = target.
Proof.
  apply (stop_target_meets_mask 3 [2%nat] 0 1); simpl; lia.
Defined.

(** ** The post-processing of [PolygonPredictor.forward] *)
Section ForwardFacts.
Import Num Codec Predictor.
Local Open Scope Q_scope.

Lemma mapM_inv {A B} (f : A -> Py.result B) (l : list A) (out : list B) :
  Py.mapM f l = Py.Ok out -> Forall2 (fun a b => f a = Py.Ok b) l out.
Proof.
  revert out. induction l as [|a l IH]; intros out H; simpl in H.
  - inversion H. constructor.
  - destruct (f a) as [b|e] eqn:Hfa; simpl in H; [|discriminate].
    destruct (Py.mapM f l) as [bs|e] eqn:Hl; simpl in H; [|discriminate].
    inversion H; subst. constructor; [exact Hfa | apply IH; reflexivity].
Qed.

Lemma Forall2_nth_error {A B} (R : A -> B -> Prop) (l : list A) (l' : list B)
  (i : nat) (a : A) :
  Forall2 R l l' -> nth_error l i = Some a ->
  exists b, nth_error l' i = Some b /\ R a b.
Proof.
  intros H. revert i. induction H as [|x y l l' Hxy _ IH]; intros [|i] Hi;
    simpl in *; try discriminate.
  - inversion Hi; subst. exists y. split; [reflexivity | exact Hxy].
  - apply IH. exact Hi.
Qed.

Lemma nth_error_combine {A B} (l : list A) (l' : list B) (i : nat) (a : A) (b : B) :
  nth_error l i = Some a -> nth_error l' i = Some b ->
  nth_error (combine l l') i = Some (a, b).
Proof.
  revert l' i. induction l as [|x l IH]; intros [|y l'] [|i]; simpl; intros Ha Hb;
    try discriminate.
  - congruence.
  - apply IH; assumption.
Qed.

Lemma nth_error_seq0 (n s : nat) : (s < n)%nat -> nth_error (seq 0 n) s = Some s.
Proof.
  intros H. rewrite (nth_error_nth' _ 0%nat) by (rewrite length_seq; exact H).
  rewrite seq_nth by exact H. reflexivity.
Qed.

Lemma existsb_false_nth {A} (P : A -> bool) (l : list A) (i : nat) (a : A) :
  existsb P l = false -> nth_error l i = Some a -> P a = false.
Proof.
  intros H Hi. apply nth_error_In in Hi.
  destruct (P a) eqn:E; [|reflexivity].
  assert (Ht : existsb P l = true) by (apply existsb_exists; exists a; auto).
  congruence.
Qed.

(** The guard [mask.any()] changes nothing: row [s] of sample [b] is
    updated exactly when its mask entry is set. *)
Lemma masked_rows_nth (upd : list ext -> list ext) (t : list (list (list ext)))
  (mask : list (list bool)) (b s : nat) (f : list (list ext)) (m : list bool)
  (r : list ext) (c : bool) :
  nth_error t b = Some f -> nth_error mask b = Some m ->
  nth_error f s = Some r -> nth_error m s = Some c ->
  exists f', nth_error (masked_rows upd t mask) b = Some f'
             /\ nth_error f' s = Some (if c then upd r else r).
Proof.
  intros Hf Hm Hr Hc. unfold masked_rows.
  destruct (existsb _ mask) eqn:Hany.
  - eexists. split.
    + apply map_nth_error. apply nth_error_combine; eassumption.
    + cbn [fst snd].
      rewrite (map_nth_error _ _ _ (nth_error_combine _ _ _ _ _ Hr Hc)). reflexivity.
  - exists f. split; [exact Hf|].
    assert (Hcf : c = false).
    { pose proof (existsb_false_nth _ _ _ _ Hany Hm) as H1.
      exact (existsb_false_nth _ _ _ _ H1 Hc). }
    subst c. exact Hr.
Qed.

Lemma masked_fill_points (f : pt -> Q) (pts : list pt) (fill : ext) :
  masked_fill (map f pts)
              (map negb (map (fun p : pt => negb (Qeq_bool (fst p) (-1))) pts)) fill
  = map (fun p => if unmasked p then Fin (f p) else fill) pts.
Proof.
  unfold masked_fill. induction pts as [|p pts IH]; [reflexivity|].
  cbn [map combine]. f_equal; [|exact IH].
  cbn [fst snd]. unfold unmasked. destruct (Qeq_bool (fst p) (-1)); reflexivity.
Qed.

Lemma fold_min_least (f : pt -> Q) (pts : list pt) :
  forall (seen : list Q) (acc : ext),
    least_of seen acc ->
    least_of (seen ++ map f (filter unmasked pts))
             (fold_left ext_min
                (map (fun p => if unmasked p then Fin (f p) else PInf) pts) acc).
Proof.
  induction pts as [|p pts IH]; intros seen acc H.
  - cbn [filter map fold_left]. rewrite app_nil_r. exact H.
  - cbn [map fold_left filter]. destruct (unmasked p) eqn:Hu.
    + cbn [map].
      replace (seen ++ f p :: map f (filter unmasked pts))
        with ((seen ++ [f p]) ++ map f (filter unmasked pts))
        by (rewrite <- app_assoc; reflexivity).
      apply IH.
      destruct acc as [q| | |]; cbn [least_of ext_min] in *; try contradiction.
      * destruct H as [Hin Hall]. destruct (Qle_bool q (f p)) eqn:E.
        -- split; [apply in_or_app; left; exact Hin|].
           apply Forall_app. split; [exact Hall|].
           constructor; [apply Qle_bool_iff; exact E | constructor].
        -- assert (Hlt : f p < q).
           { apply Qnot_le_lt. intros Hle. apply Qle_bool_iff in Hle. congruence. }
           split; [apply in_or_app; right; left; reflexivity|].
           apply Forall_app. split.
           ++ eapply Forall_impl; [|exact Hall]. intros x Hx. cbv beta in *. Lqa.lra.
           ++ constructor; [apply Qle_refl | constructor].
      * subst seen. split; [left; reflexivity|].
        constructor; [apply Qle_refl | constructor].
    + apply IH. destruct acc; cbn [least_of ext_min] in *; exact H.
Qed.

Lemma fold_max_greatest (f : pt -> Q) (pts : list pt) :
  forall (seen : list Q) (acc : ext),
    greatest_of seen acc ->
    greatest_of (seen ++ map f (filter unmasked pts))
                (fold_left ext_max
                   (map (fun p => if unmasked p then Fin (f p) else NInf) pts) acc).
Proof.
  induction pts as [|p pts IH]; intros seen acc H.
  - cbn [filter map fold_left]. rewrite app_nil_r. exact H.
  - cbn [map fold_left filter]. destruct (unmasked p) eqn:Hu.
    + cbn [map].
      replace (seen ++ f p :: map f (filter unmasked pts))
        with ((seen ++ [f p]) ++ map f (filter unmasked pts))
        by (rewrite <- app_assoc; reflexivity).
      apply IH.
      destruct acc as [q| | |]; cbn [greatest_of ext_max] in *; try contradiction.
      * destruct H as [Hin Hall]. destruct (Qle_bool q (f p)) eqn:E.
        -- assert (Hle : q <= f p) by (apply Qle_bool_iff; exact E).
           split; [apply in_or_app; right; left; reflexivity|].
           apply Forall_app. split.
           ++ eapply Forall_impl; [|exact Hall]. intros x Hx. cbv beta in *. Lqa.lra.
           ++ constructor; [apply Qle_refl | constructor].
        -- assert (Hlt : f p < q).
           { apply Qnot_le_lt. intros Hle. apply Qle_bool_iff in Hle. congruence. }
           split; [apply in_or_app; left; exact Hin|].
           apply Forall_app. split; [exact Hall|].
           constructor; [apply Qlt_le_weak; exact Hlt | constructor].
      * subst seen. split; [left; reflexivity|].
        constructor; [apply Qle_refl | constructor].
    + apply IH. destruct acc; cbn [greatest_of ext_max] in *; exact H.
Qed.

Lemma reduce_min_least (f : pt -> Q) (pts : list pt) :
  pts <> [] ->
  exists e, reduce ext_min (map (fun p => if unmasked p then Fin (f p) else PInf) pts)
            = Py.Ok e
            /\ least_of (map f (filter unmasked pts)) e.
Proof.
  intros Hne. destruct pts as [|p pts]; [contradiction|].
  cbn [map reduce]. eexists. split; [reflexivity|].
  cbn [filter]. destruct (unmasked p) eqn:Hu.
  - apply (fold_min_least f pts [f p]). cbn [least_of].
    split; [left; reflexivity | constructor; [apply Qle_refl | constructor]].
  - apply (fold_min_least f pts []). reflexivity.
Qed.

Lemma reduce_max_greatest (f : pt -> Q) (pts : list pt) :
  pts <> [] ->
  exists e, reduce ext_max (map (fun p => if unmasked p then Fin (f p) else NInf) pts)
            = Py.Ok e
            /\ greatest_of (map f (filter unmasked pts)) e.
Proof.
  intros Hne. destruct pts as [|p pts]; [contradiction|].
  cbn [map reduce]. eexists. split; [reflexivity|].
  cbn [filter]. destruct (unmasked p) eqn:Hu.
  - apply (fold_max_greatest f pts [f p]). cbn [greatest_of].
    split; [left; reflexivity | constructor; [apply Qle_refl | constructor]].
  - apply (fold_max_greatest f pts []). reflexivity.
Qed.

Lemma points_of_nonempty (parent : list row) : parent <> [] -> points_of parent <> [].
Proof. destruct parent; [contradiction | discriminate]. Qed.

Lemma reshape_ok {A} (t : list A) : t <> [] -> reshape_pairs t = Py.Ok tt.
Proof. destruct t; [contradiction | reflexivity]. Qed.

Lemma nth_error_nonempty {A} (l : list A) (i : nat) (a : A) :
  nth_error l i = Some a -> l <> [].
Proof. intros H ->. destruct i; discriminate. Qed.

(** The box of a parent with at least one row: the least and the greatest
    of the coordinates that are not masked, and the clamped ranges. *)
Lemma parent_box_spec (parent : list row) :
  parent <> [] ->
  let pts := filter unmasked (points_of parent) in
  exists xmin xmax ymin ymax,
    parent_box parent
    = Py.Ok ((xmin, ymin),
             (ext_clamp_min range_eps (ext_sub xmax xmin),
              ext_clamp_min range_eps (ext_sub ymax ymin)))
    /\ least_of (map fst pts) xmin /\ greatest_of (map fst pts) xmax
    /\ least_of (map snd pts) ymin /\ greatest_of (map snd pts) ymax.
Proof.
  intros Hne pts. unfold parent_box. rewrite (reshape_ok _ Hne). cbn [Py.bind].
  apply points_of_nonempty in Hne. cbv zeta. rewrite !masked_fill_points.
  destruct (reduce_min_least fst _ Hne) as [xmin [Hxmin Lx]].
  destruct (reduce_max_greatest fst _ Hne) as [xmax [Hxmax Gx]].
  destruct (reduce_min_least snd _ Hne) as [ymin [Hymin Ly]].
  destruct (reduce_max_greatest snd _ Hne) as [ymax [Hymax Gy]].
  rewrite Hxmin, Hxmax, Hymin, Hymax. cbn [Py.bind].
  exists xmin, xmax, ymin, ymax. repeat split; assumption.
Qed.

Lemma forward_returns (batch : list sample) :
  batch <> [] ->
  Forall (fun smp => parent_bezier smp <> [] /\ decoded smp <> []) batch ->
  exists final, forward_segments batch = Py.Ok final.
Proof.
  intros Hb H. destruct (mapM_ok scaled_coords batch) as [l' [Hl' _]].
  - intros smp Hin. rewrite Forall_forall in H. destruct (H smp Hin) as [Hp Hd].
    destruct (parent_box_spec _ Hp) as (xmin & xmax & ymin & ymax & Hbox & _).
    unfold scaled_coords. rewrite Hbox. cbn [Py.bind].
    rewrite (reshape_ok _ Hd). cbn [Py.bind]. eexists; reflexivity.
  - unfold forward_segments. rewrite (reshape_ok _ Hb). cbn [Py.bind].
    rewrite Hl'. cbn [Py.bind]. eexists; reflexivity.
Qed.

(** Row [s] of sample [b] of the result, read off the sample alone. *)
Lemma forward_segments_row (batch : list sample) (final : list (list (list ext)))
  (b s : nat) (smp : sample) (st : row * (Q * Q * Q)) :
  forward_segments batch = Py.Ok final ->
  nth_error batch b = Some smp -> nth_error (decoded smp) s = Some st ->
  exists box, parent_box (parent_bezier smp) = Py.Ok box
    /\ nth s (nth b final []) [] = final_row box (stop_index smp) s st.
Proof.
  intros Hfw Hb Hs. unfold forward_segments in Hfw.
  rewrite (reshape_ok _ (nth_error_nonempty _ _ _ Hb)) in Hfw. cbn [Py.bind] in Hfw.
  destruct (Py.mapM scaled_coords batch) as [scaled|e] eqn:Hm; [|discriminate].
  cbn [Py.bind] in Hfw. cbv zeta in Hfw. inversion Hfw as [Hfinal]. clear Hfw.
  destruct (Forall2_nth_error _ _ _ _ _ (mapM_inv _ _ _ Hm) Hb) as [sc [Hsc Hsmp]].
  unfold scaled_coords in Hsmp.
  destruct (parent_box (parent_bezier smp)) as [box|e] eqn:Hbox; [|discriminate].
  cbn [Py.bind] in Hsmp.
  rewrite (reshape_ok _ (nth_error_nonempty _ _ _ Hs)) in Hsmp. cbn [Py.bind] in Hsmp.
  inversion Hsmp as [Hsc_eq].
  exists box. split; [reflexivity|].
  assert (Hr0 : nth_error sc s = Some (scale_row (fst box) (snd box) (fst st))).
  { rewrite <- Hsc_eq.
    apply (map_nth_error (fun st => scale_row (fst box) (snd box) (fst st))). exact Hs. }
  assert (Hty : nth_error (map pred_types batch) b = Some (pred_types smp))
    by (apply map_nth_error; exact Hb).
  assert (Hty_s : nth_error (pred_types smp) s = Some (argmax3 (snd st)))
    by (unfold pred_types; apply (map_nth_error (fun st => argmax3 (snd st))); exact Hs).
  destruct (masked_rows_nth (fill_cols 4) _ _ b s _ _ _ _ Hsc
              (map_nth_error (map (Nat.eqb 0)) _ _ Hty) Hr0
              (map_nth_error (Nat.eqb 0) _ _ Hty_s)) as [f1 [Hf1 Hr1]].
  destruct (masked_rows_nth (fill_cols 2) _ _ b s _ _ _ _ Hf1
              (map_nth_error (map (Nat.eqb 1)) _ _ Hty) Hr1
              (map_nth_error (Nat.eqb 1) _ _ Hty_s)) as [f2 [Hf2 Hr2]].
  assert (Hlen : (s < length f2)%nat) by (apply nth_error_Some; congruence).
  pose proof (map_nth_error
                (fun fs : list (list ext) * nat =>
                   map (fun t => (snd fs <? t)%nat) (seq 0 (length (fst fs))))
                _ _ (nth_error_combine _ _ _ _ _ Hf2 (map_nth_error stop_index _ _ Hb)))
    as Hmask.
  cbn [fst snd] in Hmask.
  pose proof (map_nth_error (fun t => (stop_index smp <? t)%nat) _ _
                (nth_error_seq0 _ _ Hlen)) as Hmask_s.
  destruct (masked_rows_nth (map (fun _ => Fin (-1))) _ _ b s _ _ _ _ Hf2
              Hmask Hr2 Hmask_s) as [f3 [Hf3 Hr3]].
  unfold mask_after_stop, mask_type.
  rewrite (nth_error_nth _ _ _ Hf3), (nth_error_nth _ _ _ Hr3).
  reflexivity.
Qed.

Lemma Qltb_lt (x y : Q) : Qltb x y = true <-> x < y.
Proof.
  unfold Qltb. rewrite Bool.negb_true_iff. split.
  - intros H. apply Qnot_le_lt. intros Hle. apply Qle_bool_iff in Hle. congruence.
  - intros H. destruct (Qle_bool y x) eqn:E; [|reflexivity].
    apply Qle_bool_iff in E. Lqa.lra.
Qed.

Lemma Qltb_ge (x y : Q) : Qltb x y = false <-> y <= x.
Proof. unfold Qltb. rewrite Bool.negb_false_iff. apply Qle_bool_iff. Qed.

Lemma not_sentinel (x : Q) : 0 <= x -> Qeq_bool x (-1) = false.
Proof.
  intros H. destruct (Qeq_bool x (-1)) eqn:E; [|reflexivity].
  apply Qeq_bool_iff in E. Lqa.lra.
Qed.

Lemma argmax3_cases (logits : Q * Q * Q) : (argmax3 logits < 3)%nat.
Proof.
  destruct logits as [[a b] c]. unfold argmax3.
  destruct (Qltb a b), (Qltb b c), (Qltb a c); lia.
Qed.

(** What the masking leaves of a row of six non-negative values: the
    sentinel pattern of its type up to the stop index, a padding row after
    it. *)
Lemma post_row_types (x1 x2 x3 x4 x5 x6 : Q) (ty stop s : nat) :
  0 <= x1 -> 0 <= x2 -> 0 <= x3 -> 0 <= x4 -> 0 <= x5 -> 0 <= x6 ->
  (ty < 3)%nat ->
  exists r,
    row_of (post_row [Fin x1; Fin x2; Fin x3; Fin x4; Fin x5; Fin x6] ty stop s) = Some r
    /\ (if (stop <? s)%nat then r = pad_row
        else gt_type r = ty /\ Renderer.inferred_type r = ty
             /\ Renderer.endpoint r = (x5, x6)).
Proof.
  intros H1 H2 H3 H4 H5 H6 Hty.
  pose proof (proj2 (Qltb_ge x1 0) H1) as L1. pose proof (proj2 (Qltb_ge x2 0) H2) as L2.
  pose proof (proj2 (Qltb_ge x3 0) H3) as L3. pose proof (proj2 (Qltb_ge x4 0) H4) as L4.
  pose proof (not_sentinel x1 H1) as N1. pose proof (not_sentinel x2 H2) as N2.
  pose proof (not_sentinel x3 H3) as N3. pose proof (not_sentinel x4 H4) as N4.
  unfold post_row.
  destruct ty as [|[|[|ty]]]; [| | |lia]; destruct (stop <? s)%nat;
    (eexists; split; [reflexivity|]); try reflexivity;
    unfold gt_type, all_neg, Renderer.inferred_type, Renderer.endpoint;
    cbn [c1x c1y c2x c2y ex ey filter];
    rewrite ?L1, ?L2, ?L3, ?L4, ?N1, ?N2, ?N3, ?N4;
    repeat split; reflexivity.
Qed.

Lemma least_of_nonempty (seen : list Q) (e : ext) :
  seen <> [] -> least_of seen e ->
  exists m, e = Fin m /\ In m seen /\ Forall (fun x => m <= x) seen.
Proof.
  intros Hne H. destruct e as [m| | |]; cbn [least_of] in H; try contradiction.
  exists m. split; [reflexivity | exact H].
Qed.

Lemma greatest_of_nonempty (seen : list Q) (e : ext) :
  seen <> [] -> greatest_of seen e ->
  exists m, e = Fin m /\ In m seen /\ Forall (fun x => x <= m) seen.
Proof.
  intros Hne H. destruct e as [m| | |]; cbn [greatest_of] in H; try contradiction.
  exists m. split; [reflexivity | exact H].
Qed.

Lemma unmasked_kept {A} (f : pt -> A) (pts : list pt) :
  Exists (fun p => unmasked p = true) pts -> map f (filter unmasked pts) <> [].
Proof.
  intros H. apply Exists_exists in H. destruct H as [p [Hin Hu]].
  assert (Hf : In (f p) (map f (filter unmasked pts)))
    by (apply in_map, filter_In; split; assumption).
  intros E. rewrite E in Hf. exact Hf.
Qed.

(** The box of a parent with a point that is not masked is finite. *)
Lemma parent_box_finite (parent : list row) :
  Exists (fun p => unmasked p = true) (points_of parent) ->
  let pts := filter unmasked (points_of parent) in
  exists xmin xmax ymin ymax : Q,
    parent_box parent
    = Py.Ok ((Fin xmin, Fin ymin),
             (Fin (clamp_range (xmax + - xmin)), Fin (clamp_range (ymax + - ymin))))
    /\ (In xmin (map fst pts) /\ Forall (fun x => xmin <= x) (map fst pts))
    /\ (In xmax (map fst pts) /\ Forall (fun x => x <= xmax) (map fst pts))
    /\ (In ymin (map snd pts) /\ Forall (fun y => ymin <= y) (map snd pts))
    /\ (In ymax (map snd pts) /\ Forall (fun y => y <= ymax) (map snd pts)).
Proof.
  intros HEx pts.
  assert (Hne : parent <> []).
  { intros ->. apply Exists_exists in HEx. destruct HEx as [p [[] _]]. }
  destruct (parent_box_spec parent Hne) as (exmin & exmax & eymin & eymax & Hbox & Lx & Gx & Ly & Gy).
  destruct (least_of_nonempty _ _ (unmasked_kept fst _ HEx) Lx) as [xmin [-> Hxmin]].
  destruct (greatest_of_nonempty _ _ (unmasked_kept fst _ HEx) Gx) as [xmax [-> Hxmax]].
  destruct (least_of_nonempty _ _ (unmasked_kept snd _ HEx) Ly) as [ymin [-> Hymin]].
  destruct (greatest_of_nonempty _ _ (unmasked_kept snd _ HEx) Gy) as [ymax [-> Hymax]].
  exists xmin, xmax, ymin, ymax.
  split; [exact Hbox|]. repeat split; tauto.
Qed.

Lemma clamp_range_cases (x : Q) :
  range_eps <= clamp_range x
  /\ (clamp_range x = x \/ clamp_range x = range_eps).
Proof.
  unfold clamp_range. destruct (Qltb x range_eps) eqn:E.
  - split; [apply Qle_refl | right; reflexivity].
  - apply Qltb_ge in E. split; [exact E | left; reflexivity].
Qed.

Lemma range_eps_pos : 0 < range_eps.
Proof. reflexivity. Qed.

Lemma nonneg_in (xs : list Q) (pts : list pt) (f : pt -> Q) (m : Q) :
  Forall (fun p => 0 <= f p) pts -> In m (map f pts) -> 0 <= m.
Proof.
  intros H Hin. apply in_map_iff in Hin. destruct Hin as [p [<- Hp]].
  rewrite Forall_forall in H. exact (H p Hp).
Qed.

Lemma scaled_nonneg (a c m : Q) :
  0 <= a <= 1 -> range_eps <= c -> 0 <= m -> 0 <= a * c + m.
Proof.
  intros [Ha _] Hc Hm. pose proof range_eps_pos as Heps.
  assert (H : 0 <= a * c) by (apply Qmult_le_0_compat; Lqa.lra).
  Lqa.lra.
Qed.

Lemma scaled_upper (a c m : Q) :
  0 <= a <= 1 -> range_eps <= c -> a * c + m <= c + m.
Proof.
  intros [Ha0 Ha1] Hc. pose proof range_eps_pos as Heps.
  assert (H : 0 <= (1 - a) * c) by (apply Qmult_le_0_compat; Lqa.lra).
  Lqa.lra.
Qed.

Lemma scaled_in_box (a lo hi : Q) :
  0 <= a <= 1 ->
  lo <= a * clamp_range (hi + - lo) + lo
  /\ (a * clamp_range (hi + - lo) + lo <= hi
      \/ a * clamp_range (hi + - lo) + lo <= lo + range_eps).
Proof.
  intros Ha. destruct (clamp_range_cases (hi + - lo)) as [Hr Hc]. split.
  - pose proof (scaled_nonneg a _ 0 Ha Hr (Qle_refl 0)). Lqa.lra.
  - pose proof (scaled_upper a _ lo Ha Hr) as Hu.
    destruct Hc as [Hc|Hc]; rewrite Hc in Hu |- *; [left | right]; Lqa.lra.
Qed.

(** The type [forward] predicts for a step is written into the row as the
    sentinel pattern that [train_batch] and [visualize_predictions] decode:
    up to the stop index the row decodes to the predicted type, after it
    the row is a padding row. *)
Theorem forward_encodes_types (batch : list sample) (b s : nat) (smp : sample)
  (st : row * (Q * Q * Q)) :
  Forall (fun smp => parent_bezier smp <> [] /\ decoded smp <> []) batch ->
  nth_error batch b = Some smp ->
  nth_error (decoded smp) s = Some st ->
  Exists (fun p => unmasked p = true) (points_of (parent_bezier smp)) ->
  Forall (fun p => unmasked p = true -> 0 <= fst p /\ 0 <= snd p)
         (points_of (parent_bezier smp)) ->
  row_in 0 1 (fst st) ->
  exists final r,
    forward_segments batch = Py.Ok final
    /\ row_of (nth s (nth b final []) []) = Some r
    /\ (if (stop_index smp <? s)%nat then r = pad_row
        else gt_type r = argmax3 (snd st)
             /\ Renderer.inferred_type r = argmax3 (snd st)).
Proof.
  intros Hne Hb Hs HEx Hpos Hin.
  destruct (forward_returns batch (nth_error_nonempty _ _ _ Hb) Hne) as [final Hfinal].
  destruct (forward_segments_row _ _ _ _ _ _ Hfinal Hb Hs) as [box [Hbox Hrow]].
  destruct (parent_box_finite _ HEx)
    as (xmin & xmax & ymin & ymax & Hbox' & [Hxmin _] & _ & [Hymin _] & _).
  rewrite Hbox' in Hbox. inversion Hbox as [Hb_eq]. clear Hbox.
  assert (Hposf : Forall (fun p : pt => 0 <= fst p /\ 0 <= snd p)
                         (filter unmasked (points_of (parent_bezier smp)))).
  { apply Forall_forall. intros p Hp. apply filter_In in Hp. destruct Hp as [Hp Hu].
    rewrite Forall_forall in Hpos. exact (Hpos p Hp Hu). }
  assert (Hx0 : 0 <= xmin).
  { apply (nonneg_in [] _ fst _ (Forall_impl _ (fun p H => proj1 H) Hposf) Hxmin). }
  assert (Hy0 : 0 <= ymin).
  { apply (nonneg_in [] _ snd _ (Forall_impl _ (fun p H => proj2 H) Hposf) Hymin). }
  destruct (clamp_range_cases (xmax + - xmin)) as [Hrx _].
  destruct (clamp_range_cases (ymax + - ymin)) as [Hry _].
  pose proof range_eps_pos as Heps.
  destruct st as [[a1 a2 a3 a4 a5 a6] logits].
  unfold row_in, cols in Hin. cbn [fst c1x c1y c2x c2y ex ey] in Hin.
  repeat match goal with
         | H : Forall _ (_ :: _) |- _ => inversion H; subst; clear H
         end.
  destruct (post_row_types
              (a1 * clamp_range (xmax + - xmin) + xmin)
              (a2 * clamp_range (ymax + - ymin) + ymin)
              (a3 * clamp_range (xmax + - xmin) + xmin)
              (a4 * clamp_range (ymax + - ymin) + ymin)
              (a5 * clamp_range (xmax + - xmin) + xmin)
              (a6 * clamp_range (ymax + - ymin) + ymin)
              (argmax3 logits) (stop_index smp) s) as [r [Hr Hcase]];
    try (apply argmax3_cases); try (apply scaled_nonneg; assumption).
  exists final, r. split; [exact Hfinal|]. split.
  - rewrite Hrow. exact Hr.
  - cbn [snd]. destruct (stop_index smp <? s)%nat; [exact Hcase | tauto].
Qed.

(** The scaling of [forward] puts every predicted point into the parent's
    box: the box is spanned by the parent's points that are not masked,
    and normalised coordinates in [[0, 1]] land between its least and its
    greatest coordinate (at most [1e-6] past the least on a degenerate
    axis). *)
Theorem forward_scales_into_parent_box (smp : sample) (s : nat)
  (st : row * (Q * Q * Q)) :
  Exists (fun p => unmasked p = true) (points_of (parent_bezier smp)) ->
  nth_error (decoded smp) s = Some st ->
  row_in 0 1 (fst st) ->
  let pts := filter unmasked (points_of (parent_bezier smp)) in
  exists (xmin xmax ymin ymax : Q) (scaled : list (list ext)) (r : row),
    (In xmin (map fst pts) /\ In xmax (map fst pts)
     /\ In ymin (map snd pts) /\ In ymax (map snd pts))
    /\ Forall (fun p => xmin <= fst p <= xmax /\ ymin <= snd p <= ymax) pts
    /\ scaled_coords smp = Py.Ok scaled
    /\ row_of (nth s scaled []) = Some r
    /\ Forall (fun p => (xmin <= fst p /\ (fst p <= xmax \/ fst p <= xmin + range_eps))
                        /\ (ymin <= snd p /\ (snd p <= ymax \/ snd p <= ymin + range_eps)))
              [Renderer.ctrl1 r; Renderer.ctrl2 r; Renderer.endpoint r].
Proof.
  intros HEx Hs Hin pts.
  destruct (parent_box_finite _ HEx)
    as (xmin & xmax & ymin & ymax & Hbox & [Hxmin Lx] & [Hxmax Gx] & [Hymin Ly] & [Hymax Gy]).
  fold pts in Hxmin, Lx, Hxmax, Gx, Hymin, Ly, Hymax, Gy.
  destruct st as [[a1 a2 a3 a4 a5 a6] logits].
  exists xmin, xmax, ymin, ymax.
  eexists. eexists.
  split; [tauto|]. split.
  { apply Forall_forall. intros p Hp.
    rewrite Forall_forall in Lx, Gx, Ly, Gy.
    pose proof (Lx _ (in_map fst _ _ Hp)). pose proof (Gx _ (in_map fst _ _ Hp)).
    pose proof (Ly _ (in_map snd _ _ Hp)). pose proof (Gy _ (in_map snd _ _ Hp)).
    tauto. }
  split.
  { unfold scaled_coords. rewrite Hbox. cbn [Py.bind].
    rewrite (reshape_ok _ (nth_error_nonempty _ _ _ Hs)). reflexivity. }
  split.
  { rewrite (nth_error_nth _ _ _ (map_nth_error _ _ _ Hs)). reflexivity. }
  unfold row_in, cols in Hin. cbn [fst c1x c1y c2x c2y ex ey] in Hin.
  repeat match goal with
         | H : Forall _ (_ :: _) |- _ => inversion H; subst; clear H
         end.
  unfold Renderer.ctrl1, Renderer.ctrl2, Renderer.endpoint.
  cbn [c1x c1y c2x c2y ex ey].
  repeat (constructor; [cbn [fst snd]; split; apply scaled_in_box; assumption|]).
  constructor.
Qed.

Lemma all_masked_filter (pts : list pt) :
  Forall (fun p => unmasked p = false) pts -> filter unmasked pts = [].
Proof.
  induction 1 as [|p pts Hp _ IH]; [reflexivity|].
  cbn [filter]. rewrite Hp. exact IH.
Qed.

(** A parent all of whose rows are padding has no box: its least
    coordinates are [+inf], and every end point [forward] returns up to the
    stop index is infinite. *)
Theorem forward_masked_parent_is_infinite (batch : list sample) (b s : nat)
  (smp : sample) (st : row * (Q * Q * Q)) :
  Forall (fun smp => parent_bezier smp <> [] /\ decoded smp <> []) batch ->
  nth_error batch b = Some smp ->
  nth_error (decoded smp) s = Some st ->
  Forall (fun p => unmasked p = false) (points_of (parent_bezier smp)) ->
  (s <= stop_index smp)%nat ->
  exists final,
    forward_segments batch = Py.Ok final
    /\ nth 4 (nth s (nth b final []) []) NaN = PInf
    /\ nth 5 (nth s (nth b final []) []) NaN = PInf
    /\ row_of (nth s (nth b final []) []) = None.
Proof.
  intros Hne Hb Hs Hall Hstop.
  destruct (forward_returns batch (nth_error_nonempty _ _ _ Hb) Hne) as [final Hfinal].
  destruct (forward_segments_row _ _ _ _ _ _ Hfinal Hb Hs) as [box [Hbox Hrow]].
  assert (Hp : parent_bezier smp <> []).
  { rewrite Forall_forall in Hne. apply (Hne smp). eapply nth_error_In; exact Hb. }
  destruct (parent_box_spec _ Hp) as (xmin & xmax & ymin & ymax & Hbox' & Lx & Gx & Ly & Gy).
  rewrite (all_masked_filter _ Hall) in Lx, Gx, Ly, Gy.
  destruct xmin; cbn [least_of map] in Lx; try contradiction; [destruct Lx as [[] _]|].
  destruct ymin; cbn [least_of map] in Ly; try contradiction; [destruct Ly as [[] _]|].
  destruct xmax; cbn [greatest_of map] in Gx; try contradiction; [destruct Gx as [[] _]|].
  destruct ymax; cbn [greatest_of map] in Gy; try contradiction; [destruct Gy as [[] _]|].
  rewrite Hbox' in Hbox. inversion Hbox as [Hb_eq]. clear Hbox. subst box.
  exists final. split; [exact Hfinal|]. rewrite Hrow.
  unfold final_row, post_row.
  replace (stop_index smp <? s)%nat with false
    by (symmetry; apply Nat.ltb_ge; exact Hstop).
  pose proof (argmax3_cases (snd st)) as Hty.
  destruct (argmax3 (snd st)) as [|[|[|ty]]]; [| | |lia];
    repeat split; reflexivity.
Qed.

End ForwardFacts.

Lemma forward_encodes_types_witness :
  exists final r,
    Predictor.forward_segments [Predictor.demo_sample] = Py.Ok final
    /\ Predictor.row_of (nth 0 (nth 0 final []) []) = Some r
    /\ (if (Predictor.stop_index Predictor.demo_sample <? 0)%nat then r = Codec.pad_row
        else Codec.gt_type r
             = Predictor.argmax3
                 (snd (Codec.mkRow (1 # 2) (1 # 2) (1 # 2) (1 # 2) 1 1, (0, 1, 0)%Q))
             /\ Renderer.inferred_type r
                = Predictor.argmax3
                    (snd (Codec.mkRow (1 # 2) (1 # 2) (1 # 2) (1 # 2) 1 1, (0, 1, 0)%Q))).
Proof.
  apply (forward_encodes_types [Predictor.demo_sample] 0 0 Predictor.demo_sample).
  - repeat constructor; discriminate.
  - reflexivity.
  - reflexivity.
  - right. right. left. reflexivity.
  - repeat constructor; cbn [fst snd]; try discriminate; intros H; discriminate H.
  - repeat constructor; cbn [fst snd]; discriminate.
Defined.

Lemma forward_scales_into_parent_box_witness :
  let pts := filter Predictor.unmasked
               (Predictor.points_of (Predictor.parent_bezier Predictor.demo_sample)) in
  exists (xmin xmax ymin ymax : Q) (scaled : list (list Predictor.ext)) (r : Codec.row),
    (In xmin (map fst pts) /\ In xmax (map fst pts)
     /\ In ymin (map snd pts) /\ In ymax (map snd pts))
    /\ Forall (fun p => (xmin <= fst p <= xmax /\ ymin <= snd p <= ymax)%Q) pts
    /\ Predictor.scaled_coords Predictor.demo_sample = Py.Ok scaled
    /\ Predictor.row_of (nth 0 scaled []) = Some r
    /\ Forall (fun p => ((xmin <= fst p
                          /\ (fst p <= xmax \/ fst p <= xmin + Predictor.range_eps))
                         /\ (ymin <= snd p
                             /\ (snd p <= ymax \/ snd p <= ymin + Predictor.range_eps)))%Q)
              [Renderer.ctrl1 r; Renderer.ctrl2 r; Renderer.endpoint r].
Proof.
  apply (forward_scales_into_parent_box Predictor.demo_sample 0
           (Codec.mkRow (1 # 2) (1 # 2) (1 # 2) (1 # 2) 1 1, (0, 1, 0)%Q)).
  - right. right. left. reflexivity.
  - reflexivity.
  - repeat constructor; cbn [fst snd]; discriminate.
Defined.

Lemma forward_masked_parent_is_infinite_witness :
  exists final,
    Predictor.forward_segments [Predictor.blind_sample] = Py.Ok final
    /\ nth 4 (nth 0 (nth 0 final []) []) Predictor.NaN = Predictor.PInf
    /\ nth 5 (nth 0 (nth 0 final []) []) Predictor.NaN = Predictor.PInf
    /\ Predictor.row_of (nth 0 (nth 0 final []) []) = None.
Proof.
  apply (forward_masked_parent_is_infinite [Predictor.blind_sample] 0 0
           Predictor.blind_sample
           (Codec.mkRow (1 # 2) (1 # 2) (1 # 2) (1 # 2) 1 1, (0, 0, 1)%Q)).
  - repeat constructor; discriminate.
  - reflexivity.
  - reflexivity.
  - repeat constructor.
  - apply Nat.le_refl.
Defined.

(** ** What the dataset stores and the collator stacks *)
Section DatasetFacts.
Import Num Codec Dataset.
Local Open Scope Q_scope.

Lemma canvas_span_pos (canvas : nat) : (2 <= canvas)%nat -> 0 < Qofnat canvas - 1.
Proof.
  intros H. pose proof (Qofnat_le 2 canvas H) as Hle.
  change (Qofnat 2) with 2 in Hle. Lqa.lra.
Qed.

Lemma normalise_value_nonneg (canvas : nat) (x : Q) :
  (2 <= canvas)%nat -> 0 <= x ->
  normalise_value canvas x = x / (Qofnat canvas - 1)
  /\ 0 <= x / (Qofnat canvas - 1).
Proof.
  intros Hc Hx. unfold normalise_value.
  rewrite (proj2 (Qle_bool_iff 0 x) Hx). split; [reflexivity|].
  apply Qle_shift_div_l; [apply canvas_span_pos; exact Hc | Lqa.lra].
Qed.

Lemma normalise_value_neg (canvas : nat) (x : Q) :
  x < 0 -> normalise_value canvas x = x.
Proof.
  intros Hx. unfold normalise_value.
  destruct (Qle_bool 0 x) eqn:E; [|reflexivity].
  apply Qle_bool_iff in E. Lqa.lra.
Qed.

Lemma normalise_keeps_sign (canvas : nat) (x : Q) :
  (2 <= canvas)%nat -> Qltb (normalise_value canvas x) 0 = Qltb x 0.
Proof.
  intros Hc. destruct (Qlt_le_dec x 0) as [Hneg|Hpos].
  - rewrite normalise_value_neg by exact Hneg. reflexivity.
  - destruct (normalise_value_nonneg canvas x Hc Hpos) as [-> Hn].
    rewrite (proj2 (Qltb_ge _ 0) Hn), (proj2 (Qltb_ge _ 0) Hpos). reflexivity.
Qed.

Lemma normalise_keeps_sentinel (canvas : nat) (x : Q) :
  (2 <= canvas)%nat -> Qeq_bool (normalise_value canvas x) (-1) = Qeq_bool x (-1).
Proof.
  intros Hc. destruct (Qlt_le_dec x 0) as [Hneg|Hpos].
  - rewrite normalise_value_neg by exact Hneg. reflexivity.
  - destruct (normalise_value_nonneg canvas x Hc Hpos) as [-> Hn].
    rewrite (not_sentinel _ Hn), (not_sentinel _ Hpos). reflexivity.
Qed.

Lemma normalise_value_range (canvas : nat) (x : Q) :
  (2 <= canvas)%nat ->
  x == -1 \/ 0 <= x <= Qofnat canvas - 1 ->
  normalise_value canvas x == -1 \/ 0 <= normalise_value canvas x <= 1.
Proof.
  intros Hc [Hx|[Hx0 Hx1]].
  - left. rewrite normalise_value_neg by Lqa.lra. exact Hx.
  - right. destruct (normalise_value_nonneg canvas x Hc Hx0) as [-> Hn].
    split; [exact Hn|].
    apply Qle_shift_div_r; [apply canvas_span_pos; exact Hc | Lqa.lra].
Qed.

Lemma normalise_row_gt_type (canvas : nat) (r : row) :
  (2 <= canvas)%nat -> gt_type (normalise_row canvas r) = gt_type r.
Proof.
  intros Hc. destruct r as [a1 a2 a3 a4 a5 a6].
  unfold gt_type, all_neg, normalise_row. cbn [c1x c1y c2x c2y ex ey].
  rewrite !(normalise_keeps_sign canvas _ Hc). reflexivity.
Qed.

(** Dividing the non-negative entries by [canvas - 1] leaves the sentinel
    encoding alone: a row keeps the type that [train_batch] and
    [visualize_predictions] decode, padding stays padding, and pixel
    coordinates land in [[0, 1]]. *)
Theorem normalisation_keeps_encoding (canvas : nat) (r : row) :
  (2 <= canvas)%nat ->
  gt_type (normalise_row canvas r) = gt_type r
  /\ Renderer.inferred_type (normalise_row canvas r) = Renderer.inferred_type r
  /\ is_padding_segment (normalise_row canvas r) = is_padding_segment r
  /\ normalise_row canvas pad_row = pad_row
  /\ (Forall (fun x => x == -1 \/ 0 <= x <= Qofnat canvas - 1) (cols r) ->
      Forall (fun x => x == -1 \/ 0 <= x <= 1) (cols (normalise_row canvas r))).
Proof.
  intros Hc. destruct r as [a1 a2 a3 a4 a5 a6].
  split; [|split; [|split; [|split]]].
  - apply normalise_row_gt_type. exact Hc.
  - unfold Renderer.inferred_type, normalise_row. cbn [c1x c1y c2x c2y ex ey filter].
    rewrite !(normalise_keeps_sentinel canvas _ Hc).
    destruct (Qeq_bool a1 (-1)), (Qeq_bool a2 (-1)), (Qeq_bool a3 (-1)),
      (Qeq_bool a4 (-1)); reflexivity.
  - unfold is_padding_segment, cols, normalise_row. cbn [c1x c1y c2x c2y ex ey forallb].
    rewrite !(normalise_keeps_sentinel canvas _ Hc). reflexivity.
  - reflexivity.
  - unfold cols, normalise_row. cbn [c1x c1y c2x c2y ex ey]. intros H.
    repeat match goal with
           | H : Forall _ (_ :: _) |- _ => inversion H; subst; clear H
           end.
    repeat (constructor; [apply normalise_value_range; assumption|]). constructor.
Qed.

Lemma pad_to_layout (T : nat) (segs : list row) :
  match pad_to T segs with
  | Py.Ok rows =>
      (length segs <= T)%nat /\ length rows = T
      /\ firstn (length segs) rows = segs
      /\ skipn (length segs) rows = repeat pad_row (T - length segs)
  | Py.Raise e => e = Py.RuntimeError /\ (T < length segs)%nat
  end.
Proof.
  unfold pad_to. destruct (Nat.leb_spec (length segs) T) as [Hle|Hgt].
  - split; [exact Hle|]. split; [|split].
    + rewrite length_app, repeat_length. lia.
    + rewrite firstn_app, Nat.sub_diag, firstn_all. cbn [firstn]. apply app_nil_r.
    + rewrite skipn_app, Nat.sub_diag, skipn_all. reflexivity.
  - split; [reflexivity | exact Hgt].
Qed.

(** What [AugmentedDataset] stores for a shape: [30] rows, the normalised
    segments first, each with the type of the raw segment, then padding
    rows, and the number of segments; a shape of more than [30] segments
    makes the construction raise. *)
Theorem stored_curves_layout (canvas : nat) (c_segs_raw : list row) :
  (2 <= canvas)%nat ->
  match stored_curves canvas c_segs_raw with
  | Py.Ok (gt, lengths) =>
      (length c_segs_raw <= 30)%nat
      /\ lengths = length c_segs_raw
      /\ length gt = 30%nat
      /\ firstn lengths gt = map (normalise_row canvas) c_segs_raw
      /\ skipn lengths gt = repeat pad_row (30 - lengths)
      /\ map gt_type (firstn lengths gt) = map gt_type c_segs_raw
  | Py.Raise e => e = Py.RuntimeError /\ (30 < length c_segs_raw)%nat
  end.
Proof.
  intros Hc. unfold stored_curves. cbv zeta.
  pose proof (pad_to_layout 30 (map (normalise_row canvas) c_segs_raw)) as H.
  destruct (pad_to 30 (map (normalise_row canvas) c_segs_raw)) as [rows|e];
    cbn [Py.bind]; rewrite length_map in *.
  - destruct H as (Hle & Hlen & Hfst & Hskip).
    repeat split; try assumption.
    rewrite Hfst, map_map. apply map_ext. intros r.
    apply (normalise_row_gt_type canvas r Hc).
  - exact H.
Qed.

Lemma max_len_same (T : nat) (seqs : list (list row)) :
  Forall (fun s => length s = T) seqs -> (max_len seqs <= T)%nat.
Proof.
  unfold max_len. induction 1 as [|s seqs Hs _ IH]; cbn [map fold_right]; lia.
Qed.

(** [collate_fn] adds no padding to samples of the dataset: they all have
    [30] rows, so the stacked ground truth is the list of the stored
    curves and its padding value [0.0] never shows. *)
Theorem collate_adds_no_padding (canvas : nat) (raws : list (list row))
  (samples : list (list row * nat)) :
  Py.mapM (stored_curves canvas) raws = Py.Ok samples ->
  collate_gt (map fst samples) = map fst samples
  /\ fst (collate_parent (map fst samples)) = map fst samples
  /\ Forall (fun s => length s = 30%nat) (map fst samples)
  /\ map snd samples = map (@length row) raws.
Proof.
  intros H. apply mapM_inv in H.
  assert (Hlen : Forall (fun s => length s = 30%nat) (map fst samples)
                 /\ map snd samples = map (@length row) raws).
  { induction H as [|raw smp raws samples Hsmp _ IH]; [split; constructor|].
    destruct IH as [IH1 IH2]. cbn [map].
    unfold stored_curves in Hsmp. cbv zeta in Hsmp.
    pose proof (pad_to_layout 30 (map (normalise_row canvas) raw)) as Hp.
    destruct (pad_to 30 (map (normalise_row canvas) raw)) as [rows|e];
      cbn [Py.bind] in Hsmp; [|discriminate].
    inversion Hsmp; subst. cbn [fst snd]. rewrite length_map.
    split; [constructor; [tauto | exact IH1] | f_equal; exact IH2]. }
  destruct Hlen as [Hlen Hn].
  assert (Hpad : forall v, pad_sequence v (map fst samples) = map fst samples).
  { intros v. unfold pad_sequence.
    pose proof (max_len_same _ _ Hlen) as Hmax.
    transitivity (map (fun s : list row => s) (map fst samples)); [|apply map_id].
    apply map_ext_in. intros s Hs. rewrite Forall_forall in Hlen.
    replace (max_len (map fst samples) - length s)%nat with 0%nat
      by (rewrite (Hlen s Hs); lia).
    apply app_nil_r. }
  split; [apply Hpad|]. split; [apply Hpad|]. split; assumption.
Qed.

End DatasetFacts.

Lemma normalisation_keeps_encoding_witness :
  Codec.gt_type (Dataset.normalise_row 5 Dataset.raw_quadratic)
  = Codec.gt_type Dataset.raw_quadratic
  /\ Renderer.inferred_type (Dataset.normalise_row 5 Dataset.raw_quadratic)
     = Renderer.inferred_type Dataset.raw_quadratic
  /\ Codec.is_padding_segment (Dataset.normalise_row 5 Dataset.raw_quadratic)
     = Codec.is_padding_segment Dataset.raw_quadratic
  /\ Dataset.normalise_row 5 Codec.pad_row = Codec.pad_row
  /\ (Forall (fun x => (x == -1 \/ 0 <= x <= Num.Qofnat 5 - 1)%Q)
             (Codec.cols Dataset.raw_quadratic) ->
      Forall (fun x => (x == -1 \/ 0 <= x <= 1)%Q)
             (Codec.cols (Dataset.normalise_row 5 Dataset.raw_quadratic))).
Proof.
  apply (normalisation_keeps_encoding 5 Dataset.raw_quadratic). lia.
Defined.

Lemma stored_curves_layout_witness :
  match Dataset.stored_curves 5 [Dataset.raw_quadratic] with
  | Py.Ok (gt, lengths) =>
      (length [Dataset.raw_quadratic] <= 30)%nat
      /\ lengths = length [Dataset.raw_quadratic]
      /\ length gt = 30%nat
      /\ firstn lengths gt = map (Dataset.normalise_row 5) [Dataset.raw_quadratic]
      /\ skipn lengths gt = repeat Codec.pad_row (30 - lengths)
      /\ map Codec.gt_type (firstn lengths gt) = map Codec.gt_type [Dataset.raw_quadratic]
  | Py.Raise e => e = Py.RuntimeError /\ (30 < length [Dataset.raw_quadratic])%nat
  end.
Proof.
  apply (stored_curves_layout 5 [Dataset.raw_quadratic]). lia.
Defined.

Lemma collate_adds_no_padding_witness :
  let samples := [(Dataset.normalise_row 5 Dataset.raw_quadratic :: repeat Codec.pad_row 29,
                   1%nat)] in
  Dataset.collate_gt (map fst samples) = map fst samples
  /\ fst (Codec.collate_parent (map fst samples)) = map fst samples
  /\ Forall (fun s => length s = 30%nat) (map fst samples)
  /\ map snd samples = map (@length Codec.row) [[Dataset.raw_quadratic]].
Proof.
  apply (collate_adds_no_padding 5 [[Dataset.raw_quadratic]]). reflexivity.
Defined.

(** ** Paths and drawings join their segments *)
Section JoinedPaths.
Import Num Codec Renderer Visualizer.
Local Open Scope Q_scope.

Lemma linspace_first (n : nat) : (1 <= n)%nat -> nth 0 (linspace 0 1 n) 0 == 0.
Proof.
  intros H. rewrite linspace_value by lia. change (Qofnat 0) with 0. ring.
Qed.

Lemma linspace_last (n : nat) : (2 <= n)%nat -> nth (n - 1) (linspace 0 1 n) 0 == 1.
Proof.
  intros H. rewrite linspace_value by lia.
  pose proof (Qofnat_lt 0 (n - 1)) as Hpos. change (Qofnat 0) with 0 in Hpos.
  field. intros E. rewrite E in Hpos. apply (Qlt_irrefl 0). apply Hpos. lia.
Qed.

Lemma cubic_at_0 (p0 c1 c2 p1 : pt) (t : Q) :
  t == 0 ->
  pt_eq (add (add (add (scale ((1 - t) ^ 3) p0) (scale (3 * (1 - t) ^ 2 * t) c1))
                  (scale (3 * (1 - t) * t ^ 2) c2))
             (scale (t ^ 3) p1)) p0.
Proof.
  intros Ht. unfold pt_eq, add, scale. cbn [fst snd]. rewrite !Ht. split; ring.
Qed.

Lemma cubic_at_1 (p0 c1 c2 p1 : pt) (t : Q) :
  t == 1 ->
  pt_eq (add (add (add (scale ((1 - t) ^ 3) p0) (scale (3 * (1 - t) ^ 2 * t) c1))
                  (scale (3 * (1 - t) * t ^ 2) c2))
             (scale (t ^ 3) p1)) p1.
Proof.
  intros Ht. unfold pt_eq, add, scale. cbn [fst snd]. rewrite !Ht. split; ring.
Qed.

Lemma quadratic_at_0 (p0 c p1 : pt) (t : Q) :
  t == 0 ->
  pt_eq (add (add (scale ((1 - t) ^ 2) p0) (scale (2 * (1 - t) * t) c))
             (scale (t ^ 2) p1)) p0.
Proof.
  intros Ht. unfold pt_eq, add, scale. cbn [fst snd]. rewrite !Ht. split; ring.
Qed.

Lemma quadratic_at_1 (p0 c p1 : pt) (t : Q) :
  t == 1 ->
  pt_eq (add (add (scale ((1 - t) ^ 2) p0) (scale (2 * (1 - t) * t) c))
             (scale (t ^ 2) p1)) p1.
Proof.
  intros Ht. unfold pt_eq, add, scale. cbn [fst snd]. rewrite !Ht. split; ring.
Qed.

Lemma bezier_curve_ends (p0 c1 c2 p1 : pt) (n : nat) :
  (2 <= n)%nat ->
  length (bezier_curve p0 c1 c2 p1 n) = n
  /\ pt_eq (nth 0 (bezier_curve p0 c1 c2 p1 n) (0, 0)) p0
  /\ pt_eq (nth (n - 1) (bezier_curve p0 c1 c2 p1 n) (0, 0)) p1.
Proof.
  intros Hn. unfold bezier_curve. split; [|split].
  - rewrite length_map, linspace_length. reflexivity.
  - rewrite (nth_map_in _ _ 0 (0, 0) 0) by (rewrite linspace_length; lia).
    apply cubic_at_0, linspace_first. lia.
  - rewrite (nth_map_in _ _ (n - 1) (0, 0) 0) by (rewrite linspace_length; lia).
    apply cubic_at_1, linspace_last. exact Hn.
Qed.

Lemma nth_tl {A} (l : list A) (k : nat) (d : A) : nth k (tl l) d = nth (S k) l d.
Proof. destruct l; [destruct k; reflexivity | reflexivity]. Qed.

Lemma length_tl {A} (l : list A) : length (tl l) = (length l - 1)%nat.
Proof. destruct l; simpl; lia. Qed.

(** Past the first row every row contributes [n - 1] points, the last of
    which is its end point. *)
Lemma render_loop_tail (n : nat) (rows : list row) :
  (2 <= n)%nat ->
  forall (i : nat) (cur : pt), (1 <= i)%nat ->
    length (concat (render_loop i cur rows n)) = (length rows * (n - 1))%nat
    /\ forall j, (j < length rows)%nat ->
         pt_eq (nth (j * (n - 1) + (n - 2)) (concat (render_loop i cur rows n)) (0, 0))
               (endpoint (nth j rows pad_row)).
Proof.
  intros Hn. induction rows as [|r rows IH]; intros i cur Hi.
  - split; [reflexivity | intros j Hj; simpl in Hj; lia].
  - cbn [render_loop concat].
    replace (i =? 0)%nat with false by (symmetry; apply Nat.eqb_neq; lia).
    destruct (bezier_curve_ends cur (ctrl1 r) (ctrl2 r) (endpoint r) n Hn)
      as (Hlen & _ & Hlast).
    destruct (IH (S i) (endpoint r)) as [IHlen IHnth]; [lia|].
    assert (Htl : length (tl (bezier_curve cur (ctrl1 r) (ctrl2 r) (endpoint r) n))
                  = (n - 1)%nat) by (rewrite length_tl, Hlen; reflexivity).
    split.
    + rewrite length_app, Htl, IHlen. cbn [length]. lia.
    + intros [|j] Hj.
      * rewrite app_nth1 by (rewrite Htl; lia).
        rewrite nth_tl. replace (S (0 * (n - 1) + (n - 2))) with (n - 1)%nat by lia.
        exact Hlast.
      * rewrite app_nth2 by (rewrite Htl; nia). rewrite Htl.
        replace (S j * (n - 1) + (n - 2) - (n - 1))%nat
          with (j * (n - 1) + (n - 2))%nat by nia.
        cbn [nth]. apply IHnth. cbn [length] in Hj. lia.
Qed.

(** [render_bezier_sequence] joins its rows: with [n >= 2] samples per row
    a path of [K >= 1] rows has [n + (K - 1) (n - 1)] points, starts at the
    supplied point, and passes through the end point of row [j] at index
    [(j + 1) (n - 1)]; no point is repeated at a joint. *)
Theorem rendered_path_is_joined (rows : list row) (initial_p0 : pt) (n : nat) :
  rows <> [] -> (2 <= n)%nat ->
  let path := render_bezier_sequence (Some rows) initial_p0 n in
  length path = (n + (length rows - 1) * (n - 1))%nat
  /\ pt_eq (nth 0 path (0, 0)) initial_p0
  /\ forall j, (j < length rows)%nat ->
       pt_eq (nth ((j + 1) * (n - 1)) path (0, 0)) (endpoint (nth j rows pad_row)).
Proof.
  intros Hne Hn. destruct rows as [|r rows]; [contradiction|].
  unfold render_bezier_sequence.
  replace (6 * length (r :: rows) =? 0)%nat with false
    by (symmetry; apply Nat.eqb_neq; cbn [length]; lia).
  cbn [render_loop concat Nat.eqb].
  destruct (bezier_curve_ends initial_p0 (ctrl1 r) (ctrl2 r) (endpoint r) n Hn)
    as (Hlen & Hfirst & Hlast).
  destruct (render_loop_tail n rows Hn 1 (endpoint r) (Nat.le_refl 1)) as [Tlen Tnth].
  cbv zeta. split; [|split].
  - rewrite length_app, Hlen, Tlen. cbn [length]. lia.
  - rewrite app_nth1 by (rewrite Hlen; lia). exact Hfirst.
  - intros [|j] Hj.
    + rewrite app_nth1 by (rewrite Hlen; lia).
      replace ((0 + 1) * (n - 1))%nat with (n - 1)%nat by lia. exact Hlast.
    + rewrite app_nth2 by (rewrite Hlen; nia). rewrite Hlen.
      replace ((S j + 1) * (n - 1) - n)%nat with (j * (n - 1) + (n - 2))%nat by nia.
      cbn [nth]. apply Tnth. cbn [length] in Hj. lia.
Qed.

Lemma render_segment_ends (start_pt : pt) (seg : row) (seg_type steps : nat) :
  (2 <= steps)%nat ->
  let c := render_segment start_pt seg seg_type steps in
  pt_eq (nth 0 c (0, 0)) start_pt
  /\ pt_eq (nth (length c - 1) c (0, 0)) (endpoint seg).
Proof.
  intros Hs. unfold render_segment.
  destruct (seg_type =? 0)%nat; [split; apply pt_eq_refl|].
  destruct (seg_type =? 1)%nat; cbv zeta; rewrite length_map, linspace_length; split.
  - rewrite (nth_map_in _ _ 0 (0, 0) 0) by (rewrite linspace_length; lia).
    apply quadratic_at_0, linspace_first. lia.
  - rewrite (nth_map_in _ _ (steps - 1) (0, 0) 0) by (rewrite linspace_length; lia).
    apply quadratic_at_1, linspace_last. exact Hs.
  - rewrite (nth_map_in _ _ 0 (0, 0) 0) by (rewrite linspace_length; lia).
    apply cubic_at_0, linspace_first. lia.
  - rewrite (nth_map_in _ _ (steps - 1) (0, 0) 0) by (rewrite linspace_length; lia).
    apply cubic_at_1, linspace_last. exact Hs.
Qed.

Lemma last_as_nth {A} (l : list A) (d : A) : last l d = nth (length l - 1) l d.
Proof.
  induction l as [|a [|b l] IH]; [reflexivity | reflexivity |].
  change (last (a :: b :: l) d) with (last (b :: l) d). rewrite IH.
  cbn [length]. rewrite !Nat.sub_succ, !Nat.sub_0_r. reflexivity.
Qed.

Lemma get_last {A} (l : list A) (a : A) :
  l <> [] -> Py.get l (-1) = Py.Ok (last l a).
Proof.
  intros Hne. unfold Py.get, Py.index.
  change (0 <=? -1)%Z with false. cbv iota.
  destruct (Z.leb_spec 0 (Z.of_nat (length l) + -1)) as [_|Hneg].
  - replace (Z.to_nat (Z.of_nat (length l) + -1)) with (length l - 1)%nat by lia.
    rewrite (nth_error_nth' l a)
      by (destruct l; [contradiction | cbn [length]; lia]).
    rewrite <- last_as_nth. reflexivity.
  - destruct l; [contradiction | cbn [length] in Hneg; lia].
Qed.

Lemma starts_of_spec (e : pt) (ends : list pt) :
  starts_of (e :: ends) = Py.Ok (last (e :: ends) e :: removelast (e :: ends)).
Proof.
  unfold starts_of, roll1. rewrite (get_last (e :: ends) e) by discriminate.
  reflexivity.
Qed.

Lemma nth_removelast {A} (l : list A) (i : nat) (d : A) :
  (S i < length l)%nat -> nth i (removelast l) d = nth i l d.
Proof.
  revert i. induction l as [|a [|b l] IH]; intros i Hi; cbn [length] in Hi; try lia.
  destruct i as [|i]; [reflexivity|].
  change (nth i (removelast (b :: l)) d = nth i (b :: l) d).
  apply IH. cbn [length]. lia.
Qed.

(** The ground-truth drawing of [visualize_predictions] is a closed chain
    through the end points of all rows it is given, padding rows included:
    curve [0] starts at the end point of the last row, every other curve
    at the end point of the row before, each curve ends at its row's end
    point, and a padding row is drawn as the straight line from the
    previous end point to [(-1, -1)]. *)
Theorem drawn_ground_truth_is_closed_chain (gt_segs : list row) (steps : nat) :
  gt_segs <> [] -> (2 <= steps)%nat ->
  exists curves,
    gt_drawn gt_segs steps = Py.Ok curves
    /\ length curves = length gt_segs
    /\ (forall i, (i < length gt_segs)%nat ->
          let c := nth i curves [] in
          let prev := match i with
                      | O => (length gt_segs - 1)%nat
                      | S i' => i'
                      end in
          pt_eq (nth 0 c (0, 0)) (endpoint (nth prev gt_segs pad_row))
          /\ pt_eq (nth (length c - 1) c (0, 0)) (endpoint (nth i gt_segs pad_row))
          /\ (nth i gt_segs pad_row = pad_row ->
              c = [endpoint (nth prev gt_segs pad_row); (-1, -1)])).
Proof.
  intros Hne Hs. destruct gt_segs as [|r0 rows]; [contradiction|].
  set (segs := r0 :: rows) in *.
  unfold gt_drawn. cbv zeta.
  change (map endpoint segs) with (endpoint r0 :: map endpoint rows).
  rewrite starts_of_spec. cbn [Py.bind].
  change (endpoint r0 :: map endpoint rows) with (map endpoint segs).
  set (starts := last (map endpoint segs) (endpoint r0) :: removelast (map endpoint segs)).
  assert (Hlen_st : length starts = length segs).
  { unfold starts. cbn [length].
    rewrite removelast_firstn_len, length_firstn, length_map.
    unfold segs. cbn [length]. lia. }
  assert (Hst : forall i, (i < length segs)%nat ->
            nth i starts (0, 0)
            = endpoint (nth (match i with O => (length segs - 1)%nat | S i' => i' end)
                            segs pad_row)).
  { intros [|i] Hi; unfold starts; cbn [nth].
    - rewrite last_as_nth, length_map.
      rewrite (nth_map_in endpoint segs _ _ pad_row)
        by (unfold segs; cbn [length]; lia).
      reflexivity.
    - rewrite nth_removelast by (rewrite length_map; lia).
      apply (nth_map_in endpoint segs i _ pad_row). lia. }
  eexists. split; [reflexivity|]. split.
  { rewrite length_map, length_combine, Hlen_st. lia. }
  intros i Hi.
  rewrite (nth_map_in _ (combine segs starts) i [] (pad_row, (0, 0)))
    by (rewrite length_combine, Hlen_st; lia).
  rewrite combine_nth by (symmetry; exact Hlen_st). cbn [fst snd].
  set (prev := match i with O => (length segs - 1)%nat | S i' => i' end).
  repeat match goal with
         | |- context [@nth ?T i starts ?d] =>
             replace (@nth T i starts d) with (endpoint (nth prev segs pad_row))
               by (symmetry; exact (Hst i Hi))
         end.
  destruct (render_segment_ends (endpoint (nth prev segs pad_row)) (nth i segs pad_row)
              (inferred_type (nth i segs pad_row)) steps Hs) as [H0 H1].
  split; [exact H0|]. split; [exact H1|].
  intros Hpad. rewrite Hpad. reflexivity.
Qed.

End JoinedPaths.

Lemma rendered_path_is_joined_witness :
  let rows := [Renderer.unit_line_row; Codec.line_row_example] in
  let path := Renderer.render_bezier_sequence (Some rows) (0, 0)%Q 3 in
  length path = (3 + (length rows - 1) * (3 - 1))%nat
  /\ Renderer.pt_eq (nth 0 path (0, 0)%Q) (0, 0)%Q
  /\ forall j, (j < length rows)%nat ->
       Renderer.pt_eq (nth ((j + 1) * (3 - 1)) path (0, 0)%Q)
                      (Renderer.endpoint (nth j rows Codec.pad_row)).
Proof.
  apply (rendered_path_is_joined [Renderer.unit_line_row; Codec.line_row_example]
           (0, 0)%Q 3); [discriminate | lia].
Defined.

Lemma drawn_ground_truth_is_closed_chain_witness :
  exists curves,
    Visualizer.gt_drawn Visualizer.padded_shape 100 = Py.Ok curves
    /\ length curves = length Visualizer.padded_shape
    /\ (forall i, (i < length Visualizer.padded_shape)%nat ->
          let c := nth i curves [] in
          let prev := match i with
                      | O => (length Visualizer.padded_shape - 1)%nat
                      | S i' => i'
                      end in
          Renderer.pt_eq (nth 0 c (0, 0)%Q)
                         (Renderer.endpoint (nth prev Visualizer.padded_shape Codec.pad_row))
          /\ Renderer.pt_eq (nth (length c - 1) c (0, 0)%Q)
                            (Renderer.endpoint (nth i Visualizer.padded_shape Codec.pad_row))
          /\ (nth i Visualizer.padded_shape Codec.pad_row = Codec.pad_row ->
              c = [Renderer.endpoint (nth prev Visualizer.padded_shape Codec.pad_row);
                   (-1, -1)%Q])).
Proof.
  apply (drawn_ground_truth_is_closed_chain Visualizer.padded_shape 100);
    [discriminate | lia].
Defined.

(** ** Context points and the mask they were sampled from *)
Section ValidityFacts.
Import Num Sampler Validity.
Local Open Scope Q_scope.

Lemma mapM_all {A B} (f : A -> Py.result B) (l : list A) (b : B) :
  (forall a, In a l -> f a = Py.Ok b) -> Py.mapM f l = Py.Ok (repeat b (length l)).
Proof.
  induction l as [|a l IH]; intros H; [reflexivity|].
  cbn [Py.mapM]. rewrite (H a (or_introl eq_refl)). cbn [Py.bind].
  rewrite IH by (intros x Hx; apply H; right; exact Hx). reflexivity.
Qed.

Lemma get_nat {A} (l : list A) (i : nat) (a : A) :
  nth_error l i = Some a -> Py.get l (Z.of_nat i) = Py.Ok a.
Proof.
  intros H. unfold Py.get, Py.index.
  destruct (Z.leb_spec 0 (Z.of_nat i)) as [_|Hneg]; [|lia].
  rewrite Nat2Z.id, H. reflexivity.
Qed.

Lemma get_in {A} (l : list A) (i : Z) (a : A) : Py.get l i = Py.Ok a -> In a l.
Proof.
  unfold Py.get, Py.index. intros H.
  destruct (0 <=? i)%Z.
  - destruct (nth_error l (Z.to_nat i)) eqn:E; inversion H; subst.
    eapply nth_error_In; exact E.
  - destruct (0 <=? Z.of_nat (length l) + i)%Z; [|discriminate].
    destruct (nth_error l (Z.to_nat (Z.of_nat (length l) + i))) eqn:E;
      inversion H; subst.
    eapply nth_error_In; exact E.
Qed.

Lemma in_indexed_from {A} (l : list A) :
  forall (s i : nat) (a : A),
    In (i, a) (combine (seq s (length l)) l) ->
    (s <= i)%nat /\ nth_error l (i - s) = Some a.
Proof.
  induction l as [|x l IH]; intros s i a H; [destruct H|].
  cbn [length seq combine] in H. destruct H as [H|H].
  - inversion H; subst. rewrite Nat.sub_diag. split; [lia | reflexivity].
  - destruct (IH (S s) i a H) as [Hle Hn]. split; [lia|].
    replace (i - s)%nat with (S (i - S s)) by lia. exact Hn.
Qed.

Lemma in_indexed {A} (l : list A) (i : nat) (a : A) :
  In (i, a) (indexed l) -> nth_error l i = Some a.
Proof.
  intros H. destruct (in_indexed_from l 0 i a H) as [_ Hn].
  rewrite Nat.sub_0_r in Hn. exact Hn.
Qed.

(** A pixel [np.where(parent_bin > 0)] lists is a foreground pixel of the
    mask. *)
Lemma where_pos_in (m : mask) (y x : nat) :
  In (y, x) (where_pos m) ->
  exists row v, nth_error m y = Some row /\ nth_error row x = Some v /\ (0 < v)%Z.
Proof.
  unfold where_pos. intros H.
  apply in_concat in H. destruct H as [l [Hl Hin]].
  apply in_map_iff in Hl. destruct Hl as [[y' row] [<- Hyr]].
  apply in_map_iff in Hin. destruct Hin as [[x' v] [Heq Hxv]].
  cbn [fst snd] in *. inversion Heq; subst.
  apply filter_In in Hxv. destruct Hxv as [Hxv Hv]. cbn [snd] in Hv.
  exists row, v. split; [apply in_indexed; exact Hyr|].
  split; [apply in_indexed; exact Hxv | apply Z.ltb_lt; exact Hv].
Qed.

Lemma trunc_pixel (v : Q) (k : Z) :
  (0 <= k)%Z -> inject_Z k <= v -> v < inject_Z k + 1 -> trunc v = k.
Proof.
  intros Hk Hlo Hhi.
  assert (H0 : 0 <= v).
  { assert (H : inject_Z 0 <= inject_Z k) by (rewrite <- Zle_Qle; exact Hk).
    change (inject_Z 0) with 0 in H. Lqa.lra. }
  unfold trunc.
  assert (Hnum : (0 <= Qnum v)%Z) by (unfold Qle in H0; simpl in H0; lia).
  rewrite Z.quot_div_nonneg by lia.
  assert (Hfl : (Qnum v / Z.pos (Qden v))%Z = Qfloor v) by (destruct v; reflexivity).
  rewrite Hfl.
  assert (H1 : (k <= Qfloor v)%Z)
    by (rewrite <- (Qfloor_Z k); apply Qfloor_resp_le; exact Hlo).
  assert (H2 : (Qfloor v < k + 1)%Z).
  { rewrite Zlt_Qlt, inject_Z_plus.
    apply Qle_lt_trans with v; [apply Qfloor_le | exact Hhi]. }
  lia.
Qed.

Lemma eps9_bounds : 0 < eps9 /\ eps9 <= 1.
Proof. split; [reflexivity | discriminate]. Qed.

(** A pixel index, normalised by the sampler and scaled back by the check,
    is found again. *)
Lemma pixel_round_trip (k n : nat) (s : Q) :
  (k < n)%nat -> 0 < s ->
  clamp 0 (Z.of_nat n - 1)
        (trunc (Qofnat k / (inject_Z (Z.of_nat n) - 1 + eps9) * s / s
                * inject_Z (Z.of_nat n)))
  = Z.of_nat k.
Proof.
  intros Hk Hs. destruct eps9_bounds as [He0 He1].
  assert (HK0 : 0 <= Qofnat k) by apply Qofnat_nonneg.
  assert (HKN : Qofnat k + 1 <= inject_Z (Z.of_nat n)).
  { rewrite <- Qofnat_S. apply (Qofnat_le (S k) n). lia. }
  set (K := Qofnat k) in *. set (N := inject_Z (Z.of_nat n)) in *.
  assert (Hd : 0 < N - 1 + eps9) by Lqa.lra.
  assert (Hv : K / (N - 1 + eps9) * s / s * N == K * N / (N - 1 + eps9)).
  { field. split; intros E; [rewrite E in Hd | rewrite E in Hs];
      exact (Qlt_irrefl 0 ltac:(assumption)). }
  rewrite (trunc_pixel _ (Z.of_nat k)).
  - unfold clamp. lia.
  - lia.
  - fold (Qofnat k). fold K. rewrite Hv.
    apply Qle_shift_div_l; [exact Hd|].
    assert (H : 0 <= K * (1 - eps9)) by (apply Qmult_le_0_compat; Lqa.lra).
    Lqa.lra.
  - fold (Qofnat k). fold K. rewrite Hv.
    apply Qlt_shift_div_r; [exact Hd|].
    assert (H : 0 <= K * eps9) by (apply Qmult_le_0_compat; Lqa.lra).
    Lqa.lra.
Qed.

(** A point sampled from a foreground pixel is valid. *)
Lemma sampled_pixel_is_valid (bin : mask) (sx sy : Q) (y x : nat) :
  rectangular bin -> 0 < sx -> 0 < sy ->
  In (y, x) (where_pos bin) ->
  let p := normalise (width bin) (height bin) sx sy (Qofnat x, Qofnat y) in
  Py.bind (Py.get bin (clamp 0 (height bin - 1)
                             (trunc (snd p / sy * inject_Z (height bin)))))
    (fun row =>
     Py.bind (Py.get row (clamp 0 (width bin - 1)
                                (trunc (fst p / sx * inject_Z (width bin)))))
       (fun v => Py.Ok (0 <? v)%Z))
  = Py.Ok true.
Proof.
  intros Hrect Hsx Hsy Hin p.
  destruct (where_pos_in bin y x Hin) as (row & v & Hrow & Hv & Hpos).
  assert (Hy : (y < length bin)%nat) by (apply nth_error_Some; congruence).
  assert (Hx : (x < length (hd [] bin))%nat).
  { unfold rectangular in Hrect. rewrite Forall_forall in Hrect.
    rewrite <- (Hrect row (nth_error_In _ _ Hrow)).
    apply nth_error_Some. congruence. }
  unfold p, normalise, width, height. cbn [fst snd].
  rewrite (pixel_round_trip y (length bin) sy Hy Hsy).
  rewrite (get_nat _ _ _ Hrow). cbn [Py.bind].
  rewrite (pixel_round_trip x (length (hd [] bin)) sx Hx Hsx).
  rewrite (get_nat _ _ _ Hv). cbn [Py.bind].
  f_equal. apply Z.ltb_lt. exact Hpos.
Qed.

(** On a mask of at most [1024] by [1024] pixels and with scales between
    [1/1024] and [1024], where the float32 pixel coordinates keep the pixel
    they were made from, every point the CPU sampler draws from the
    foreground pixels of the mask is found inside that mask by
    [check_context_point_validity]. *)
Theorem interior_points_are_valid (parent_verts_scaled : option (list pt))
  (bin : mask) (needed : nat) (sx sy : Q) :
  rectangular bin -> where_pos bin <> [] ->
  small_mask bin -> moderate_scale sx -> moderate_scale sy ->
  exists pts,
    interior_sampling parent_verts_scaled bin needed (width bin) (height bin) sx sy
    = Py.Ok pts
    /\ length pts = needed
    /\ check_context_point_validity pts bin sx sy = Py.Ok (repeat true needed).
Proof.
  intros Hrect Hfg _ [Hsx _] [Hsy _].
  assert (H1024 : 0 < 1 # 1024) by reflexivity.
  apply (Qlt_le_trans _ _ _ H1024) in Hsx.
  apply (Qlt_le_trans _ _ _ H1024) in Hsy.
  destruct (interior_sampling_ok parent_verts_scaled bin needed (width bin) (height bin)
              sx sy) as [pts [Hpts Hlen]].
  exists pts. split; [exact Hpts|]. split; [exact Hlen|].
  unfold interior_sampling in Hpts.
  replace (0 <? length (where_pos bin))%nat with true in Hpts
    by (symmetry; apply Nat.ltb_lt; destruct (where_pos bin);
        [contradiction | cbn [length]; lia]).
  destruct (Py.mapM (Py.get (where_pos bin)) _) as [picked|e] eqn:Hpick;
    cbn [Py.bind] in Hpts; [|discriminate].
  inversion Hpts as [Hp]. clear Hpts.
  assert (Hall : Forall (fun yx => In yx (where_pos bin)) picked).
  { apply mapM_inv in Hpick. clear - Hpick.
    induction Hpick as [|i p idxs picked Hi _ IH]; constructor; [|exact IH].
    eapply get_in; exact Hi. }
  rewrite <- Hlen, <- Hp. unfold check_context_point_validity.
  apply mapM_all. intros q Hq.
  rewrite map_map in Hq. apply in_map_iff in Hq. destruct Hq as [[y x] [<- Hyx]].
  rewrite Forall_forall in Hall. cbn [fst snd].
  apply (sampled_pixel_is_valid bin sx sy y x Hrect Hsx Hsy (Hall _ Hyx)).
Qed.

(** On a mask with at least one pixel the check raises nothing, whatever
    the points: the clipped indices are always in range, and one flag is
    returned for each point. *)
Theorem validity_check_is_total (context_points : list pt) (bin : mask) (sx sy : Q) :
  rectangular bin -> bin <> [] -> hd [] bin <> [] ->
  exists flags,
    check_context_point_validity context_points bin sx sy = Py.Ok flags
    /\ length flags = length context_points.
Proof.
  intros Hrect Hne Hw. unfold check_context_point_validity.
  apply mapM_ok. intros p _.
  assert (HH : (0 < height bin)%Z)
    by (unfold height; destruct bin; [contradiction | cbn [length]; lia]).
  assert (HW : (0 < width bin)%Z)
    by (unfold width; destruct (hd [] bin); [contradiction | cbn [length]; lia]).
  destruct (get_in_range bin (clamp 0 (height bin - 1)
                                (trunc (snd p / sy * inject_Z (height bin)))))
    as [row Hrow]; [unfold clamp, height in *; lia|].
  rewrite Hrow. cbn [Py.bind].
  assert (Hlen : length row = length (hd [] bin)).
  { unfold rectangular in Hrect. rewrite Forall_forall in Hrect.
    apply Hrect. eapply get_in; exact Hrow. }
  destruct (get_in_range row (clamp 0 (width bin - 1)
                                (trunc (fst p / sx * inject_Z (width bin)))))
    as [v Hv]; [unfold clamp, width in *; rewrite Hlen; lia|].
  rewrite Hv. cbn [Py.bind]. eexists; reflexivity.
Qed.

End ValidityFacts.

Lemma interior_points_are_valid_witness :
  exists pts,
    Sampler.interior_sampling None Sampler.corner_off_mask 4
      (Sampler.width Sampler.corner_off_mask) (Sampler.height Sampler.corner_off_mask) 1 1
    = Py.Ok pts
    /\ length pts = 4%nat
    /\ Validity.check_context_point_validity pts Sampler.corner_off_mask 1 1
       = Py.Ok (repeat true 4).
Proof.
  apply (interior_points_are_valid None Sampler.corner_off_mask 4 1 1).
  - repeat constructor.
  - discriminate.
  - split; vm_compute; discriminate.
  - split; vm_compute; discriminate.
  - split; vm_compute; discriminate.
Defined.

Lemma validity_check_is_total_witness :
  exists flags,
    Validity.check_context_point_validity [(5, -3)%Q; (0, 0)%Q] Sampler.corner_off_mask 1 1
    = Py.Ok flags
    /\ length flags = length [(5, -3)%Q; (0, 0)%Q].
Proof.
  apply (validity_check_is_total [(5, -3)%Q; (0, 0)%Q] Sampler.corner_off_mask 1 1).
  - repeat constructor.
  - discriminate.
  - discriminate.
Defined.

(** ** The order and the number of the CPU sampler's points *)
Section SamplerShape.
Import Num Sampler.
Local Open Scope Q_scope.

Variable hypot : Q -> Q -> Q.

Lemma mapM_length {A B} (f : A -> Py.result B) (l : list A) (out : list B) :
  Py.mapM f l = Py.Ok out -> length out = length l.
Proof.
  intros H. apply mapM_inv in H. symmetry. exact (Forall2_length H).
Qed.

(** When it returns, the boundary step on a polygon yields exactly
    [N_boundary] points, the first vertices of the polygon first. *)
Lemma boundary_sampling_prefix (verts pts : list pt) (N_boundary : nat) :
  boundary_sampling hypot (Some verts) N_boundary = Py.Ok pts ->
  (2 <= length verts)%nat -> (0 < N_boundary)%nat ->
  length pts = N_boundary
  /\ exists extras,
       pts = firstn (Nat.min (length verts) N_boundary) verts ++ extras.
Proof.
  intros H Hv Hn. unfold boundary_sampling in H.
  replace ((0 <? N_boundary)%nat && (2 <=? length verts)%nat) with true in H
    by (symmetry; apply andb_true_iff; split;
        [apply Nat.ltb_lt; exact Hn | apply Nat.leb_le; exact Hv]).
  cbv zeta in H.
  destruct (Nat.ltb_spec 0 (N_boundary - Nat.min (length verts) N_boundary)) as [Hx|Hx].
  - destruct (Py.mapM _ _) as [extras|e] eqn:Hm; cbn [Py.bind] in H; [|discriminate].
    inversion H; subst. apply mapM_length in Hm.
    unfold linspace_open in Hm. rewrite length_map, length_seq in Hm.
    split; [|exists extras; reflexivity].
    rewrite length_app, length_firstn, Hm. lia.
  - inversion H; subst. split; [|exists []; symmetry; apply app_nil_r].
    rewrite length_firstn. lia.
Qed.

(** The points the sampler returns begin with the polygon's own vertices,
    in their order: as many of them as [N_boundary] and [N_total] allow. *)
Theorem sampler_keeps_vertices_first (verts : list pt) (parent_bin : option mask)
  (N_total N_boundary : nat) (W H : Z) (sx sy : Q) :
  (2 <= length verts)%nat -> (0 < N_boundary)%nat ->
  match generate_deterministic_context_points hypot (Some verts) parent_bin
          N_total N_boundary W H sx sy with
  | Py.Ok out =>
      let k := Nat.min (Nat.min (length verts) N_boundary) N_total in
      firstn k out = firstn k verts
  | Py.Raise _ => True
  end.
Proof.
  intros Hv Hn. unfold generate_deterministic_context_points.
  destruct (boundary_sampling hypot (Some verts) N_boundary) as [pts|e] eqn:Hb;
    cbn [Py.bind]; [|exact I].
  destruct (boundary_sampling_prefix verts pts N_boundary Hb Hv Hn)
    as [Hlen [extras Hpts]].
  set (take := Nat.min (length verts) N_boundary) in *.
  assert (Hpre : forall l, firstn (Nat.min take N_total) (pts ++ l)
                           = firstn (Nat.min take N_total) verts).
  { intros l. rewrite Hpts, <- app_assoc.
    rewrite firstn_app, length_firstn.
    replace (Nat.min take N_total - Nat.min take (length verts))%nat with 0%nat
      by (unfold take; lia).
    cbn [firstn]. rewrite app_nil_r, firstn_firstn.
    f_equal. unfold take. lia. }
  assert (Hcut : forall l : list pt,
            firstn (Nat.min take N_total)
                   (if (N_total <? length l)%nat then firstn N_total l else l)
            = firstn (Nat.min take N_total) l).
  { intros l. destruct (N_total <? length l)%nat; [|reflexivity].
    rewrite firstn_firstn. f_equal. lia. }
  destruct parent_bin as [bin|].
  - destruct (0 <? N_total - length pts)%nat.
    + destruct (interior_sampling (Some verts) bin (N_total - length pts) W H sx sy)
        as [more|e]; cbn [Py.bind]; [|exact I].
      cbv zeta. rewrite Hcut. apply Hpre.
    + cbn [Py.bind]. cbv zeta. rewrite Hcut.
      rewrite <- (app_nil_r pts). apply Hpre.
  - cbn [Py.bind]. cbv zeta. rewrite Hcut.
    rewrite <- (app_nil_r pts). apply Hpre.
Qed.

(** Without a mask nothing fills up to [N_total]: the sampler returns the
    boundary points alone, [min(N_boundary, N_total)] of them for a polygon
    of at least two vertices and none at all otherwise. *)
Theorem sampler_without_mask_stops_short (parent_verts_scaled : option (list pt))
  (N_total N_boundary : nat) (W H : Z) (sx sy : Q) :
  match generate_deterministic_context_points hypot parent_verts_scaled None
          N_total N_boundary W H sx sy with
  | Py.Ok out =>
      length out
      = match parent_verts_scaled with
        | Some verts =>
            if (0 <? N_boundary)%nat && (2 <=? length verts)%nat
            then Nat.min N_boundary N_total else 0%nat
        | None => 0%nat
        end
  | Py.Raise _ => True
  end.
Proof.
  unfold generate_deterministic_context_points.
  destruct (boundary_sampling hypot parent_verts_scaled N_boundary) as [pts|e] eqn:Hb;
    cbn [Py.bind]; [|exact I].
  assert (Hcut : length (if (N_total <? length pts)%nat then firstn N_total pts else pts)
                 = Nat.min (length pts) N_total).
  { destruct (Nat.ltb_spec N_total (length pts)); [rewrite length_firstn|]; lia. }
  rewrite Hcut.
  destruct parent_verts_scaled as [verts|].
  - destruct ((0 <? N_boundary)%nat && (2 <=? length verts)%nat) eqn:Hc.
    + apply andb_true_iff in Hc. destruct Hc as [Hn Hv].
      apply Nat.ltb_lt in Hn. apply Nat.leb_le in Hv.
      destruct (boundary_sampling_prefix verts pts N_boundary Hb Hv Hn) as [Hlen _].
      rewrite Hlen. reflexivity.
    + unfold boundary_sampling in Hb. rewrite Hc in Hb. inversion Hb. reflexivity.
  - inversion Hb. reflexivity.
Qed.

End SamplerShape.

Lemma sampler_keeps_vertices_first_witness :
  match Sampler.generate_deterministic_context_points Sampler.hypot_dyadic
          (Some [(0, 0); (1, 0); (1, 1)]%Q) (Some Sampler.corner_off_mask)
          5 2 2 2 1 1 with
  | Py.Ok out =>
      let k := Nat.min (Nat.min (length [(0, 0); (1, 0); (1, 1)]%Q) 2) 5 in
      firstn k out = firstn k [(0, 0); (1, 0); (1, 1)]%Q
  | Py.Raise _ => True
  end.
Proof.
  apply (sampler_keeps_vertices_first Sampler.hypot_dyadic [(0, 0); (1, 0); (1, 1)]%Q
           (Some Sampler.corner_off_mask) 5 2 2 2 1 1); simpl; lia.
Defined.

(** ** When the curve loss vanishes *)
Section CurveLossZero.
Import Num Codec Evaluator Agreement.
Local Open Scope Q_scope.

Lemma Qsum_nonneg (l : list Q) : Forall (fun x => 0 <= x) l -> 0 <= Qsum l.
Proof.
  induction 1 as [|x l Hx _ IH]; [apply Qle_refl|].
  rewrite Qsum_cons. Lqa.lra.
Qed.

Lemma Qsum_zero_iff (l : list Q) :
  Forall (fun x => 0 <= x) l -> (Qsum l == 0 <-> Forall (fun x => x == 0) l).
Proof.
  induction 1 as [|x l Hx Hl IH]; [split; [constructor | reflexivity]|].
  rewrite Qsum_cons. pose proof (Qsum_nonneg l Hl) as Hs. split.
  - intros H. constructor; [Lqa.lra | apply IH; Lqa.lra].
  - intros H. inversion H as [|? ? Hx0 Hl0]; subst.
    apply IH in Hl0. Lqa.lra.
Qed.

Lemma Qabs_zero_iff (x y : Q) : Qabs (x - y) == 0 <-> x == y.
Proof.
  split.
  - intros H. pose proof (Qabs_nonneg (x - y)) as Hn.
    pose proof (Qle_Qabs (x - y)) as H1.
    pose proof (Qle_Qabs (- (x - y))) as H2. rewrite Qabs_opp in H2. Lqa.lra.
  - intros H. rewrite H.
    assert (E : y - y == 0) by ring. rewrite E. reflexivity.
Qed.

Lemma row_abs_nonneg (pg : row * row) : 0 <= row_abs pg.
Proof.
  unfold row_abs. apply Qsum_nonneg, Forall_map, Forall_forall.
  intros xy _. apply Qabs_nonneg.
Qed.

Lemma combine_zero_iff (l l' : list Q) :
  length l = length l' ->
  (Forall (fun x => x == 0) (map (fun xy => Qabs (fst xy - snd xy)) (combine l l'))
   <-> Forall2 Qeq l l').
Proof.
  revert l'. induction l as [|x l IH]; intros [|y l'] Hlen; try discriminate.
  - split; constructor.
  - cbn [combine map fst snd]. injection Hlen as Hlen. split; intros H.
    + inversion H; subst. constructor; [apply Qabs_zero_iff; assumption|].
      apply IH; assumption.
    + inversion H; subst. constructor; [apply Qabs_zero_iff; assumption|].
      apply IH; assumption.
Qed.

Lemma row_abs_zero_iff (pg : row * row) : row_abs pg == 0 <-> rows_match pg.
Proof.
  unfold row_abs, rows_match. rewrite Qsum_zero_iff.
  - apply combine_zero_iff. reflexivity.
  - apply Forall_map, Forall_forall. intros xy _. apply Qabs_nonneg.
Qed.

Lemma abs_err_valid_nonneg (len : nat) (ps gs : list row) : 0 <= abs_err_valid len ps gs.
Proof.
  unfold abs_err_valid. apply Qsum_nonneg, Forall_map, Forall_forall.
  intros pg _. apply row_abs_nonneg.
Qed.

Lemma abs_err_valid_zero_iff (len : nat) (ps gs : list row) :
  abs_err_valid len ps gs == 0 <-> Forall rows_match (firstn len (combine ps gs)).
Proof.
  unfold abs_err_valid. rewrite Qsum_zero_iff.
  - rewrite Forall_map. split; apply Forall_impl; intros pg; apply row_abs_zero_iff.
  - apply Forall_map, Forall_forall. intros pg _. apply row_abs_nonneg.
Qed.

Lemma valid_abs_err_nonneg (c : nat) (pred gt : list (list row)) (lengths : list nat) :
  0 <= valid_abs_err c pred gt lengths.
Proof.
  unfold valid_abs_err. apply Qsum_nonneg, Forall_map, Forall_forall.
  intros pgl _. apply abs_err_valid_nonneg.
Qed.

Lemma valid_abs_err_zero_iff (c : nat) (pred gt : list (list row)) (lengths : list nat) :
  valid_abs_err c pred gt lengths == 0 <-> exact_on_valid c pred gt lengths.
Proof.
  unfold valid_abs_err, exact_on_valid. rewrite Qsum_zero_iff.
  - rewrite Forall_map. split; apply Forall_impl; intros pgl;
      apply abs_err_valid_zero_iff.
  - apply Forall_map, Forall_forall. intros pgl _. apply abs_err_valid_nonneg.
Qed.

Lemma clamp_min_tiny_pos (x : Q) : 0 < clamp_min tiny x.
Proof.
  unfold clamp_min. destruct (Qltb x tiny) eqn:E; [reflexivity|].
  apply Qltb_ge in E. assert (Ht : 0 < tiny) by reflexivity. Lqa.lra.
Qed.

End CurveLossZero.

(** ** The curve loss as the floats compute it *)
Section MaskedCurveLoss.
Import Num Codec Evaluator Predictor Agreement.
Local Open Scope Q_scope.

Lemma ext_sum_fin (l : list Q) : Masked.ext_sum (map Fin l) = Fin (Qsum l).
Proof.
  induction l as [|x l IH]; [reflexivity|].
  change (Masked.ext_sum (map Fin (x :: l)))
    with (ext_add (Fin x) (Masked.ext_sum (map Fin l))).
  rewrite IH. reflexivity.
Qed.

Lemma err_entries_fin (l l' : list Q) (m : Q) :
  Masked.err_row (map Fin l) (map Fin l') m
  = map Fin (map (fun pg => Qabs (fst pg - snd pg) * m) (combine l l')).
Proof.
  unfold Masked.err_row. revert l'.
  induction l as [|x l IH]; intros [|y l']; try reflexivity.
  cbn [map combine fst snd]. f_equal. apply IH.
Qed.

Lemma err_row_fin (p g : row) (m : Q) :
  Masked.err_row (Masked.of_row p) (Masked.of_row g) m = map Fin (Evaluator.err_row p g m).
Proof. apply err_entries_fin. Qed.

Lemma err_sample_fin (ps gs : list row) (ms : list Q) :
  Masked.err_sample (map Masked.of_row ps) (map Masked.of_row gs) ms
  = map (map Fin) (Evaluator.err_sample ps gs ms).
Proof.
  unfold Masked.err_sample, Evaluator.err_sample. revert gs ms.
  induction ps as [|p ps IH]; intros gs ms; [reflexivity|].
  destruct gs as [|g gs]; [reflexivity|]. destruct ms as [|m ms]; [reflexivity|].
  cbn [map combine fst snd]. rewrite err_row_fin. f_equal. apply IH.
Qed.

Lemma err_fin (pred gt : list (list row)) (mask : list (list Q)) :
  Masked.err (Masked.of_rows pred) (Masked.of_rows gt) mask
  = map (map (map Fin)) (Evaluator.err pred gt mask).
Proof.
  unfold Masked.err, Evaluator.err, Masked.of_rows. revert gt mask.
  induction pred as [|ps pred IH]; intros gt mask; [reflexivity|].
  destruct gt as [|gs gt]; [reflexivity|]. destruct mask as [|ms mask]; [reflexivity|].
  cbn [map combine fst snd]. rewrite err_sample_fin. f_equal. apply IH.
Qed.

Lemma sum2_fin (t : list (list Q)) :
  Masked.sum2 (map (map Fin) t) = Fin (Evaluator.sum2 t).
Proof.
  unfold Masked.sum2, Evaluator.sum2. rewrite map_map.
  rewrite (map_ext _ (fun l => Fin (Qsum l))) by (intros l; apply ext_sum_fin).
  rewrite <- (map_map Qsum Fin). apply ext_sum_fin.
Qed.

Lemma sum3_fin (t : list (list (list Q))) :
  Masked.sum3 (map (map (map Fin)) t) = Fin (Evaluator.sum3 t).
Proof.
  unfold Masked.sum3, Evaluator.sum3. rewrite map_map.
  rewrite (map_ext _ (fun l => Fin (Evaluator.sum2 l))) by (intros l; apply sum2_fin).
  rewrite <- (map_map Evaluator.sum2 Fin). apply ext_sum_fin.
Qed.

Lemma slice_of_rows (c : nat) (t : list (list row)) :
  slice_cols c (Masked.of_rows t) = Masked.of_rows (slice_cols c t).
Proof.
  unfold slice_cols, Masked.of_rows. rewrite !map_map.
  apply map_ext. intros l. apply firstn_map.
Qed.

Lemma ext_div_fin (a d : Q) : 0 < d -> Masked.ext_div (Fin a) (Fin d) = Fin (a / d).
Proof.
  intros Hd. unfold Masked.ext_div. destruct (Qeq_bool d 0) eqn:E; [|reflexivity].
  apply Qeq_bool_iff in E. rewrite E in Hd. now apply Qlt_irrefl in Hd.
Qed.

(** On finite tensors the loss is the finite value [Evaluator.loss_curve]. *)
Lemma loss_curve_fin (w : weights) (S T_gt_dim : nat)
  (pred gt : list (list row)) (mask : list (list Q)) :
  Masked.loss_curve w S T_gt_dim (Masked.of_rows pred) (Masked.of_rows gt) mask
  = Fin (Evaluator.loss_curve w S T_gt_dim pred gt mask).
Proof.
  unfold Masked.loss_curve, Evaluator.loss_curve.
  rewrite !slice_of_rows, err_fin, sum3_fin.
  rewrite ext_div_fin by apply clamp_min_tiny_pos. reflexivity.
Qed.

Lemma abs_diff_le (x y : Q) :
  -(1) <= x <= 1 -> -(1) <= y <= 1 -> Qabs (x - y) <= 2.
Proof. intros Hx Hy. apply Qabs_Qle_condition. split; Lqa.lra. Qed.

Lemma sum_abs_diff_le (l l' : list Q) :
  Forall (fun v => -(1) <= v <= 1) l -> Forall (fun v => -(1) <= v <= 1) l' ->
  Qsum (map (fun xy => Qabs (fst xy - snd xy)) (combine l l')) <= 2 * Qofnat (length l).
Proof.
  intros Hl. revert l'. induction Hl as [|x l Hx _ IH]; intros l' Hl'.
  - apply Qle_refl.
  - cbn [length]. rewrite Qofnat_S. pose proof (Qofnat_nonneg (length l)) as Hn.
    destruct Hl' as [|y l' Hy Hl'].
    + cbn [combine map]. change (Qsum []) with 0. Lqa.lra.
    + cbn [combine map fst snd]. rewrite Qsum_cons.
      pose proof (abs_diff_le x y Hx Hy). pose proof (IH l' Hl'). Lqa.lra.
Qed.

Lemma row_abs_le (p g : row) :
  row_in (-(1)) 1 p -> row_in (-(1)) 1 g -> row_abs (p, g) <= 12.
Proof.
  intros Hp Hg. pose proof (sum_abs_diff_le (cols p) (cols g) Hp Hg) as H.
  unfold row_abs. cbn [fst snd].
  change (Qofnat (length (cols p))) with 6 in H. Lqa.lra.
Qed.

Lemma abs_err_valid_le (n : nat) (ps gs : list row) :
  Forall (row_in (-(1)) 1) ps -> Forall (row_in (-(1)) 1) gs ->
  abs_err_valid n ps gs <= 12 * Qofnat n.
Proof.
  unfold abs_err_valid. intros Hps. revert n gs.
  induction Hps as [|p ps Hp _ IH]; intros n gs Hgs.
  - pose proof (Qofnat_nonneg n). destruct n; cbn [combine firstn map];
      change (Qsum []) with 0; Lqa.lra.
  - pose proof (Qofnat_nonneg n) as Hn. destruct Hgs as [|g gs Hg Hgs].
    + destruct n; cbn [combine firstn map]; change (Qsum []) with 0; Lqa.lra.
    + destruct n as [|n].
      * cbn [combine firstn map]. change (Qsum []) with 0. Lqa.lra.
      * cbn [combine firstn map]. rewrite Qsum_cons, Qofnat_S.
        pose proof (row_abs_le p g Hp Hg). pose proof (IH n gs Hgs). Lqa.lra.
Qed.

Lemma valid_rows_nonneg (c : nat) (lengths : list nat) : 0 <= valid_rows c lengths.
Proof.
  unfold valid_rows. apply Qsum_nonneg, Forall_map, Forall_forall.
  intros len _. apply Qofnat_nonneg.
Qed.

Lemma valid_abs_err_le (c : nat) (pred gt : list (list row)) (lengths : list nat) :
  Masked.within 1 pred -> Masked.within 1 gt ->
  valid_abs_err c pred gt lengths <= 2 * (valid_rows c lengths * 6).
Proof.
  unfold Masked.within, valid_abs_err. intros Hp. revert gt lengths.
  induction Hp as [|ps pred Hps _ IH]; intros gt lengths Hg.
  - pose proof (valid_rows_nonneg c lengths). change (Qsum (map _ _)) with 0. Lqa.lra.
  - destruct Hg as [|gs gt Hgs Hg].
    + pose proof (valid_rows_nonneg c lengths). change (Qsum (map _ _)) with 0. Lqa.lra.
    + destruct lengths as [|len lengths].
      * apply Qle_refl.
      * cbn [combine map fst snd]. rewrite Qsum_cons.
        unfold valid_rows. cbn [map]. rewrite Qsum_cons. fold (valid_rows c lengths).
        pose proof (abs_err_valid_le (Nat.min len c) ps gs Hps Hgs).
        pose proof (IH gt lengths Hg). Lqa.lra.
Qed.


(** The mean absolute error inside the curve loss: for coordinates in
    [[-1, 1]] (normalised coordinates and the padding value) it lies in
    [[0, 2]], it is [0] when every compared row of the prediction coincides
    with the ground truth, and the loss is the weighted mean. *)
Theorem curve_error_range (S T_gt_dim : nat)
  (pred gt : list (list row)) (lengths : list nat) :
  Masked.within 1 pred -> Masked.within 1 gt ->
  let c := Nat.min S T_gt_dim in
  let mask := valid_mask S lengths in
  exists m : Q,
    Masked.mean_abs_err S T_gt_dim (Masked.of_rows pred) (Masked.of_rows gt) mask = Fin m
    /\ 0 <= m <= 2
    /\ (exact_on_valid c pred gt lengths -> m == 0)
    /\ forall w : weights,
         Masked.loss_curve w S T_gt_dim (Masked.of_rows pred) (Masked.of_rows gt) mask
         = Fin (lambda_curve w * m * geom_scale).
Proof.
  intros Hp Hg c mask.
  assert (Hc : (c <= S)%nat) by (subst c; lia).
  set (e := Evaluator.err (slice_cols c pred) (slice_cols c gt) (slice_cols c mask)).
  set (D := clamp_min tiny (Evaluator.sum2 (slice_cols c mask) * 6)).
  assert (HDpos : 0 < D) by apply clamp_min_tiny_pos.
  assert (HE : Evaluator.sum3 e == valid_abs_err c pred gt lengths)
    by apply (err_sum_valid c S pred gt lengths Hc).
  assert (HV : valid_rows c lengths * 6 <= D).
  { assert (HD : D == clamp_min tiny (valid_rows c lengths * 6)).
    { subst D mask. apply clamp_min_proper.
      rewrite (mask_sum_valid c S lengths Hc). reflexivity. }
    rewrite HD. unfold clamp_min.
    destruct (Qltb (valid_rows c lengths * 6) tiny) eqn:E.
    - apply Qltb_lt in E. Lqa.lra.
    - apply Qle_refl. }
  pose proof (valid_abs_err_nonneg c pred gt lengths) as H0.
  pose proof (valid_abs_err_le c pred gt lengths Hp Hg) as H2.
  exists (Evaluator.sum3 e / D). split; [|split; [|split]].
  - unfold Masked.mean_abs_err. fold c.
    rewrite !slice_of_rows, err_fin, sum3_fin. fold e. fold D.
    apply ext_div_fin. exact HDpos.
  - split.
    + apply Qle_shift_div_l; [exact HDpos | Lqa.lra].
    + apply Qle_shift_div_r; [exact HDpos | Lqa.lra].
  - intros Hex. apply valid_abs_err_zero_iff in Hex.
    rewrite HE, Hex. unfold Qdiv. ring.
  - intros w. rewrite loss_curve_fin. reflexivity.
Qed.

End MaskedCurveLoss.



Lemma curve_error_range_witness :
  let pred := [[Codec.mkRow 0 0 0 0 1 1; Codec.mkRow 0 0 0 0 0 0]]%Q in
  let gt := [[Codec.line_row_example; Codec.pad_row]] in
  let mask := Evaluator.valid_mask 2 [1%nat] in
  exists m : Q,
    Masked.mean_abs_err 2 2 (Masked.of_rows pred) (Masked.of_rows gt) mask
    = Predictor.Fin m
    /\ (0 <= m <= 2)%Q
    /\ (Agreement.exact_on_valid (Nat.min 2 2) pred gt [1%nat] -> (m == 0)%Q)
    /\ forall w : Evaluator.weights,
         Masked.loss_curve w 2 2 (Masked.of_rows pred) (Masked.of_rows gt) mask
         = Predictor.Fin (Evaluator.lambda_curve w * m * Evaluator.geom_scale)%Q.
Proof.
  intros pred gt mask.
  apply (curve_error_range 2 2 pred gt [1%nat]).
  - repeat constructor; vm_compute; discriminate.
  - repeat constructor; vm_compute; discriminate.
Defined.

(** ** Best and final checkpoint of a training run *)
Section TrainingRun.
Import Num Predictor Trainer.
Local Open Scope Q_scope.

Variable avg_epoch_loss : nat -> ext.

Lemma ext_ltb_trans (a b c : ext) :
  ext_ltb a b = true -> ext_ltb b c = true -> ext_ltb a c = true.
Proof.
  destruct a as [x| | |], b as [y| | |], c as [z| | |]; cbn [ext_ltb];
    try discriminate; try reflexivity.
  intros H1 H2. apply Qltb_lt in H1. apply Qltb_lt in H2.
  apply Qltb_lt. Lqa.lra.
Qed.

Lemma ext_ltb_irrefl (a : ext) : ext_ltb a a = false.
Proof.
  destruct a as [x| | |]; cbn [ext_ltb]; try reflexivity.
  apply Qltb_ge, Qle_refl.
Qed.

(** The loop never lets the best loss grow, and no epoch it went through
    has a loss below the best loss it ends with. *)
Lemma epoch_loop_best (remaining : nat) :
  forall (e : nat) (best : ext) (saved : option checkpoint),
    let r := epoch_loop avg_epoch_loss e remaining best saved in
    (fst r = best \/ ext_ltb (fst r) best = true)
    /\ Forall (fun e' => ext_ltb (avg_epoch_loss e') (fst r) = false)
              (epochs_run avg_epoch_loss e remaining).
Proof.
  induction remaining as [|remaining IH]; intros e best saved.
  - cbn [epoch_loop epochs_run fst]. split; [left; reflexivity | constructor].
  - cbn [epoch_loop epochs_run]. cbv zeta.
    remember (avg_epoch_loss e) as avg eqn:Havg.
    destruct (ext_ltb avg best) eqn:Hlt; cbn [fst snd];
      destruct (ext_ltb avg (Fin overfit_eps)) eqn:Hstop; cbn [fst snd].
    + split; [right; exact Hlt|].
      constructor; [|constructor]. rewrite <- Havg. apply ext_ltb_irrefl.
    + destruct (IH (S e) avg (Some (mkCheckpoint e avg))) as [Hmono Hall].
      split.
      * right. destruct Hmono as [->|Hm]; [exact Hlt|].
        exact (ext_ltb_trans _ _ _ Hm Hlt).
      * constructor; [|exact Hall]. rewrite <- Havg.
        destruct Hmono as [->|Hm]; [apply ext_ltb_irrefl|].
        destruct (ext_ltb avg (fst (epoch_loop avg_epoch_loss (S e) remaining avg
                                      (Some (mkCheckpoint e avg))))) eqn:E;
          [|reflexivity].
        pose proof (ext_ltb_trans _ _ _ E Hm) as Habs.
        rewrite ext_ltb_irrefl in Habs. discriminate.
    + split; [left; reflexivity|].
      constructor; [rewrite <- Havg; exact Hlt | constructor].
    + destruct (IH (S e) best saved) as [Hmono Hall].
      split; [exact Hmono|].
      constructor; [|exact Hall]. rewrite <- Havg.
      destruct Hmono as [->|Hm]; [exact Hlt|].
      destruct (ext_ltb avg (fst (epoch_loop avg_epoch_loss (S e) remaining best saved)))
        eqn:E; [|reflexivity].
      rewrite (ext_ltb_trans _ _ _ E Hm) in Hlt. discriminate.
Qed.

(** What [best_model.pth] holds when the loop is left: what it held
    before, if no epoch improved on the best loss, and otherwise the epoch
    whose loss is the best loss. *)
Lemma epoch_loop_saved (remaining : nat) :
  forall (e : nat) (best : ext) (saved : option checkpoint),
    let r := epoch_loop avg_epoch_loss e remaining best saved in
    r = (best, saved)
    \/ exists e', In e' (epochs_run avg_epoch_loss e remaining)
                  /\ r = (avg_epoch_loss e', Some (mkCheckpoint e' (avg_epoch_loss e')))
                  /\ ext_ltb (avg_epoch_loss e') best = true.
Proof.
  induction remaining as [|remaining IH]; intros e best saved.
  - left. reflexivity.
  - cbn [epoch_loop epochs_run]. cbv zeta.
    set (avg := avg_epoch_loss e).
    destruct (ext_ltb avg best) eqn:Hlt; cbn [fst snd];
      destruct (ext_ltb avg (Fin overfit_eps)) eqn:Hstop; cbn [fst snd].
    + right. exists e. split; [left; reflexivity|]. split; [reflexivity | exact Hlt].
    + destruct (IH (S e) avg (Some (mkCheckpoint e avg))) as [Heq|(e' & Hin & Heq & Hb)].
      * right. exists e. split; [left; reflexivity|].
        split; [exact Heq | exact Hlt].
      * right. exists e'. split; [right; exact Hin|].
        split; [exact Heq | exact (ext_ltb_trans _ _ _ Hb Hlt)].
    + left. reflexivity.
    + destruct (IH (S e) best saved) as [Heq|(e' & Hin & Heq & Hb)].
      * left. exact Heq.
      * right. exists e'. split; [right; exact Hin|]. split; assumption.
Qed.

(** A training run: the best loss written to [final_model.pth] is beaten by
    no epoch the run went through; [best_model.pth] is left as it was when
    no epoch improved on the best loss the run started with, and otherwise
    it holds an epoch of this run together with its loss, which is that
    best loss; [final_model.pth] names [num_epochs] as its epoch whether or
    not the run stopped early, so a run resumed from it goes through no
    epoch and leaves both files as they are. *)
Theorem training_run_checkpoints (model_name : option checkpoint) (num_epochs : nat)
  (best_on_disk : option checkpoint) :
  let start_epoch :=
    match model_name with Some ckpt => (epoch ckpt + 1)%nat | None => 1%nat end in
  let best0 := match model_name with Some ckpt => best_loss ckpt | None => PInf end in
  let run := epochs_run avg_epoch_loss start_epoch (num_epochs + 1 - start_epoch) in
  let out := train_model_batched avg_epoch_loss model_name num_epochs best_on_disk in
  let final := final_model_pth out in
  Forall (fun e => ext_ltb (avg_epoch_loss e) (best_loss final) = false) run
  /\ ((best_loss final = best0 /\ best_model_pth out = best_on_disk)
      \/ exists e, In e run
                   /\ best_model_pth out = Some (mkCheckpoint e (avg_epoch_loss e))
                   /\ best_loss final = avg_epoch_loss e
                   /\ ext_ltb (avg_epoch_loss e) best0 = true)
  /\ epoch final = num_epochs
  /\ (forall (later_loss : nat -> ext) (disk : option checkpoint),
        train_model_batched later_loss (Some final) num_epochs disk
        = mkFiles disk final).
Proof.
  intros start_epoch best0 run out final.
  unfold final, out, train_model_batched. fold start_epoch. fold best0.
  cbn [final_model_pth best_model_pth best_loss epoch].
  destruct (epoch_loop_best (num_epochs + 1 - start_epoch) start_epoch best0 best_on_disk)
    as [_ Hall].
  pose proof (epoch_loop_saved (num_epochs + 1 - start_epoch) start_epoch best0
                best_on_disk) as Hsaved.
  cbv zeta in Hsaved.
  split; [exact Hall|]. split; [|split; [reflexivity|]].
  - destruct Hsaved as [Heq|(e & Hin & Heq & Hb)].
    + left. rewrite Heq. split; reflexivity.
    + right. exists e. rewrite Heq. repeat split; assumption.
  - intros later_loss disk.
    replace (num_epochs + 1 - (num_epochs + 1))%nat with 0%nat by lia.
    reflexivity.
Qed.

End TrainingRun.

(** ** What the parent-shape encoder reads *)
Section EncoderFacts.
Import Num Codec Encoder.
Local Open Scope Q_scope.

Variable dim : nat.
Variable input_proj : row -> vec.
Variable pos_emb : nat -> vec.
Variable mlp : vec -> vec.

Hypothesis mlp_dim : forall v, length (mlp v) = dim.

Lemma Forall2_Qeq_refl (v : vec) : Forall2 Qeq v v.
Proof. induction v; constructor; [reflexivity | assumption]. Qed.

Lemma Forall2_Qeq_trans (u v w : vec) :
  Forall2 Qeq u v -> Forall2 Qeq v w -> Forall2 Qeq u w.
Proof.
  intros H. revert w. induction H as [|a b u v Hab _ IH]; intros w Hw;
    inversion Hw; subst; constructor.
  - rewrite Hab. assumption.
  - apply IH. assumption.
Qed.

Lemma vec_add_proper (u u' v v' : vec) :
  Forall2 Qeq u u' -> Forall2 Qeq v v' -> Forall2 Qeq (vec_add u v) (vec_add u' v').
Proof.
  intros Hu. revert v v'. induction Hu as [|a a' u u' Ha _ IH]; intros v v' Hv.
  - constructor.
  - inversion Hv; subst; [constructor|].
    unfold vec_add. cbn [combine map fst snd]. constructor.
    + rewrite Ha. match goal with H : _ == _ |- _ => rewrite H end. reflexivity.
    + apply IH. assumption.
Qed.

Lemma vec_add_zeros (n : nat) : Forall2 Qeq (vec_add (repeat 0 n) (repeat 0 n)) (repeat 0 n).
Proof.
  induction n as [|n IH]; [constructor|].
  unfold vec_add. cbn [repeat combine map fst snd]. constructor; [ring | exact IH].
Qed.

Lemma vec_scale_zero (v : vec) : Forall2 Qeq (vec_scale 0 v) (repeat 0 (length v)).
Proof.
  induction v as [|a v IH]; [constructor|].
  unfold vec_scale. cbn [map length repeat]. constructor; [ring | exact IH].
Qed.

Lemma vec_sum_zeros (zs : list vec) :
  Forall (fun z => Forall2 Qeq z (repeat 0 dim)) zs ->
  Forall2 Qeq (vec_sum dim zs) (repeat 0 dim).
Proof.
  unfold vec_sum. induction 1 as [|z zs Hz _ IH]; [apply Forall2_Qeq_refl|].
  cbn [fold_right].
  apply Forall2_Qeq_trans with (vec_add (repeat 0 dim) (repeat 0 dim));
    [apply vec_add_proper; assumption | apply vec_add_zeros].
Qed.

Lemma fold_add_proper (xs : list vec) (acc acc' : vec) :
  Forall2 Qeq acc acc' ->
  Forall2 Qeq (fold_right vec_add acc xs) (fold_right vec_add acc' xs).
Proof.
  intros H. induction xs as [|x xs IH]; [exact H|].
  cbn [fold_right]. apply vec_add_proper; [apply Forall2_Qeq_refl | exact IH].
Qed.

(** Rows whose feature is zero add nothing to the sum. *)
Lemma vec_sum_app_zeros (xs zs : list vec) :
  Forall (fun z => Forall2 Qeq z (repeat 0 dim)) zs ->
  Forall2 Qeq (vec_sum dim (xs ++ zs)) (vec_sum dim xs).
Proof.
  intros Hz. unfold vec_sum. rewrite fold_right_app.
  apply fold_add_proper. apply (vec_sum_zeros zs Hz).
Qed.

(** The steps of the encoder, fused into one function of the row and its
    position. *)
Lemma encoder_steps_fused (L : nat) (rows : list row) :
  forall k,
    map (fun xm : vec * Q => vec_scale (snd xm) (fst xm))
      (combine
         (map mlp
            (map (fun xm : vec * Q => vec_scale (snd xm) (fst xm))
               (combine
                  (map (fun xs : vec * nat => vec_add (fst xs) (pos_emb (snd xs)))
                       (combine (map input_proj rows) (seq k (length rows))))
                  (map (fun s => if (s <? L)%nat then 1 else 0) (seq k (length rows))))))
         (map (fun s => if (s <? L)%nat then 1 else 0) (seq k (length rows))))
    = map (fun sr => row_feature input_proj pos_emb mlp L (fst sr) (snd sr))
          (combine (seq k (length rows)) rows).
Proof.
  induction rows as [|r rows IH]; intros k; [reflexivity|].
  cbn [length seq map combine fst snd]. f_equal. apply IH.
Qed.

Lemma combine_seq_app {A} (a b : list A) :
  forall k,
    combine (seq k (length (a ++ b))) (a ++ b)
    = combine (seq k (length a)) a ++ combine (seq (k + length a) (length b)) b.
Proof.
  induction a as [|x a IH]; intros k.
  - cbn [app length seq combine]. rewrite Nat.add_0_r. reflexivity.
  - cbn [app length seq combine]. f_equal. rewrite IH.
    replace (S k + length a)%nat with (k + S (length a))%nat by lia. reflexivity.
Qed.

Lemma actual_length_cons (r : row) (l : list row) :
  actual_length (r :: l)
  = if is_padding_segment r then 0%nat else S (actual_length l).
Proof.
  unfold actual_length. cbn [first_pad_idx].
  destruct (is_padding_segment r); [reflexivity|].
  destruct (first_pad_idx l); reflexivity.
Qed.

Lemma actual_length_le (l : list row) : (actual_length l <= length l)%nat.
Proof.
  induction l as [|r l IH]; [apply Nat.le_refl|].
  rewrite actual_length_cons. destruct (is_padding_segment r); cbn [length]; lia.
Qed.

(** The rows before the first padding row hold no padding row. *)
Lemma actual_length_prefix (l : list row) :
  actual_length (firstn (actual_length l) l) = actual_length l.
Proof.
  induction l as [|r l IH]; [reflexivity|].
  rewrite actual_length_cons. destruct (is_padding_segment r) eqn:E; [reflexivity|].
  cbn [firstn]. rewrite actual_length_cons, E, IH. reflexivity.
Qed.

Lemma masked_rows_are_zero (L : nat) (rest : list row) :
  Forall (fun z => Forall2 Qeq z (repeat 0 dim))
         (map (fun sr => row_feature input_proj pos_emb mlp L (fst sr) (snd sr))
              (combine (seq L (length rest)) rest)).
Proof.
  apply Forall_map, Forall_forall. intros [s r] Hin.
  apply in_combine_l in Hin. apply in_seq in Hin. cbn [fst snd].
  unfold row_feature. replace (s <? L)%nat with false
    by (symmetry; apply Nat.ltb_ge; lia).
  cbv zeta. rewrite <- (mlp_dim (vec_scale 0 (vec_add (input_proj r) (pos_emb s)))).
  apply vec_scale_zero.
Qed.

Lemma pooled_closed_form (seq_len : nat) (shape_pts : list row) :
  let rows := firstn seq_len shape_pts in
  let L := actual_length rows in
  x_pooled dim input_proj pos_emb mlp seq_len shape_pts
  = map (fun v => v / (if Qltb (Qofnat L) 1 then 1 else Qofnat L))
        (vec_sum dim
           (map (fun sr => row_feature input_proj pos_emb mlp L (fst sr) (snd sr))
                (combine (seq 0 (length rows)) rows))).
Proof.
  intros rows L. unfold x_pooled. cbv zeta. fold rows. fold L.
  rewrite (encoder_steps_fused L rows 0). reflexivity.
Qed.

Lemma map_div_proper (n : Q) (u v : vec) :
  Forall2 Qeq u v -> Forall2 Qeq (map (fun a => a / n) u) (map (fun a => a / n) v).
Proof.
  induction 1 as [|a b u v Hab _ IH]; cbn [map]; constructor; [|exact IH].
  rewrite Hab. reflexivity.
Qed.

(** The encoder reads a parent only up to its first all [-1] row: the
    pooled feature of a sample is that of the rows before that row (within
    the first [seq_len]), whatever follows it, real rows included; and the
    latent vector is the same for every [to_latent] that maps equal vectors
    to equal vectors. *)
Theorem encoder_reads_rows_before_padding (seq_len : nat) (shape_pts : list row)
  (to_latent : vec -> vec) :
  (forall u v, Forall2 Qeq u v -> Forall2 Qeq (to_latent u) (to_latent v)) ->
  let L := actual_length (firstn seq_len shape_pts) in
  Forall2 Qeq (x_pooled dim input_proj pos_emb mlp seq_len shape_pts)
              (x_pooled dim input_proj pos_emb mlp seq_len (firstn L shape_pts))
  /\ Forall2 Qeq (to_latent (x_pooled dim input_proj pos_emb mlp seq_len shape_pts))
                 (to_latent (x_pooled dim input_proj pos_emb mlp seq_len
                                      (firstn L shape_pts))).
Proof.
  intros Hlat L.
  assert (Hmain : Forall2 Qeq (x_pooled dim input_proj pos_emb mlp seq_len shape_pts)
                    (x_pooled dim input_proj pos_emb mlp seq_len (firstn L shape_pts))).
  { rewrite !pooled_closed_form. cbv zeta.
    set (rows := firstn seq_len shape_pts) in *.
    pose proof (actual_length_le rows) as HL. fold L in HL.
    assert (Hlen : (length rows <= seq_len)%nat)
      by (unfold rows; rewrite length_firstn; lia).
    assert (Hrows2 : firstn seq_len (firstn L shape_pts) = firstn L rows).
    { unfold rows. rewrite !firstn_firstn. f_equal. lia. }
    rewrite Hrows2.
    assert (HL2 : actual_length (firstn L rows) = L) by apply actual_length_prefix.
    rewrite HL2.
    apply map_div_proper.
    rewrite <- (firstn_skipn L rows) at 1 2.
    rewrite combine_seq_app, map_app.
    assert (Hl : length (firstn L rows) = L) by (rewrite length_firstn; lia).
    rewrite Hl. cbn [Nat.add].
    apply vec_sum_app_zeros. apply masked_rows_are_zero. }
  split; [exact Hmain | apply Hlat; exact Hmain].
Qed.

End EncoderFacts.

Lemma encoder_reads_rows_before_padding_witness :
  let shape_pts := [Codec.line_row_example; Codec.pad_row; Codec.line_row_example] in
  let L := Codec.actual_length (firstn 30 shape_pts) in
  Forall2 Qeq
    (Encoder.x_pooled 1 Encoder.demo_proj Encoder.demo_pos Encoder.demo_mlp 30 shape_pts)
    (Encoder.x_pooled 1 Encoder.demo_proj Encoder.demo_pos Encoder.demo_mlp 30
       (firstn L shape_pts))
  /\ Forall2 Qeq
       ((fun v : Encoder.vec => v)
          (Encoder.x_pooled 1 Encoder.demo_proj Encoder.demo_pos Encoder.demo_mlp 30
             shape_pts))
       ((fun v : Encoder.vec => v)
          (Encoder.x_pooled 1 Encoder.demo_proj Encoder.demo_pos Encoder.demo_mlp 30
             (firstn L shape_pts))).
Proof.
  apply (encoder_reads_rows_before_padding 1 Encoder.demo_proj Encoder.demo_pos
           Encoder.demo_mlp (fun v => eq_refl) 30
           [Codec.line_row_example; Codec.pad_row; Codec.line_row_example]
           (fun v => v)).
  intros u v H. exact H.
Defined.

(** ** The parent's box in the dataset *)
Section BoundingBox.
Import Num Sampler Dataset.
Local Open Scope Q_scope.

Lemma fold_min_le (l : list nat) (d x : nat) :
  In x l -> (fold_right Nat.min d l <= x)%nat.
Proof.
  induction l as [|a l IH]; intros H; [destruct H|].
  cbn [fold_right]. destruct H as [->|H]; [lia|]. specialize (IH H). lia.
Qed.

Lemma index_min_le (l : list nat) (x : nat) : In x l -> (index_min l <= x)%nat.
Proof. apply fold_min_le. Qed.

Lemma index_max_ge (l : list nat) (x : nat) : In x l -> (x <= index_max l)%nat.
Proof.
  unfold index_max. induction l as [|a l IH]; intros H; [destruct H|].
  cbn [fold_right]. destruct H as [->|H]; [lia|]. specialize (IH H). lia.
Qed.

Lemma index_max_bound (l : list nat) (n : nat) :
  Forall (fun x => (x <= n)%nat) l -> (index_max l <= n)%nat.
Proof.
  unfold index_max. induction 1 as [|a l Ha _ IH]; cbn [fold_right]; lia.
Qed.

Lemma scaled_index (canvas a b : nat) :
  (2 <= canvas)%nat -> (a <= b)%nat -> (b <= canvas - 1)%nat ->
  0 <= Qofnat a / (Qofnat canvas - 1)
  /\ Qofnat a / (Qofnat canvas - 1) <= Qofnat b / (Qofnat canvas - 1)
  /\ Qofnat b / (Qofnat canvas - 1) <= 1.
Proof.
  intros Hc Hab Hb. pose proof (canvas_span_pos canvas Hc) as Hd.
  pose proof (Qofnat_nonneg a) as Ha0. pose proof (Qofnat_le a b Hab) as Hab'.
  assert (Hb' : Qofnat b <= Qofnat canvas - 1).
  { pose proof (Qofnat_le (S b) canvas ltac:(lia)) as H.
    rewrite Qofnat_S in H. Lqa.lra. }
  split; [|split].
  - apply Qle_shift_div_l; [exact Hd | Lqa.lra].
  - apply Qle_shift_div_l; [exact Hd|].
    assert (E : Qofnat a / (Qofnat canvas - 1) * (Qofnat canvas - 1) == Qofnat a).
    { field. intros Z. rewrite Z in Hd. exact (Qlt_irrefl 0 Hd). }
    rewrite E. exact Hab'.
  - apply Qle_shift_div_r; [exact Hd | Lqa.lra].
Qed.

Lemma where_pos_bounds (canvas : nat) (mask_sq : mask) (y x : nat) :
  length mask_sq = canvas -> Forall (fun row => length row = canvas) mask_sq ->
  In (y, x) (where_pos mask_sq) -> (y <= canvas - 1)%nat /\ (x <= canvas - 1)%nat.
Proof.
  intros HH HW Hin.
  destruct (where_pos_in mask_sq y x Hin) as (row & v & Hrow & Hv & _).
  assert (Hy : (y < length mask_sq)%nat) by (apply nth_error_Some; congruence).
  assert (Hx : (x < length row)%nat) by (apply nth_error_Some; congruence).
  rewrite Forall_forall in HW. rewrite (HW row (nth_error_In _ _ Hrow)) in Hx. lia.
Qed.

(** The box the dataset stores for a parent: four corners in the unit
    square, [x_min <= x_max] and [y_min <= y_max], around every foreground
    pixel of the letterboxed mask; for an empty mask the whole canvas. *)
Theorem parent_bbox_encloses_foreground (canvas : nat) (mask_sq : mask) :
  (2 <= canvas)%nat ->
  length mask_sq = canvas -> Forall (fun row => length row = canvas) mask_sq ->
  exists x0 y0 x1 y1 : Q,
    parent_bbox canvas mask_sq = [(x0, y0); (x0, y1); (x1, y0); (x1, y1)]
    /\ (0 <= x0 /\ x0 <= x1 /\ x1 <= 1) /\ (0 <= y0 /\ y0 <= y1 /\ y1 <= 1)
    /\ Forall (fun yx => (x0 <= fst (pixel_at canvas yx) /\ fst (pixel_at canvas yx) <= x1)
                         /\ (y0 <= snd (pixel_at canvas yx)
                             /\ snd (pixel_at canvas yx) <= y1))
              (where_pos mask_sq)
    /\ (where_pos mask_sq = [] -> x0 == 0 /\ y0 == 0 /\ x1 == 1 /\ y1 == 1).
Proof.
  intros Hc HH HW. unfold parent_bbox. cbv zeta.
  pose proof (canvas_span_pos canvas Hc) as Hd.
  destruct (where_pos mask_sq) as [|[y x] fg] eqn:Hfg.
  - cbn [map length Nat.ltb Nat.leb fst snd].
    do 4 eexists. split; [reflexivity|].
    destruct (scaled_index canvas 0 (canvas - 1) Hc ltac:(lia) ltac:(lia))
      as (H0 & H01 & H1).
    split; [tauto|]. split; [tauto|]. split; [constructor|].
    intros _. change (Qofnat 0) with 0.
    assert (E : Qofnat (canvas - 1) == Qofnat canvas - 1).
    { pose proof (Qofnat_S (canvas - 1)) as H.
      replace (S (canvas - 1)) with canvas in H by lia. Lqa.lra. }
    rewrite E. repeat split; field; intros Z; rewrite Z in Hd;
      exact (Qlt_irrefl 0 Hd).
  - rewrite <- Hfg.
    assert (Hpos : (0 <? length (map snd (where_pos mask_sq)))%nat = true)
      by (rewrite Hfg; reflexivity).
    rewrite Hpos.
    set (xs := map snd (where_pos mask_sq)). set (ys := map fst (where_pos mask_sq)).
    assert (Hxin : In x xs) by (unfold xs; rewrite Hfg; left; reflexivity).
    assert (Hyin : In y ys) by (unfold ys; rewrite Hfg; left; reflexivity).
    assert (Hxb : Forall (fun x => (x <= canvas - 1)%nat) xs).
    { apply Forall_map, Forall_forall. intros [y' x'] Hin.
      apply (where_pos_bounds canvas mask_sq y' x' HH HW Hin). }
    assert (Hyb : Forall (fun y => (y <= canvas - 1)%nat) ys).
    { apply Forall_map, Forall_forall. intros [y' x'] Hin.
      apply (where_pos_bounds canvas mask_sq y' x' HH HW Hin). }
    pose proof (index_max_bound xs _ Hxb) as Hxmax.
    pose proof (index_max_bound ys _ Hyb) as Hymax.
    pose proof (index_min_le xs x Hxin) as Hx1. pose proof (index_max_ge xs x Hxin) as Hx2.
    pose proof (index_min_le ys y Hyin) as Hy1. pose proof (index_max_ge ys y Hyin) as Hy2.
    do 4 eexists. split; [reflexivity|].
    destruct (scaled_index canvas (index_min xs) (index_max xs) Hc ltac:(lia) Hxmax)
      as (Hx0 & Hx01 & Hx11).
    destruct (scaled_index canvas (index_min ys) (index_max ys) Hc ltac:(lia) Hymax)
      as (Hy0 & Hy01 & Hy11).
    split; [tauto|]. split; [tauto|]. split.
    + apply Forall_forall. intros [y' x'] Hin. unfold pixel_at. cbn [fst snd].
      assert (Hx' : In x' xs) by (unfold xs; apply (in_map snd _ _ Hin)).
      assert (Hy' : In y' ys) by (unfold ys; apply (in_map fst _ _ Hin)).
      destruct (scaled_index canvas (index_min xs) x' Hc (index_min_le _ _ Hx')
                  ltac:(rewrite Forall_forall in Hxb; exact (Hxb _ Hx'))) as (_ & A1 & _).
      destruct (scaled_index canvas x' (index_max xs) Hc (index_max_ge _ _ Hx') Hxmax)
        as (_ & A2 & _).
      destruct (scaled_index canvas (index_min ys) y' Hc (index_min_le _ _ Hy')
                  ltac:(rewrite Forall_forall in Hyb; exact (Hyb _ Hy'))) as (_ & B1 & _).
      destruct (scaled_index canvas y' (index_max ys) Hc (index_max_ge _ _ Hy') Hymax)
        as (_ & B2 & _).
      tauto.
    + intros E. rewrite Hfg in E. discriminate.
Qed.

End BoundingBox.

Lemma parent_bbox_encloses_foreground_witness :
  exists x0 y0 x1 y1 : Q,
    Dataset.parent_bbox 2 Sampler.corner_off_mask = [(x0, y0); (x0, y1); (x1, y0); (x1, y1)]
    /\ (0 <= x0 /\ x0 <= x1 /\ x1 <= 1)%Q /\ (0 <= y0 /\ y0 <= y1 /\ y1 <= 1)%Q
    /\ Forall (fun yx => ((x0 <= fst (Dataset.pixel_at 2 yx)
                           /\ fst (Dataset.pixel_at 2 yx) <= x1)
                          /\ (y0 <= snd (Dataset.pixel_at 2 yx)
                              /\ snd (Dataset.pixel_at 2 yx) <= y1))%Q)
              (Sampler.where_pos Sampler.corner_off_mask)
    /\ (Sampler.where_pos Sampler.corner_off_mask = []
        -> (x0 == 0 /\ y0 == 0 /\ x1 == 1 /\ y1 == 1)%Q).
Proof.
  apply (parent_bbox_encloses_foreground 2 Sampler.corner_off_mask).
  - lia.
  - reflexivity.
  - repeat constructor.
Defined.
